(** * Cloze post-processing pipeline of the refine server

    A shallow embedding of the deterministic text passes of the server
    ([pickAnchorWords], [enforceClozeWordLimit], [renumberClozesPerCard],
    [capClozesToInput], [splitByDelimiter], [joinByDelimiter]) together with
    the properties the specification states about them.

    JavaScript strings are sequences of UTF-16 code units; a string is modelled
    as a list of code units, each an [N].  Every statement below quantifies
    over all such lists. *)

From Stdlib Require Import String Ascii.
From Stdlib Require Import List NArith Arith Lia Bool.
From Stdlib Require Import DecimalNat.
Import ListNotations.

(** ** Strings and character classes *)

Definition char := N.
Definition jstring := list char.

(** An ASCII literal as a JavaScript string. *)
Definition lit (s : string) : jstring :=
  map N_of_ascii (list_ascii_of_string s).

Definition in_range (lo hi c : N) : bool := (N.leb lo c && N.leb c hi)%bool.

(** [\d] *)
Definition is_digit (c : char) : bool := in_range 48 57 c.

(** [\w] (without the unicode flag): [A-Za-z0-9_] *)
Definition is_word (c : char) : bool :=
  (in_range 65 90 c || in_range 97 122 c || is_digit c || N.eqb c 95)%bool.

(** [\s], which is also the set that [String.prototype.trim] strips:
    WhiteSpace and LineTerminator of ECMAScript. *)
Definition is_space (c : char) : bool :=
  (in_range 9 13 c || N.eqb c 32 || N.eqb c 160 || N.eqb c 5760
   || in_range 8192 8202 c || N.eqb c 8232 || N.eqb c 8233
   || N.eqb c 8239 || N.eqb c 8287 || N.eqb c 12288 || N.eqb c 65279)%bool.

Definition LBRACE : char := 123%N.
Definition RBRACE : char := 125%N.
Definition COLON : char := 58%N.
Definition LOWER_C : char := 99%N.
Definition LF : char := 10%N.

Fixpoint jeqb (a b : jstring) : bool :=
  match a, b with
  | [], [] => true
  | x :: a', y :: b' => (N.eqb x y && jeqb a' b')%bool
  | _, _ => false
  end.

(** [strip_prefix p s] is the rest of [s] after the literal [p], when [s]
    starts with [p]. *)
Fixpoint strip_prefix (p s : jstring) : option jstring :=
  match p with
  | [] => Some s
  | x :: p' =>
      match s with
      | [] => None
      | y :: s' => if N.eqb x y then strip_prefix p' s' else None
      end
  end.

(** The longest prefix whose characters satisfy [f], and what follows it:
    a greedy [f*]. *)
Fixpoint span (f : char -> bool) (s : jstring) : jstring * jstring :=
  match s with
  | [] => ([], [])
  | c :: s' =>
      if f c then let (a, b) := span f s' in (c :: a, b) else ([], s)
  end.

Fixpoint drop_while (f : char -> bool) (s : jstring) : jstring :=
  match s with
  | [] => []
  | c :: s' => if f c then drop_while f s' else s
  end.

(** [String.prototype.trim] *)
Definition trim (s : jstring) : jstring :=
  rev (drop_while is_space (rev (drop_while is_space s))).

(** [Array.prototype.join] *)
Fixpoint join (d : jstring) (parts : list jstring) : jstring :=
  match parts with
  | [] => []
  | p :: ps =>
      match ps with
      | [] => p
      | _ :: _ => p ++ d ++ join d ps
      end
  end.

(** [String(n)] for a non-negative integer. *)
Fixpoint uint_chars (u : Decimal.uint) : jstring :=
  match u with
  | Decimal.Nil => []
  | Decimal.D0 u' => 48%N :: uint_chars u'
  | Decimal.D1 u' => 49%N :: uint_chars u'
  | Decimal.D2 u' => 50%N :: uint_chars u'
  | Decimal.D3 u' => 51%N :: uint_chars u'
  | Decimal.D4 u' => 52%N :: uint_chars u'
  | Decimal.D5 u' => 53%N :: uint_chars u'
  | Decimal.D6 u' => 54%N :: uint_chars u'
  | Decimal.D7 u' => 55%N :: uint_chars u'
  | Decimal.D8 u' => 56%N :: uint_chars u'
  | Decimal.D9 u' => 57%N :: uint_chars u'
  end.

Definition String_of_nat (n : nat) : jstring := uint_chars (Nat.to_uint n).

(** ** Left-to-right scanning

    [String.prototype.replace] with a global regular expression,
    [String.prototype.matchAll] and [String.prototype.split] all walk the
    subject from left to right: at the current position the pattern is tried;
    on success the match is recorded and the walk resumes after it, otherwise
    it moves one code unit on.  The matches are collected before any replacer
    callback runs.  None of the patterns of this program matches the empty
    string.

    A pattern is given by its matcher at the head of a string: the captured
    data and the text that follows the match. *)

Section Scan.
Variable A : Type.
Variable m : jstring -> option (A * jstring).

Inductive piece : Type :=
| Lit (c : char)
| Hit (a : A).

Fixpoint scan_fuel (fuel : nat) (s : jstring) : list piece :=
  match fuel with
  | O => map Lit s
  | S fuel' =>
      match s with
      | [] => []
      | c :: s' =>
          match m s with
          | Some (a, rest) => Hit a :: scan_fuel fuel' rest
          | None => Lit c :: scan_fuel fuel' s'
          end
      end
  end.

Definition scan (s : jstring) : list piece := scan_fuel (length s) s.

(** The matches, in order ([matchAll]). *)
Fixpoint hits (ps : list piece) : list A :=
  match ps with
  | [] => []
  | Lit _ :: ps' => hits ps'
  | Hit a :: ps' => a :: hits ps'
  end.

(** The text between the matches ([split]). *)
Fixpoint chunks (ps : list piece) : list jstring :=
  match ps with
  | [] => [[]]
  | Lit c :: ps' =>
      match chunks ps' with
      | h :: t => (c :: h) :: t
      | [] => [[c]]
      end
  | Hit _ :: ps' => [] :: chunks ps'
  end.

(** The subject with every match replaced by what the replacer returns
    for it. *)
Fixpoint render (f : A -> jstring) (ps : list piece) : jstring :=
  match ps with
  | [] => []
  | Lit c :: ps' => c :: render f ps'
  | Hit a :: ps' => f a ++ render f ps'
  end.

Definition matchAll (s : jstring) : list A := hits (scan s).
Definition replace (f : A -> jstring) (s : jstring) : jstring :=
  render f (scan s).
End Scan.

Arguments Lit {A} c.
Arguments Hit {A} a.
Arguments scan_fuel {A} m fuel s.
Arguments scan {A} m s.
Arguments hits {A} ps.
Arguments chunks {A} ps.
Arguments render {A} f ps.
Arguments matchAll {A} m s.
Arguments replace {A} m f s.

(** ** The cloze patterns *)

(** [\{\{c(\d+)::].  The digits are taken greedily; as the next character must
    be a colon, no shorter run of digits can lead to a match.  The result is
    the captured index and the text after the opener. *)
Definition strict_opener (s : jstring) : option (jstring * jstring) :=
  match strip_prefix (lit "{{c") s with
  | Some s1 =>
      let (n, s2) := span is_digit s1 in
      match n with
      | [] => None
      | _ :: _ =>
          match strip_prefix (lit "::") s2 with
          | Some s3 => Some (n, s3)
          | None => None
          end
      end
  | None => None
  end.

(** [\{\{\s*c(\d+)\s*::].  Again every greedy run is followed by a character
    outside its class, so the greedy choice is the only one.  The result is
    the matched text, the captured index and the text after the opener. *)
Definition loose_opener (s : jstring)
  : option ((jstring * jstring) * jstring) :=
  match strip_prefix (lit "{{") s with
  | Some s0 =>
      let (w1, s0') := span is_space s0 in
      match strip_prefix (lit "c") s0' with
      | Some s1 =>
          let (n, s2) := span is_digit s1 in
          match n with
          | [] => None
          | _ :: _ =>
              let (w2, s2') := span is_space s2 in
              match strip_prefix (lit "::") s2' with
              | Some s3 =>
                  Some ((lit "{{" ++ w1 ++ lit "c" ++ n ++ w2 ++ lit "::", n),
                        s3)
              | None => None
              end
          end
      | None => None
      end
  | None => None
  end.

(** [([\s\S]*?)\}\}]: the text up to the first [}}], and what follows that
    [}}]. *)
Fixpoint until_close (s : jstring) : option (jstring * jstring) :=
  match strip_prefix (lit "}}") s with
  | Some rest => Some ([], rest)
  | None =>
      match s with
      | [] => None
      | c :: s' =>
          match until_close s' with
          | Some (inner, rest) => Some (c :: inner, rest)
          | None => None
          end
      end
  end.

(** What a replacer callback receives for a span: the whole match, the index
    and the inner text. *)
Record span_match : Type := SpanMatch {
  sm_full : jstring;
  sm_n : jstring;
  sm_inner : jstring
}.

(** [\{\{c(\d+)::([\s\S]*?)\}\}] *)
Definition strict_span (s : jstring) : option (span_match * jstring) :=
  match strict_opener s with
  | Some (n, s1) =>
      match until_close s1 with
      | Some (inner, rest) =>
          Some (SpanMatch (lit "{{c" ++ n ++ lit "::" ++ inner ++ lit "}}")
                          n inner, rest)
      | None => None
      end
  | None => None
  end.

(** [\{\{\s*c(\d+)\s*::([\s\S]*?)\}\}] *)
Definition loose_span (s : jstring) : option (span_match * jstring) :=
  match loose_opener s with
  | Some ((o, n), s1) =>
      match until_close s1 with
      | Some (inner, rest) =>
          Some (SpanMatch (o ++ inner ++ lit "}}") n inner, rest)
      | None => None
      end
  | None => None
  end.

(** [\s+] *)
Definition space_run (s : jstring) : option (jstring * jstring) :=
  match span is_space s with
  | ([], _) => None
  | (w, rest) => Some (w, rest)
  end.

(** A literal separator, as [String.prototype.split] takes it. *)
Definition literally (d s : jstring) : option (unit * jstring) :=
  match strip_prefix d s with
  | Some rest => Some (tt, rest)
  | None => None
  end.

(** [s.split(d)] for a non-empty literal [d]. *)
Definition split (d s : jstring) : list jstring :=
  chunks (scan (literally d) s).

(** [s.split(/\s+/)] *)
Definition split_spaces (s : jstring) : list jstring :=
  chunks (scan space_run s).

Definition nonempty (s : jstring) : bool :=
  match s with [] => false | _ :: _ => true end.

(** ** The keyword patterns of [pickAnchorWords]

    The patterns use literal characters, an optional character [x?] and the
    word boundary [\b], all under the [i] flag.  The literal characters are
    ASCII; under [i] without the unicode flag such a character matches exactly
    its two ASCII cases. *)

Inductive atom : Type :=
| Bnd            (* \b *)
| Ch (c : char)  (* x  *)
| Opt (c : char) (* x? *).

Definition upper (c : char) : char :=
  if in_range 97 122 c then (c - 32)%N else c.

Definition ci_eqb (p c : char) : bool := N.eqb (upper p) (upper c).

Definition is_word_at (o : option char) : bool :=
  match o with
  | Some c => is_word c
  | None => false
  end.

Definition at_boundary (prev : option char) (s : jstring) : bool :=
  xorb (is_word_at prev) (is_word_at (hd_error s)).

(** The pattern [items] matched at the head of [s], where [prev] is the
    character before it; the result is the matched text.  An optional
    character is first taken and, if the rest then fails, skipped. *)
Fixpoint match_atoms (items : list atom) (prev : option char) (s : jstring)
  : option jstring :=
  match items with
  | [] => Some []
  | Bnd :: items' =>
      if at_boundary prev s then match_atoms items' prev s else None
  | Ch p :: items' =>
      match s with
      | [] => None
      | c :: s' =>
          if ci_eqb p c
          then option_map (cons c) (match_atoms items' (Some c) s')
          else None
      end
  | Opt p :: items' =>
      let taken :=
        match s with
        | [] => None
        | c :: s' =>
            if ci_eqb p c
            then option_map (cons c) (match_atoms items' (Some c) s')
            else None
        end in
      match taken with
      | Some w => Some w
      | None => match_atoms items' prev s
      end
  end.

(** [s.match(re)] / [re.test(s)]: the leftmost position at which the pattern
    matches; the end of the string is a position too. *)
Fixpoint search_from (items : list atom) (prev : option char) (s : jstring)
  : option jstring :=
  match match_atoms items prev s with
  | Some w => Some w
  | None =>
      match s with
      | [] => None
      | c :: s' => search_from items (Some c) s'
      end
  end.

Definition search (items : list atom) (s : jstring) : option jstring :=
  search_from items None s.

Definition test (items : list atom) (s : jstring) : bool :=
  match search items s with Some _ => true | None => false end.

Definition chars (s : string) : list atom := map Ch (lit s).

(** [\bword\b] *)
Definition whole (body : list atom) : list atom := Bnd :: body ++ [Bnd].

Definition APOSTROPHE : char := 39%N.
Definition LOWER_S : char := 115%N.

Definition patterns : list (list atom) :=
  [ whole (chars "hypnozoite");
    whole (chars "Schuffner" ++ [Opt APOSTROPHE; Ch LOWER_S]);
    whole (chars "dot" ++ [Opt LOWER_S]);
    whole (chars "merozoite" ++ [Opt LOWER_S]);
    whole (chars "schizont" ++ [Opt LOWER_S]);
    whole (chars "tertian");
    whole (chars "quotidian");
    whole (chars "48");
    whole (chars "24");
    whole (chars "vivax");
    whole (chars "ovale");
    whole (chars "malariae");
    whole (chars "knowlesi") ].

(** [/Schuffner/i] and [/dots?/i] *)
Definition re_Schuffner : list atom := chars "Schuffner".
Definition re_dots : list atom := chars "dot" ++ [Opt LOWER_S].

(** The loop over the patterns: the match of the first pattern that matches. *)
Fixpoint first_keyword (ps : list (list atom)) (s : jstring)
  : option jstring :=
  match ps with
  | [] => None
  | re :: ps' =>
      match search re s with
      | Some w => Some w
      | None => first_keyword ps' s
      end
  end.

(** [w.replace(/^[^\w]+|[^\w]+$/g, "")]: the leading run of non-word
    characters goes, and so does the run of non-word characters that reaches
    the end of the string. *)
Definition not_word (c : char) : bool := negb (is_word c).

Definition strip_edges (w : jstring) : jstring :=
  rev (drop_while not_word (rev (drop_while not_word w))).

(** ** The passes *)

Definition SPACE : jstring := lit " ".

Definition pickAnchorWords (content : jstring) (maxWords : nat) : jstring :=
  let s := trim content in
  match first_keyword patterns s with
  | Some w =>
      if (test re_Schuffner w && test re_dots s)%bool
      then lit "Schuffner's dots"
      else w
  | None =>
      let words := filter nonempty (map strip_edges (split_spaces s)) in
      match words with
      | [] => s
      | _ :: _ => join SPACE (firstn maxWords words)
      end
  end.

(** The words of a span's content, as [enforceClozeWordLimit] counts them. *)
Definition content_words (inner : jstring) : list jstring :=
  filter nonempty (split_spaces (trim inner)).

Definition limit_span (maxWords : nat) (m : span_match) : jstring :=
  let content := trim (sm_inner m) in
  let words := content_words (sm_inner m) in
  if Nat.leb (List.length words) maxWords then sm_full m
  else lit "{{c" ++ sm_n m ++ lit "::" ++ pickAnchorWords content maxWords
       ++ lit "}}".

Definition enforceClozeWordLimit (text : jstring) (maxWords : nat) : jstring :=
  match text with
  | [] => text
  | _ :: _ => replace strict_span (limit_span maxWords) text
  end.

Definition DEFAULT_DELIMITER : jstring := lit "===CARD===".

(** [String(delimiter || "===CARD===")] *)
Definition delimiter_or_default (delimiter : jstring) : jstring :=
  match delimiter with
  | [] => DEFAULT_DELIMITER
  | _ :: _ => delimiter
  end.

(** The [Map] of [renumberClozesPerCard], from old index to new index, both
    as strings, in insertion order. *)
Definition index_map := list (jstring * jstring).

Fixpoint map_get (k : jstring) (mp : index_map) : option jstring :=
  match mp with
  | [] => None
  | (k', v) :: mp' => if jeqb k' k then Some v else map_get k mp'
  end.

Definition map_has (k : jstring) (mp : index_map) : bool :=
  match map_get k mp with Some _ => true | None => false end.

Definition map_set (k v : jstring) (mp : index_map) : index_map :=
  mp ++ [(k, v)].

(** The replacer of [renumberClozesPerCard] run over the matches of one card,
    with its map and its counter [next]. *)
Fixpoint renumber_pieces (ps : list (piece (jstring * jstring)))
  (mp : index_map) (next : nat) : jstring :=
  match ps with
  | [] => []
  | Lit c :: ps' => c :: renumber_pieces ps' mp next
  | Hit (_, oldNum) :: ps' =>
      let (mp', next') :=
        if map_has oldNum mp then (mp, next)
        else (map_set oldNum (String_of_nat next) mp, S next) in
      match map_get oldNum mp' with
      | Some v => lit "{{c" ++ v ++ lit "::" ++ renumber_pieces ps' mp' next'
      | None => lit "{{cundefined::" ++ renumber_pieces ps' mp' next'
      end
  end.

Definition renumberCard (cardText : jstring) : jstring :=
  renumber_pieces (scan loose_opener cardText) [] 1.

Definition renumberClozesPerCard (text delimiter : jstring) : jstring :=
  let d := delimiter_or_default delimiter in
  let cards := split d text in
  join d (map renumberCard cards).

(** The cloze indices of a card, in order of occurrence. *)
Definition opener_indices (card : jstring) : list jstring :=
  map snd (matchAll loose_opener card).

Definition allowed_has (n : jstring) (allowed : list jstring) : bool :=
  existsb (jeqb n) allowed.

Definition cap_span (allowed : list jstring) (m : span_match) : jstring :=
  if allowed_has (sm_n m) allowed then sm_full m else trim (sm_inner m).

Definition capCard (inCard outCard : jstring) : jstring :=
  let allowed := opener_indices inCard in
  match allowed with
  | _ :: _ => replace loose_span (cap_span allowed) outCard
  | [] => outCard
  end.

(** [outCards.map((outCard, i) => ...)] with [inCards[i] ?? ""] *)
Fixpoint cap_cards (inCards outCards : list jstring) : list jstring :=
  match outCards with
  | [] => []
  | outCard :: outCards' =>
      capCard (hd [] inCards) outCard :: cap_cards (tl inCards) outCards'
  end.

Definition capClozesToInput (outText inText delimiter : jstring) : jstring :=
  let d := delimiter_or_default delimiter in
  let outCards := split d outText in
  let inCards := split d inText in
  join d (cap_cards inCards outCards).

Definition splitByDelimiter (raw delimiter : jstring) : list jstring :=
  let d := delimiter_or_default delimiter in
  filter nonempty (map trim (split d raw)).

Definition joinByDelimiter (parts : list jstring) (delimiter : jstring)
  : jstring :=
  let d := delimiter_or_default delimiter in
  join ([LF] ++ d ++ [LF]) parts.

(** * Properties *)

(** ** Characters *)

Lemma in_range_spec (lo hi c : N) :
  in_range lo hi c = true <-> (lo <= c /\ c <= hi)%N.
Proof.
  unfold in_range. rewrite andb_true_iff, !N.leb_le. reflexivity.
Qed.

Lemma is_space_spec (c : char) :
  is_space c = true <->
  ((9 <= c /\ c <= 13) \/ c = 32 \/ c = 160 \/ c = 5760
   \/ (8192 <= c /\ c <= 8202) \/ c = 8232 \/ c = 8233 \/ c = 8239
   \/ c = 8287 \/ c = 12288 \/ c = 65279)%N.
Proof.
  unfold is_space.
  rewrite !orb_true_iff, !in_range_spec, !N.eqb_eq. tauto.
Qed.

Lemma is_digit_spec (c : char) :
  is_digit c = true <-> (48 <= c /\ c <= 57)%N.
Proof. apply in_range_spec. Qed.

Lemma is_word_spec (c : char) :
  is_word c = true <->
  ((65 <= c /\ c <= 90) \/ (97 <= c /\ c <= 122) \/ (48 <= c /\ c <= 57)
   \/ c = 95)%N.
Proof.
  unfold is_word, is_digit.
  rewrite !orb_true_iff, !in_range_spec, !N.eqb_eq. tauto.
Qed.

Ltac list_eq :=
  simpl; repeat (rewrite <- app_assoc; simpl); reflexivity.

Lemma jeqb_eq (a b : jstring) : jeqb a b = true <-> a = b.
Proof.
  revert b; induction a as [|x a IH]; intros [|y b]; simpl;
    try (split; [discriminate | discriminate]);
    try (split; reflexivity).
  rewrite andb_true_iff, N.eqb_eq, IH.
  split; [intros [-> ->]; reflexivity | intros H; inversion H; auto].
Qed.

Lemma jeqb_refl (a : jstring) : jeqb a a = true.
Proof. apply jeqb_eq; reflexivity. Qed.

Lemma jeqb_neq (a b : jstring) : jeqb a b = false <-> a <> b.
Proof.
  rewrite <- jeqb_eq. destruct (jeqb a b); split; congruence.
Qed.

(** ** Literal prefixes and greedy runs *)

Lemma strip_prefix_spec (p s r : jstring) :
  strip_prefix p s = Some r <-> s = p ++ r.
Proof.
  revert s; induction p as [|x p IH]; intros s; simpl.
  - split; congruence.
  - destruct s as [|y s]; [split; discriminate|].
    destruct (N.eqb_spec x y) as [->|Hne].
    + rewrite IH. split; [intros ->; reflexivity | intros H; inversion H; auto].
    + split; [discriminate | intros H; inversion H; congruence].
Qed.

Lemma strip_prefix_app (p r : jstring) : strip_prefix p (p ++ r) = Some r.
Proof. apply strip_prefix_spec; reflexivity. Qed.

(** A character that does not occur in [p] stops the comparison with [p]. *)
Lemma strip_prefix_barrier (p u : jstring) (x : char) (t : jstring) :
  ~ In x p ->
  strip_prefix p (u ++ x :: t) =
  option_map (fun r => r ++ x :: t) (strip_prefix p u).
Proof.
  revert u; induction p as [|y p IH]; intros u Hx; simpl; [reflexivity|].
  destruct u as [|c u]; simpl.
  - destruct (N.eqb_spec y x) as [->|_]; [|reflexivity].
    exfalso; apply Hx; left; reflexivity.
  - destruct (N.eqb y c); [|reflexivity].
    apply IH. intros H; apply Hx; right; exact H.
Qed.

Lemma strip_prefix_long (p u t : jstring) :
  List.length p <= List.length u ->
  strip_prefix p (u ++ t) = option_map (fun r => r ++ t) (strip_prefix p u).
Proof.
  revert u; induction p as [|y p IH]; intros u Hl; simpl; [reflexivity|].
  destruct u as [|c u]; simpl in *; [lia|].
  destruct (N.eqb y c); [|reflexivity].
  apply IH; lia.
Qed.

Lemma span_spec (f : char -> bool) (s a b : jstring) :
  span f s = (a, b) ->
  s = a ++ b /\ forallb f a = true /\
  match b with [] => True | c :: _ => f c = false end.
Proof.
  revert a b; induction s as [|c s IH]; intros a b; simpl.
  - intros H; inversion H; subst; auto.
  - destruct (f c) eqn:Hc.
    + destruct (span f s) as [a' b'] eqn:Hs. intros H; inversion H; subst.
      destruct (IH _ _ eq_refl) as (-> & Ha & Hb).
      simpl; rewrite Hc; auto.
    + intros H; inversion H; subst; simpl; rewrite Hc; auto.
Qed.

Lemma span_app (f : char -> bool) (a b : jstring) :
  forallb f a = true ->
  match b with [] => True | c :: _ => f c = false end ->
  span f (a ++ b) = (a, b).
Proof.
  induction a as [|c a IH]; simpl; intros Ha Hb.
  - destruct b as [|c b]; simpl; [reflexivity | rewrite Hb; reflexivity].
  - apply andb_true_iff in Ha as [Hc Ha]. rewrite Hc, (IH Ha Hb). reflexivity.
Qed.

(** A character outside the class stops the greedy run. *)
Lemma span_barrier (f : char -> bool) (u : jstring) (x : char) (t : jstring) :
  f x = false ->
  span f (u ++ x :: t) = (fst (span f u), snd (span f u) ++ x :: t).
Proof.
  intros Hx. destruct (span f u) as [a b] eqn:Hs.
  destruct (span_spec _ _ _ _ Hs) as (-> & Ha & Hb). simpl.
  rewrite <- app_assoc. apply span_app; [exact Ha|].
  destruct b; simpl; assumption.
Qed.

Lemma drop_while_all (f : char -> bool) (s : jstring) :
  forallb f s = true -> drop_while f s = [].
Proof.
  induction s as [|c s IH]; simpl; [reflexivity|].
  intros H; apply andb_true_iff in H as [-> H]; auto.
Qed.

Lemma drop_while_stop (f : char -> bool) (c : char) (s : jstring) :
  f c = false -> drop_while f (c :: s) = c :: s.
Proof. simpl; intros ->; reflexivity. Qed.

Lemma drop_while_app (f : char -> bool) (a s : jstring) :
  forallb f a = true -> drop_while f (a ++ s) = drop_while f s.
Proof.
  induction a as [|c a IH]; simpl; [reflexivity|].
  intros H; apply andb_true_iff in H as [-> H]; auto.
Qed.

Lemma drop_while_split (f : char -> bool) (s : jstring) :
  exists a, s = a ++ drop_while f s /\ forallb f a = true.
Proof.
  induction s as [|c s (a & Hs & Ha)]; simpl.
  - exists []; auto.
  - destruct (f c) eqn:Hc.
    + exists (c :: a); simpl; rewrite Hc, Ha; split; [congruence | reflexivity].
    + exists []; auto.
Qed.

Lemma drop_while_head (f : char -> bool) (s : jstring) :
  match drop_while f s with [] => True | c :: _ => f c = false end.
Proof.
  induction s as [|c s IH]; simpl; [exact I|].
  destruct (f c) eqn:Hc; [exact IH | exact Hc].
Qed.

(** ** Scanning *)

Definition shrinks {A : Type} (m : jstring -> option (A * jstring)) : Prop :=
  forall s a r, m s = Some (a, r) -> List.length r < List.length s.

Section ScanFacts.
Variable A : Type.
Variable m : jstring -> option (A * jstring).
Hypothesis m_shrinks : shrinks m.

Lemma scan_fuel_irrelevant (n : nat) :
  forall (s : jstring) (f1 f2 : nat),
    List.length s <= n -> List.length s <= f1 -> List.length s <= f2 ->
    scan_fuel m f1 s = scan_fuel m f2 s.
Proof.
  induction n as [|n IH]; intros s f1 f2 Hn H1 H2.
  - destruct s; simpl in *; [|lia]. destruct f1, f2; reflexivity.
  - destruct s as [|c s]; [destruct f1, f2; reflexivity|].
    destruct f1 as [|f1]; [simpl in H1; lia|].
    destruct f2 as [|f2]; [simpl in H2; lia|].
    simpl in *.
    destruct (m (c :: s)) as [[a r]|] eqn:Hm.
    + apply m_shrinks in Hm. simpl in Hm.
      f_equal. apply IH; lia.
    + f_equal. apply IH; lia.
Qed.

Lemma scan_fuel_enough (fuel : nat) (s : jstring) :
  List.length s <= fuel -> scan_fuel m fuel s = scan m s.
Proof.
  intros H. unfold scan.
  apply (scan_fuel_irrelevant (List.length s)); auto.
Qed.

Lemma scan_nil : scan m [] = [].
Proof. reflexivity. Qed.

Lemma scan_hit (s : jstring) (a : A) (r : jstring) :
  m s = Some (a, r) -> scan m s = Hit a :: scan m r.
Proof.
  intros Hm. pose proof Hm as Hl; apply m_shrinks in Hl.
  destruct s as [|c s]; [simpl in Hl; lia|].
  unfold scan at 1. simpl. rewrite Hm. f_equal.
  apply scan_fuel_enough. simpl in Hl; lia.
Qed.

Lemma scan_lit (c : char) (s : jstring) :
  m (c :: s) = None -> scan m (c :: s) = Lit c :: scan m s.
Proof.
  intros Hm. unfold scan at 1. simpl. rewrite Hm. reflexivity.
Qed.

(** Induction along the walk. *)
Lemma scan_ind (P : jstring -> Prop) :
  P [] ->
  (forall c s, m (c :: s) = None -> P s -> P (c :: s)) ->
  (forall s a r, m s = Some (a, r) -> P r -> P s) ->
  forall s, P s.
Proof.
  intros Hnil Hlit Hhit s.
  remember (List.length s) as n eqn:Hn.
  assert (Hle : List.length s <= n) by lia. clear Hn.
  revert s Hle. induction n as [|n IH]; intros s Hle.
  - destruct s; [exact Hnil | simpl in Hle; lia].
  - destruct s as [|c s]; [exact Hnil|].
    destruct (m (c :: s)) as [[a r]|] eqn:Hm.
    + apply (Hhit _ _ _ Hm). apply IH.
      apply m_shrinks in Hm. simpl in *. lia.
    + apply Hlit; [exact Hm|]. apply IH. simpl in Hle; lia.
Qed.

(** Where the pattern matches nowhere, nothing is found. *)
Lemma scan_no_match (s : jstring) :
  (forall pre v, s = pre ++ v -> m v = None) -> scan m s = map Lit s.
Proof.
  induction s as [|c s IH]; intros H; [reflexivity|].
  rewrite scan_lit by (apply (H []); reflexivity).
  simpl; f_equal. apply IH. intros pre v ->.
  apply (H (c :: pre)); reflexivity.
Qed.
End ScanFacts.

Lemma render_lits {A : Type} (f : A -> jstring) (s : jstring) :
  render f (map Lit s) = s.
Proof. induction s; simpl; congruence. Qed.

Lemma chunks_lits (A : Type) (s : jstring) :
  chunks (map (@Lit A) s) = [s].
Proof. induction s as [|c s IH]; simpl; [|rewrite IH]; reflexivity. Qed.

(** ** The matchers *)

Lemma literally_shrinks (d : jstring) : d <> [] -> shrinks (literally d).
Proof.
  intros Hd s a r. unfold literally.
  destruct (strip_prefix d s) as [r'|] eqn:Hs; [|discriminate].
  intros H; inversion H; subst. apply strip_prefix_spec in Hs; subst.
  rewrite length_app. destruct d; [contradiction | simpl; lia].
Qed.

Lemma space_run_spec (s w r : jstring) :
  space_run s = Some (w, r) ->
  s = w ++ r /\ w <> [] /\ forallb is_space w = true /\
  match r with [] => True | c :: _ => is_space c = false end.
Proof.
  unfold space_run. destruct (span is_space s) as [a b] eqn:Hs.
  destruct (span_spec _ _ _ _ Hs) as (-> & Ha & Hb).
  destruct a; [discriminate|]. intros H; inversion H; subst.
  repeat split; auto; discriminate.
Qed.

Lemma space_run_shrinks : shrinks space_run.
Proof.
  intros s a r H. destruct (space_run_spec _ _ _ H) as (-> & Hw & _).
  rewrite length_app. destruct a; [contradiction | simpl; lia].
Qed.

Lemma space_run_none (c : char) (s : jstring) :
  space_run (c :: s) = None -> is_space c = false.
Proof.
  unfold space_run; simpl. destruct (is_space c); [|reflexivity].
  destruct (span is_space s); discriminate.
Qed.

(** The shape of an opener as the renumbering and capping passes accept
    it. *)
Definition opener_text (w1 n w2 : jstring) : jstring :=
  lit "{{" ++ w1 ++ lit "c" ++ n ++ w2 ++ lit "::".

Definition digits (n : jstring) : Prop :=
  n <> [] /\ forallb is_digit n = true.

Definition spaces (w : jstring) : Prop := forallb is_space w = true.

Lemma loose_opener_spec (s o n r : jstring) :
  loose_opener s = Some ((o, n), r) ->
  exists w1 w2,
    o = opener_text w1 n w2 /\ s = o ++ r /\
    spaces w1 /\ spaces w2 /\ digits n.
Proof.
  unfold loose_opener.
  destruct (strip_prefix (lit "{{") s) as [s0|] eqn:H0; [|discriminate].
  apply strip_prefix_spec in H0; subst s.
  destruct (span is_space s0) as [w1 s0'] eqn:H1.
  destruct (span_spec _ _ _ _ H1) as (-> & Hw1 & _).
  destruct (strip_prefix (lit "c") s0') as [s1|] eqn:H2; [|discriminate].
  apply strip_prefix_spec in H2; subst s0'.
  destruct (span is_digit s1) as [ds s2] eqn:H3.
  destruct (span_spec _ _ _ _ H3) as (-> & Hds & _).
  destruct ds as [|d0 ds]; [discriminate|].
  destruct (span is_space s2) as [w2 s2'] eqn:H4.
  destruct (span_spec _ _ _ _ H4) as (-> & Hw2 & _).
  destruct (strip_prefix (lit "::") s2') as [s3|] eqn:H5; [|discriminate].
  apply strip_prefix_spec in H5; subst s2'.
  intros H; inversion H; subst. exists w1, w2. unfold opener_text.
  repeat split; auto; try discriminate.
  list_eq.
Qed.

Lemma colon_not_digit : is_digit COLON = false.
Proof. reflexivity. Qed.

Lemma colon_not_space : is_space COLON = false.
Proof. reflexivity. Qed.

Lemma lower_c_not_space : is_space LOWER_C = false.
Proof. reflexivity. Qed.

Lemma digit_not_space (c : char) : is_digit c = true -> is_space c = false.
Proof.
  intros H. apply is_digit_spec in H. apply not_true_iff_false.
  rewrite is_space_spec. lia.
Qed.

(** An opener written without stray whitespace is matched as it stands. *)
Lemma loose_opener_normal (v r : jstring) :
  digits v ->
  loose_opener (lit "{{c" ++ v ++ lit "::" ++ r)
  = Some ((lit "{{c" ++ v ++ lit "::", v), r).
Proof.
  intros [Hne Hd]. unfold loose_opener.
  change (lit "{{c" ++ v ++ lit "::" ++ r)
    with (lit "{{" ++ ([] ++ LOWER_C :: v ++ COLON :: COLON :: r)).
  rewrite strip_prefix_app.
  rewrite (span_app is_space []) by (simpl; auto).
  change (LOWER_C :: v ++ COLON :: COLON :: r)
    with (lit "c" ++ v ++ COLON :: COLON :: r).
  rewrite strip_prefix_app.
  rewrite (span_app is_digit v) by (simpl; auto).
  destruct v as [|d v]; [contradiction|].
  change (COLON :: COLON :: r) with ([] ++ lit "::" ++ r).
  rewrite (span_app is_space []) by (simpl; auto).
  rewrite strip_prefix_app. reflexivity.
Qed.

Lemma loose_opener_shrinks : shrinks loose_opener.
Proof.
  intros s [o n] r H.
  destruct (loose_opener_spec _ _ _ _ H) as (w1 & w2 & -> & -> & _).
  unfold opener_text. rewrite !length_app. simpl. lia.
Qed.

Lemma strict_opener_spec (s n r : jstring) :
  strict_opener s = Some (n, r) <->
  s = lit "{{c" ++ n ++ lit "::" ++ r /\ digits n.
Proof.
  unfold strict_opener. split.
  - destruct (strip_prefix (lit "{{c") s) as [s1|] eqn:H0; [|discriminate].
    apply strip_prefix_spec in H0; subst s.
    destruct (span is_digit s1) as [ds s2] eqn:H3.
    destruct (span_spec _ _ _ _ H3) as (-> & Hds & _).
    destruct ds as [|d0 ds]; [discriminate|].
    destruct (strip_prefix (lit "::") s2) as [s3|] eqn:H5; [|discriminate].
    apply strip_prefix_spec in H5; subst s2.
    intros H; inversion H; subst. split; [reflexivity|].
    split; [discriminate | assumption].
  - intros [-> [Hne Hd]]. rewrite strip_prefix_app.
    change (lit "::" ++ r) with (COLON :: COLON :: r).
    rewrite (span_app is_digit n) by (simpl; auto).
    destruct n; [contradiction|]. reflexivity.
Qed.

Lemma until_close_eq (s : jstring) :
  until_close s =
  match strip_prefix (lit "}}") s with
  | Some rest => Some ([], rest)
  | None =>
      match s with
      | [] => None
      | c :: s' =>
          match until_close s' with
          | Some (inner, rest) => Some (c :: inner, rest)
          | None => None
          end
      end
  end.
Proof. destruct s; reflexivity. Qed.

Lemma until_close_spec (s inner r : jstring) :
  until_close s = Some (inner, r) -> s = inner ++ lit "}}" ++ r.
Proof.
  revert inner r; induction s as [|c s IH]; intros inner r;
    rewrite until_close_eq.
  - simpl. discriminate.
  - destruct (strip_prefix (lit "}}") (c :: s)) as [r'|] eqn:Hp.
    + intros H; inversion H; subst. apply strip_prefix_spec in Hp. exact Hp.
    + destruct (until_close s) as [[i r']|]; [|discriminate].
      intros H; inversion H; subst. rewrite (IH _ _ eq_refl). reflexivity.
Qed.

Lemma strict_span_spec (s : jstring) (m : span_match) (r : jstring) :
  strict_span s = Some (m, r) ->
  sm_full m = lit "{{c" ++ sm_n m ++ lit "::" ++ sm_inner m ++ lit "}}" /\
  s = sm_full m ++ r /\ digits (sm_n m) /\
  until_close (sm_inner m ++ lit "}}" ++ r) = Some (sm_inner m, r).
Proof.
  unfold strict_span.
  destruct (strict_opener s) as [[n s1]|] eqn:Ho; [|discriminate].
  apply strict_opener_spec in Ho as [-> Hn].
  destruct (until_close s1) as [[inner rest]|] eqn:Hc; [|discriminate].
  intros H; inversion H; subst; simpl.
  pose proof (until_close_spec _ _ _ Hc) as ->.
  repeat split; auto; try apply Hn.
  list_eq.
Qed.

Lemma loose_span_spec (s : jstring) (m : span_match) (r : jstring) :
  loose_span s = Some (m, r) ->
  exists w1 w2,
    sm_full m = opener_text w1 (sm_n m) w2 ++ sm_inner m ++ lit "}}" /\
    s = sm_full m ++ r /\ spaces w1 /\ spaces w2 /\ digits (sm_n m) /\
    until_close (sm_inner m ++ lit "}}" ++ r) = Some (sm_inner m, r).
Proof.
  unfold loose_span.
  destruct (loose_opener s) as [[[o n] s1]|] eqn:Ho; [|discriminate].
  destruct (loose_opener_spec _ _ _ _ Ho) as (w1 & w2 & -> & -> & H1 & H2 & Hn).
  destruct (until_close s1) as [[inner rest]|] eqn:Hc; [|discriminate].
  intros H; inversion H; subst; simpl.
  pose proof (until_close_spec _ _ _ Hc) as ->.
  exists w1, w2. repeat split; auto; try apply Hn.
  unfold opener_text. list_eq.
Qed.

Lemma strict_span_shrinks : shrinks strict_span.
Proof.
  intros s m r H. destruct (strict_span_spec _ _ _ H) as (Hf & -> & _).
  rewrite Hf, !length_app. simpl. lia.
Qed.

Lemma loose_span_shrinks : shrinks loose_span.
Proof.
  intros s m r H.
  destruct (loose_span_spec _ _ _ H) as (w1 & w2 & Hf & -> & _).
  rewrite Hf. unfold opener_text. rewrite !length_app. simpl. lia.
Qed.

(** ** Splitting and joining *)

Lemma chunks_nonempty (A : Type) (ps : list (piece A)) : chunks ps <> [].
Proof.
  destruct ps as [|[c|a] ps]; simpl; try discriminate.
  destruct (chunks ps); discriminate.
Qed.

Lemma join_cons (d p : jstring) (ps : list jstring) :
  ps <> [] -> join d (p :: ps) = p ++ d ++ join d ps.
Proof. destruct ps; [contradiction | reflexivity]. Qed.

Lemma join_push (d : jstring) (c : char) (h : jstring) (t : list jstring) :
  join d ((c :: h) :: t) = c :: join d (h :: t).
Proof. destruct t; reflexivity. Qed.

Lemma split_nil (d : jstring) : split d [] = [[]].
Proof. reflexivity. Qed.

Lemma split_hit (d r : jstring) :
  d <> [] -> split d (d ++ r) = [] :: split d r.
Proof.
  intros Hd. unfold split.
  assert (Hm : literally d (d ++ r) = Some (tt, r))
    by (unfold literally; rewrite strip_prefix_app; reflexivity).
  rewrite (scan_hit _ _ (literally_shrinks d Hd) _ _ _ Hm). reflexivity.
Qed.

Lemma split_lit (d : jstring) (c : char) (s : jstring) :
  strip_prefix d (c :: s) = None ->
  exists h t, split d s = h :: t /\ split d (c :: s) = (c :: h) :: t.
Proof.
  intros Hn. unfold split.
  assert (Hm : literally d (c :: s) = None)
    by (unfold literally; rewrite Hn; reflexivity).
  unfold scan at 2. simpl scan_fuel. rewrite Hm. fold (scan (literally d) s).
  simpl. destruct (chunks (scan (literally d) s)) as [|h t] eqn:Hc.
  - exfalso. exact (chunks_nonempty _ _ Hc).
  - exists h, t. auto.
Qed.

(** Joining the cards of a text with the delimiter gives the text back. *)
Lemma join_split (d s : jstring) : d <> [] -> join d (split d s) = s.
Proof.
  intros Hd. pattern s.
  apply (scan_ind _ _ (literally_shrinks d Hd)); clear s.
  - reflexivity.
  - intros c s Hm IH.
    assert (Hn : strip_prefix d (c :: s) = None).
    { unfold literally in Hm. destruct (strip_prefix d (c :: s));
        [discriminate | reflexivity]. }
    destruct (split_lit _ _ _ Hn) as (h & t & Hs & ->).
    rewrite join_push, <- Hs, IH. reflexivity.
  - intros s [] r Hm IH. unfold literally in Hm.
    destruct (strip_prefix d s) as [r'|] eqn:Hp; [|discriminate].
    inversion Hm; subst r'. apply strip_prefix_spec in Hp; subst s.
    rewrite (split_hit _ _ Hd), join_cons by (apply chunks_nonempty).
    rewrite IH. reflexivity.
Qed.

(** [d] matches at no position of [x]. *)
Definition no_match_in (d x : jstring) : Prop :=
  forall pre v, x = pre ++ v -> strip_prefix d v = None.

Lemma no_match_in_tail (d : jstring) (c : char) (x : jstring) :
  no_match_in d (c :: x) -> no_match_in d x.
Proof. intros H pre v ->. apply (H (c :: pre)); reflexivity. Qed.

Lemma split_none (d x : jstring) : no_match_in d x -> split d x = [x].
Proof.
  intros H. unfold split.
  induction x as [|c x IH]; [reflexivity|].
  unfold scan. simpl scan_fuel.
  assert (Hm : literally d (c :: x) = None).
  { unfold literally. rewrite (H [] (c :: x) eq_refl). reflexivity. }
  rewrite Hm. fold (scan (literally d) x). simpl.
  rewrite (IH (no_match_in_tail _ _ _ H)). reflexivity.
Qed.

(** The first card ends where the delimiter first matches. *)
Lemma split_first (d p rest : jstring) :
  d <> [] ->
  (forall pre v, p = pre ++ v -> v <> [] ->
                 strip_prefix d (v ++ d ++ rest) = None) ->
  split d (p ++ d ++ rest) = p :: split d rest.
Proof.
  intros Hd. induction p as [|c p IH]; intros H.
  - simpl. apply split_hit; exact Hd.
  - assert (Hn : strip_prefix d ((c :: p) ++ d ++ rest) = None)
      by (apply (H []); [reflexivity | discriminate]).
    change ((c :: p) ++ d ++ rest) with (c :: (p ++ d ++ rest)) in *.
    destruct (split_lit _ _ _ Hn) as (h & t & Hs & Hc).
    rewrite Hc.
    rewrite IH in Hs.
    + inversion Hs; subst. reflexivity.
    + intros pre v -> Hv. apply (H (c :: pre)); [reflexivity | exact Hv].
Qed.

(** ** Trimming *)

Lemma drop_while_app_cases (f : char -> bool) (a b : jstring) :
  drop_while f (a ++ b) =
  match drop_while f a with
  | [] => drop_while f b
  | _ :: _ => drop_while f a ++ b
  end.
Proof.
  induction a as [|c a IH]; simpl; [destruct (drop_while f b); reflexivity|].
  destruct (f c); [exact IH | reflexivity].
Qed.

Lemma forallb_rev (f : char -> bool) (s : jstring) :
  forallb f (rev s) = forallb f s.
Proof.
  induction s as [|c s IH]; simpl; [reflexivity|].
  rewrite forallb_app, IH. simpl. rewrite andb_true_r, andb_comm. reflexivity.
Qed.

(** Whitespace around a text does not survive [trim]. *)
Lemma trim_pad (w1 p w2 : jstring) :
  spaces w1 -> spaces w2 -> trim (w1 ++ p ++ w2) = trim p.
Proof.
  unfold spaces, trim. intros H1 H2.
  rewrite (drop_while_app _ _ _ H1), drop_while_app_cases.
  destruct (drop_while is_space p) as [|c q] eqn:Hp.
  - rewrite (drop_while_all _ _ H2). reflexivity.
  - rewrite rev_app_distr, drop_while_app; [reflexivity|].
    rewrite forallb_rev. exact H2.
Qed.

(** A text is embedded in its source between two runs of whitespace. *)
Lemma trim_split (s : jstring) :
  exists w1 w2, s = w1 ++ trim s ++ w2 /\ spaces w1 /\ spaces w2.
Proof.
  unfold trim, spaces.
  destruct (drop_while_split is_space s) as (w1 & Hs & Hw1).
  destruct (drop_while_split is_space (rev (drop_while is_space s)))
    as (w2 & Hr & Hw2).
  exists w1, (rev w2). repeat split.
  - rewrite <- rev_app_distr, <- Hr, rev_involutive. exact Hs.
  - exact Hw1.
  - rewrite forallb_rev. exact Hw2.
Qed.

(** ** Round trip of [joinByDelimiter] and [splitByDelimiter] *)

(** [d] is a substring of [p]. *)
Definition occurs_in (d p : jstring) : Prop := exists a b, p = a ++ d ++ b.

Definition line_feeds (w : jstring) : Prop := Forall (fun c => c = LF) w.

Lemma line_feeds_spaces (w : jstring) : line_feeds w -> spaces w.
Proof.
  unfold spaces. induction 1 as [|c w Hc _ IH]; [reflexivity|].
  subst c. simpl. exact IH.
Qed.

Lemma strip_prefix_other_head (d : jstring) (c : char) (s : jstring) :
  d <> [] -> ~ In c d -> strip_prefix d (c :: s) = None.
Proof.
  intros Hd Hc. destruct d as [|x d]; [contradiction|]. simpl.
  destruct (N.eqb_spec x c) as [->|_]; [|reflexivity].
  exfalso; apply Hc; left; reflexivity.
Qed.

Lemma strip_prefix_nil_subject (d : jstring) :
  d <> [] -> strip_prefix d [] = None.
Proof. destruct d; [contradiction | reflexivity]. Qed.

Lemma no_match_padded (d p pre : jstring) :
  d <> [] -> ~ In LF d -> ~ occurs_in d p -> line_feeds pre ->
  no_match_in d (pre ++ p).
Proof.
  intros Hd Hlf Hp Hpre. induction Hpre as [|c pre Hc _ IH].
  - intros a v Hv. simpl in Hv.
    destruct (strip_prefix d v) as [r|] eqn:Hs; [|reflexivity].
    apply strip_prefix_spec in Hs. subst v. exfalso. apply Hp.
    exists a, r. exact Hv.
  - subst c. intros [|a0 a] v Hv; simpl in Hv.
    + subst v. apply strip_prefix_other_head; assumption.
    + inversion Hv; subst. apply (IH a v). assumption.
Qed.

Lemma app_snoc_suffix (x pre v : jstring) (c : char) :
  x ++ [c] = pre ++ v -> v <> [] ->
  exists v1, v = v1 ++ [c] /\ x = pre ++ v1.
Proof.
  intros H Hv. destruct (exists_last Hv) as (v1 & c' & ->).
  rewrite app_assoc in H. apply app_inj_tail in H as [-> ->].
  exists v1. auto.
Qed.

Lemma split_padded (d x rest : jstring) :
  d <> [] -> ~ In LF d -> no_match_in d x ->
  split d (x ++ [LF] ++ d ++ rest) = (x ++ [LF]) :: split d rest.
Proof.
  intros Hd Hlf Hx.
  rewrite app_assoc. apply split_first; [exact Hd|].
  intros pre v Hv Hne.
  destruct (app_snoc_suffix _ _ _ _ Hv Hne) as (v1 & -> & ->).
  rewrite <- app_assoc. simpl.
  rewrite strip_prefix_barrier by exact Hlf.
  rewrite (Hx pre v1 eq_refl). reflexivity.
Qed.

Section RoundTrip.
Variable d : jstring.
Hypothesis d_nonempty : d <> [].
Hypothesis d_one_line : ~ In LF d.

Let sep : jstring := [LF] ++ d ++ [LF].

Definition plain_part (p : jstring) : Prop :=
  p <> [] /\ trim p = p /\ ~ occurs_in d p.

Lemma roundtrip_padded (parts : list jstring) :
  forall pre,
    parts <> [] -> line_feeds pre -> Forall plain_part parts ->
    filter nonempty (map trim (split d (pre ++ join sep parts))) = parts.
Proof.
  induction parts as [|p ps IH]; intros pre Hne Hpre Hall;
    [contradiction|].
  inversion Hall as [|? ? (Hp & Ht & Ho) Hps]; subst.
  assert (Htrim : forall post, spaces post -> trim (pre ++ p ++ post) = p).
  { intros post Hpost. rewrite trim_pad; auto using line_feeds_spaces. }
  assert (Hkeep : nonempty p = true) by (destruct p; [contradiction|reflexivity]).
  destruct ps as [|q ps].
  - simpl join.
    rewrite (split_none _ _ (no_match_padded d p pre d_nonempty d_one_line
                                Ho Hpre)).
    specialize (Htrim [] eq_refl). rewrite app_nil_r in Htrim.
    simpl. rewrite Htrim, Hkeep. reflexivity.
  - rewrite join_cons by discriminate.
    unfold sep at 1.
    replace (pre ++ p ++ ([LF] ++ d ++ [LF]) ++ join sep (q :: ps))
      with ((pre ++ p) ++ [LF] ++ d ++ ([LF] ++ join sep (q :: ps)))
      by list_eq.
    rewrite split_padded; try assumption;
      [|apply no_match_padded; assumption].
    cbn [map]. rewrite <- app_assoc, (Htrim [LF] eq_refl).
    cbn [filter]. rewrite Hkeep.
    f_equal. apply (IH [LF]); [discriminate | | assumption].
    constructor; [reflexivity | constructor].
Qed.
End RoundTrip.


(** ** Openers are local

    An opener holds no brace after its first two characters, so a brace
    further on ends every attempt to match one: what follows that brace has no
    influence on the attempt. *)

Definition add_rest {A : Type} (t : jstring) (x : A * jstring)
  : A * jstring :=
  (fst x, snd x ++ t).

Lemma strip_two (a b : char) (u : jstring) :
  strip_prefix (lit "{{") (a :: b :: u)
  = if (N.eqb LBRACE a && N.eqb LBRACE b)%bool then Some u else None.
Proof.
  change (lit "{{") with [LBRACE; LBRACE]. cbn [strip_prefix].
  destruct (N.eqb LBRACE a), (N.eqb LBRACE b); reflexivity.
Qed.

Lemma loose_opener_barrier (x : char) (u t : jstring) :
  x = LBRACE \/ x = RBRACE -> 2 <= List.length u ->
  loose_opener (u ++ x :: t) = option_map (add_rest (x :: t)) (loose_opener u).
Proof.
  intros Hx Hu. destruct u as [|a [|b u]]; simpl in Hu; try lia.
  assert (Hs : is_space x = false) by (destruct Hx; subst; reflexivity).
  assert (Hd : is_digit x = false) by (destruct Hx; subst; reflexivity).
  assert (Hc : ~ In x (lit "c"))
    by (simpl; intros [Hin|[]]; destruct Hx; subst; discriminate).
  assert (Hcc : ~ In x (lit "::"))
    by (simpl; intros [Hin|[Hin|[]]]; destruct Hx; subst; discriminate).
  unfold loose_opener.
  change ((a :: b :: u) ++ x :: t) with (a :: b :: (u ++ x :: t)).
  rewrite !strip_two.
  destruct (N.eqb LBRACE a && N.eqb LBRACE b)%bool; [|reflexivity].
  rewrite (span_barrier _ _ _ _ Hs).
  destruct (span is_space u) as [w1 s0]; cbn [fst snd].
  rewrite (strip_prefix_barrier _ _ _ _ Hc).
  destruct (strip_prefix (lit "c") s0) as [s1|]; [|reflexivity].
  cbn [option_map].
  rewrite (span_barrier _ _ _ _ Hd).
  destruct (span is_digit s1) as [n s2]; cbn [fst snd].
  destruct n as [|d0 n]; [reflexivity|].
  rewrite (span_barrier _ _ _ _ Hs).
  destruct (span is_space s2) as [w2 s3]; cbn [fst snd].
  rewrite (strip_prefix_barrier _ _ _ _ Hcc).
  destruct (strip_prefix (lit "::") s3) as [s4|]; reflexivity.
Qed.

Lemma strip_three (a b : char) (u : jstring) :
  strip_prefix (lit "{{c") (a :: b :: u)
  = if (N.eqb LBRACE a && N.eqb LBRACE b)%bool
    then strip_prefix (lit "c") u else None.
Proof.
  change (lit "{{c") with (LBRACE :: LBRACE :: lit "c"). cbn [strip_prefix].
  destruct (N.eqb LBRACE a), (N.eqb LBRACE b); reflexivity.
Qed.

Lemma strict_opener_barrier (x : char) (u t : jstring) :
  x = LBRACE \/ x = RBRACE -> 2 <= List.length u ->
  strict_opener (u ++ x :: t)
  = option_map (add_rest (x :: t)) (strict_opener u).
Proof.
  intros Hx Hu. destruct u as [|a [|b u]]; simpl in Hu; try lia.
  assert (Hd : is_digit x = false) by (destruct Hx; subst; reflexivity).
  assert (Hc : ~ In x (lit "c"))
    by (simpl; intros [Hin|[]]; destruct Hx; subst; discriminate).
  assert (Hcc : ~ In x (lit "::"))
    by (simpl; intros [Hin|[Hin|[]]]; destruct Hx; subst; discriminate).
  unfold strict_opener.
  change ((a :: b :: u) ++ x :: t) with (a :: b :: (u ++ x :: t)).
  rewrite !strip_three.
  destruct (N.eqb LBRACE a && N.eqb LBRACE b)%bool; [|reflexivity].
  rewrite (strip_prefix_barrier _ _ _ _ Hc).
  destruct (strip_prefix (lit "c") u) as [s1|]; [|reflexivity].
  cbn [option_map].
  rewrite (span_barrier _ _ _ _ Hd).
  destruct (span is_digit s1) as [n s2]; cbn [fst snd].
  destruct n as [|d0 n]; [reflexivity|].
  rewrite (strip_prefix_barrier _ _ _ _ Hcc).
  destruct (strip_prefix (lit "::") s2) as [s4|]; reflexivity.
Qed.

(** Two texts that agree up to the point where both go on with [{{]. *)
Inductive agree_to_brace : jstring -> jstring -> Prop :=
| atb_nil : agree_to_brace [] []
| atb_cons (c : char) (x y : jstring) :
    agree_to_brace x y -> agree_to_brace (c :: x) (c :: y)
| atb_brace (x y : jstring) :
    agree_to_brace (LBRACE :: LBRACE :: x) (LBRACE :: LBRACE :: y).

Lemma agree_to_brace_refl (x : jstring) : agree_to_brace x x.
Proof. induction x; constructor; assumption. Qed.

Lemma option_map_none {A B : Type} (f : A -> B) (o : option A) :
  option_map f o = None <-> o = None.
Proof. destruct o; simpl; split; congruence. Qed.

Lemma loose_opener_agree (x y : jstring) :
  agree_to_brace x y ->
  forall u, u <> [] ->
    loose_opener (u ++ x) = None -> loose_opener (u ++ y) = None.
Proof.
  induction 1 as [|c x y _ IH|x y]; intros u Hu.
  - auto.
  - replace (u ++ c :: x) with ((u ++ [c]) ++ x) by list_eq.
    replace (u ++ c :: y) with ((u ++ [c]) ++ y) by list_eq.
    apply IH. destruct u; discriminate.
  - replace (u ++ LBRACE :: LBRACE :: x)
      with ((u ++ [LBRACE]) ++ LBRACE :: x) by list_eq.
    replace (u ++ LBRACE :: LBRACE :: y)
      with ((u ++ [LBRACE]) ++ LBRACE :: y) by list_eq.
    assert (Hl : 2 <= List.length (u ++ [LBRACE])).
    { rewrite length_app. destruct u; [contradiction | simpl; lia]. }
    rewrite (loose_opener_barrier LBRACE (u ++ [LBRACE]) x),
      (loose_opener_barrier LBRACE (u ++ [LBRACE]) y) by auto.
    rewrite !option_map_none. auto.
Qed.

Lemma strict_opener_agree (x y : jstring) :
  agree_to_brace x y ->
  forall u, u <> [] ->
    strict_opener (u ++ x) = None -> strict_opener (u ++ y) = None.
Proof.
  induction 1 as [|c x y _ IH|x y]; intros u Hu.
  - auto.
  - replace (u ++ c :: x) with ((u ++ [c]) ++ x) by list_eq.
    replace (u ++ c :: y) with ((u ++ [c]) ++ y) by list_eq.
    apply IH. destruct u; discriminate.
  - replace (u ++ LBRACE :: LBRACE :: x)
      with ((u ++ [LBRACE]) ++ LBRACE :: x) by list_eq.
    replace (u ++ LBRACE :: LBRACE :: y)
      with ((u ++ [LBRACE]) ++ LBRACE :: y) by list_eq.
    assert (Hl : 2 <= List.length (u ++ [LBRACE])).
    { rewrite length_app. destruct u; [contradiction | simpl; lia]. }
    rewrite (strict_opener_barrier LBRACE (u ++ [LBRACE]) x),
      (strict_opener_barrier LBRACE (u ++ [LBRACE]) y) by auto.
    rewrite !option_map_none. auto.
Qed.

(** The same for a literal without a brace in it. *)
Lemma literal_agree (d x y : jstring) :
  d <> [] -> ~ In LBRACE d -> agree_to_brace x y ->
  forall u t,
    strip_prefix d (u ++ x ++ t) = None -> strip_prefix d (u ++ y ++ t) = None.
Proof.
  intros Hd Hb. induction 1 as [|c x y _ IH|x y]; intros u t.
  - auto.
  - replace (u ++ (c :: x) ++ t) with ((u ++ [c]) ++ x ++ t) by list_eq.
    replace (u ++ (c :: y) ++ t) with ((u ++ [c]) ++ y ++ t) by list_eq.
    apply IH.
  - simpl.
    rewrite (strip_prefix_barrier d u LBRACE (LBRACE :: x ++ t)),
      (strip_prefix_barrier d u LBRACE (LBRACE :: y ++ t)) by exact Hb.
    rewrite !option_map_none. auto.
Qed.

(** ** Renumbering one card *)

Lemma uint_chars_digits (u : Decimal.uint) :
  forallb is_digit (uint_chars u) = true.
Proof. induction u; simpl; auto. Qed.

Lemma uint_chars_inj (u u' : Decimal.uint) :
  uint_chars u = uint_chars u' -> u = u'.
Proof.
  revert u'; induction u; intros u' H; destruct u'; simpl in H;
    try discriminate; try reflexivity;
    inversion H; f_equal; auto.
Qed.

Lemma String_of_nat_inj (n n' : nat) :
  String_of_nat n = String_of_nat n' -> n = n'.
Proof.
  unfold String_of_nat. intros H.
  apply Unsigned.to_uint_inj, uint_chars_inj, H.
Qed.

Lemma String_of_nat_digits (n : nat) : digits (String_of_nat n).
Proof.
  split; [|apply uint_chars_digits].
  unfold String_of_nat. intros H.
  destruct (Nat.to_uint n) eqn:Hn; simpl in H; try discriminate.
  assert (Hz : n = 0).
  { rewrite <- (Unsigned.of_to n), Hn. reflexivity. }
  subst n. discriminate.
Qed.

Definition values_digits (mp : index_map) : Prop :=
  Forall (fun kv => digits (snd kv)) mp.

(** The map and the counter after the replacer has met [oldNum]. *)
Definition remember (oldNum : jstring) (mp : index_map) (next : nat)
  : index_map * nat :=
  if map_has oldNum mp then (mp, next)
  else (map_set oldNum (String_of_nat next) mp, S next).

Lemma map_get_app_miss (k v : jstring) (mp : index_map) :
  map_get k mp = None -> map_get k (mp ++ [(k, v)]) = Some v.
Proof.
  induction mp as [|[k' v'] mp IH]; simpl.
  - rewrite jeqb_refl. reflexivity.
  - destruct (jeqb k' k); [discriminate | exact IH].
Qed.

Lemma map_get_in (k v : jstring) (mp : index_map) :
  map_get k mp = Some v -> In (k, v) mp.
Proof.
  induction mp as [|[k' v'] mp IH]; simpl; [discriminate|].
  destruct (jeqb k' k) eqn:Hk.
  - apply jeqb_eq in Hk. intros H; inversion H; subst. left; reflexivity.
  - intros H; right; auto.
Qed.

Lemma remember_get (oldNum : jstring) (mp : index_map) (next : nat) :
  exists v,
    map_get oldNum (fst (remember oldNum mp next)) = Some v /\
    (values_digits mp ->
     digits v /\ values_digits (fst (remember oldNum mp next))).
Proof.
  unfold remember, map_has.
  destruct (map_get oldNum mp) as [v|] eqn:Hg; simpl.
  - exists v. split; [exact Hg|]. intros Hd. split; [|exact Hd].
    apply map_get_in in Hg.
    exact (proj1 (Forall_forall _ _) Hd _ Hg).
  - exists (String_of_nat next). split.
    + apply map_get_app_miss, Hg.
    + intros Hd. split; [apply String_of_nat_digits|].
      apply Forall_app. split; [exact Hd|].
      constructor; [apply String_of_nat_digits | constructor].
Qed.

(** The matches of a card once renumbered: each opener stands without stray
    whitespace and carries its new index. *)
Fixpoint renumber_hits (ps : list (piece (jstring * jstring)))
  (mp : index_map) (next : nat) : list (piece (jstring * jstring)) :=
  match ps with
  | [] => []
  | Lit c :: ps' => Lit c :: renumber_hits ps' mp next
  | Hit (_, oldNum) :: ps' =>
      let (mp', next') := remember oldNum mp next in
      match map_get oldNum mp' with
      | Some v =>
          Hit (lit "{{c" ++ v ++ lit "::", v) :: renumber_hits ps' mp' next'
      | None =>
          map Lit (lit "{{cundefined::") ++ renumber_hits ps' mp' next'
      end
  end.

Lemma renumber_pieces_hit (o oldNum : jstring)
  (ps : list (piece (jstring * jstring))) (mp : index_map) (next : nat) :
  renumber_pieces (Hit (o, oldNum) :: ps) mp next =
  match map_get oldNum (fst (remember oldNum mp next)) with
  | Some v =>
      lit "{{c" ++ v ++ lit "::"
      ++ renumber_pieces ps (fst (remember oldNum mp next))
           (snd (remember oldNum mp next))
  | None =>
      lit "{{cundefined::"
      ++ renumber_pieces ps (fst (remember oldNum mp next))
           (snd (remember oldNum mp next))
  end.
Proof.
  cbn [renumber_pieces]. unfold remember.
  destruct (map_has oldNum mp); reflexivity.
Qed.

Lemma renumber_hits_hit (o oldNum : jstring)
  (ps : list (piece (jstring * jstring))) (mp : index_map) (next : nat) :
  renumber_hits (Hit (o, oldNum) :: ps) mp next =
  match map_get oldNum (fst (remember oldNum mp next)) with
  | Some v =>
      Hit (lit "{{c" ++ v ++ lit "::", v)
      :: renumber_hits ps (fst (remember oldNum mp next))
           (snd (remember oldNum mp next))
  | None =>
      map Lit (lit "{{cundefined::")
      ++ renumber_hits ps (fst (remember oldNum mp next))
           (snd (remember oldNum mp next))
  end.
Proof.
  cbn [renumber_hits]. destruct (remember oldNum mp next); reflexivity.
Qed.

Lemma render_app {A : Type} (f : A -> jstring) (ps qs : list (piece A)) :
  render f (ps ++ qs) = render f ps ++ render f qs.
Proof.
  induction ps as [|[c|a] ps IH]; simpl; [reflexivity| |];
    rewrite IH; [reflexivity | apply app_assoc].
Qed.

Lemma render_renumber_hits (ps : list (piece (jstring * jstring))) :
  forall mp next,
    render fst (renumber_hits ps mp next) = renumber_pieces ps mp next.
Proof.
  induction ps as [|[c|[o n]] ps IH]; intros mp next.
  - reflexivity.
  - simpl. rewrite IH. reflexivity.
  - rewrite renumber_pieces_hit, renumber_hits_hit.
    destruct (map_get n (fst (remember n mp next))) as [v|].
    + cbn [render fst]. rewrite IH. list_eq.
    + rewrite render_app, render_lits, IH. reflexivity.
Qed.

(** The text of a card is its matches and the characters between them. *)
Lemma render_scan_loose_opener (s : jstring) :
  render fst (scan loose_opener s) = s.
Proof.
  pattern s. apply (scan_ind _ _ loose_opener_shrinks); clear s.
  - reflexivity.
  - intros c s Hm IH. rewrite scan_lit by exact Hm. simpl. rewrite IH.
    reflexivity.
  - intros s [o n] r Hm IH.
    rewrite (scan_hit _ _ loose_opener_shrinks _ _ _ Hm). simpl. rewrite IH.
    destruct (loose_opener_spec _ _ _ _ Hm) as (_ & _ & _ & -> & _).
    reflexivity.
Qed.

Lemma renumber_agree (s : jstring) :
  forall mp next,
    agree_to_brace s (renumber_pieces (scan loose_opener s) mp next).
Proof.
  pattern s. apply (scan_ind _ _ loose_opener_shrinks); clear s.
  - constructor.
  - intros c s Hm IH mp next. rewrite scan_lit by exact Hm. simpl.
    constructor. apply IH.
  - intros s [o n] r Hm IH mp next.
    rewrite (scan_hit _ _ loose_opener_shrinks _ _ _ Hm).
    rewrite renumber_pieces_hit.
    destruct (loose_opener_spec _ _ _ _ Hm) as (w1 & w2 & -> & -> & _).
    destruct (map_get n (fst (remember n mp next))); apply atb_brace.
Qed.

(** Scanning the renumbered card finds the renumbered openers and nothing
    else. *)
Lemma renumber_stable (s : jstring) :
  forall mp next,
    values_digits mp ->
    scan loose_opener (renumber_pieces (scan loose_opener s) mp next)
    = renumber_hits (scan loose_opener s) mp next.
Proof.
  pattern s. apply (scan_ind _ _ loose_opener_shrinks); clear s.
  - reflexivity.
  - intros c s Hm IH mp next Hd. rewrite scan_lit by exact Hm.
    cbn [renumber_pieces renumber_hits].
    rewrite scan_lit.
    + rewrite IH by exact Hd. reflexivity.
    + apply (loose_opener_agree _ _ (renumber_agree s mp next) [c]);
        [discriminate | exact Hm].
  - intros s [o n] r Hm IH mp next Hd.
    rewrite (scan_hit _ _ loose_opener_shrinks _ _ _ Hm).
    rewrite renumber_pieces_hit, renumber_hits_hit.
    destruct (remember_get n mp next) as (v & Hg & Hv).
    destruct (Hv Hd) as [Hdv Hd'].
    rewrite Hg.
    rewrite (scan_hit _ _ loose_opener_shrinks _ _ _
               (loose_opener_normal v _ Hdv)).
    rewrite IH by exact Hd'. reflexivity.
Qed.

(** ** The new indices

    The keys of the replacer's map are the old indices met so far, in order
    of first appearance; the value of the [k]-th key is [String(k)]. *)

Definition seen_has (o : jstring) (seen : list jstring) : bool :=
  existsb (fun y => jeqb y o) seen.

Fixpoint index_of (o : jstring) (l : list jstring) : nat :=
  match l with
  | [] => 0
  | y :: l' => if jeqb y o then 0 else S (index_of o l')
  end.

(** [seen] once [o] has been met. *)
Definition note (o : jstring) (seen : list jstring) : list jstring :=
  if seen_has o seen then seen else seen ++ [o].

(** The distinct elements of [olds], in order of first appearance, after
    those of [seen]. *)
Fixpoint firsts_from (seen olds : list jstring) : list jstring :=
  match olds with
  | [] => seen
  | o :: olds' => firsts_from (note o seen) olds'
  end.

Definition distinct (olds : list jstring) : list jstring :=
  firsts_from [] olds.

(** The map whose keys are [seen], numbered from [k]. *)
Fixpoint numbered (k : nat) (seen : list jstring) : index_map :=
  match seen with
  | [] => []
  | o :: seen' => (o, String_of_nat k) :: numbered (S k) seen'
  end.

Lemma numbered_app (seen extra : list jstring) :
  forall k,
    numbered k (seen ++ extra)
    = numbered k seen ++ numbered (k + List.length seen) extra.
Proof.
  induction seen as [|o seen IH]; intros k; simpl.
  - rewrite Nat.add_0_r. reflexivity.
  - rewrite IH. do 3 f_equal. lia.
Qed.

Lemma map_get_numbered (o : jstring) (seen : list jstring) :
  forall k,
    map_get o (numbered k seen)
    = if seen_has o seen then Some (String_of_nat (k + index_of o seen))
      else None.
Proof.
  induction seen as [|y seen IH]; intros k; simpl; [reflexivity|].
  destruct (jeqb y o); simpl.
  - rewrite Nat.add_0_r. reflexivity.
  - rewrite IH. destruct (seen_has o seen); [|reflexivity].
    do 2 f_equal. lia.
Qed.

Lemma seen_has_in (o : jstring) (seen : list jstring) :
  seen_has o seen = true <-> In o seen.
Proof.
  unfold seen_has. rewrite existsb_exists. split.
  - intros (y & Hy & He). apply jeqb_eq in He. subst. exact Hy.
  - intros H. exists o. split; [exact H | apply jeqb_refl].
Qed.

Lemma seen_has_app (o : jstring) (a b : list jstring) :
  seen_has o (a ++ b) = (seen_has o a || seen_has o b)%bool.
Proof. unfold seen_has. apply existsb_app. Qed.

Lemma index_of_app_in (o : jstring) (a b : list jstring) :
  seen_has o a = true -> index_of o (a ++ b) = index_of o a.
Proof.
  induction a as [|y a IH]; simpl; [discriminate|].
  destruct (jeqb y o); simpl; [reflexivity|]. intros H. f_equal. auto.
Qed.

Lemma index_of_app_out (o : jstring) (a b : list jstring) :
  seen_has o a = false ->
  index_of o (a ++ b) = List.length a + index_of o b.
Proof.
  induction a as [|y a IH]; simpl; [reflexivity|].
  destruct (jeqb y o); simpl; [discriminate|]. intros H. f_equal. auto.
Qed.

Lemma index_of_bound (o : jstring) (l : list jstring) :
  seen_has o l = true -> index_of o l < List.length l.
Proof.
  induction l as [|y l IH]; simpl; [discriminate|].
  destruct (jeqb y o); simpl; [lia|]. intros H. apply IH in H. lia.
Qed.

Lemma seen_has_note (o : jstring) (seen : list jstring) :
  seen_has o (note o seen) = true.
Proof.
  unfold note. destruct (seen_has o seen) eqn:H; [exact H|].
  rewrite seen_has_app. simpl. rewrite jeqb_refl, orb_true_r. reflexivity.
Qed.

Lemma note_prefix (o : jstring) (seen : list jstring) :
  exists extra, note o seen = seen ++ extra.
Proof.
  unfold note. destruct (seen_has o seen).
  - exists []. rewrite app_nil_r. reflexivity.
  - exists [o]. reflexivity.
Qed.

Lemma firsts_from_prefix (olds seen : list jstring) :
  exists extra, firsts_from seen olds = seen ++ extra.
Proof.
  revert seen; induction olds as [|o olds IH]; intros seen; simpl.
  - exists []. rewrite app_nil_r. reflexivity.
  - destruct (IH (note o seen)) as (e1 & ->).
    destruct (note_prefix o seen) as (e2 & ->).
    exists (e2 ++ e1). rewrite app_assoc. reflexivity.
Qed.

Lemma index_of_firsts (o : jstring) (olds seen : list jstring) :
  seen_has o seen = true ->
  index_of o (firsts_from seen olds) = index_of o seen.
Proof.
  intros H. destruct (firsts_from_prefix olds seen) as (e & ->).
  apply index_of_app_in, H.
Qed.

(** What [remember] does to a numbered map. *)
Lemma remember_numbered (o : jstring) (seen : list jstring) :
  remember o (numbered 1 seen) (S (List.length seen))
  = (numbered 1 (note o seen), S (List.length (note o seen))).
Proof.
  unfold remember, map_has, note. rewrite map_get_numbered.
  destruct (seen_has o seen); [reflexivity|].
  unfold map_set. rewrite numbered_app, length_app. simpl.
  do 2 f_equal. lia.
Qed.

Lemma get_after_remember (o : jstring) (seen : list jstring) :
  map_get o (numbered 1 (note o seen))
  = Some (String_of_nat (S (index_of o (note o seen)))).
Proof.
  rewrite map_get_numbered, seen_has_note. reflexivity.
Qed.

(** The new index of an occurrence is the rank of its old index among the
    distinct old indices. *)
Lemma renumber_hits_indices (ps : list (piece (jstring * jstring))) :
  forall seen,
    map snd (hits (renumber_hits ps (numbered 1 seen) (S (List.length seen))))
    = map (fun o => String_of_nat
                      (S (index_of o (firsts_from seen (map snd (hits ps))))))
          (map snd (hits ps)).
Proof.
  induction ps as [|[c|[t o]] ps IH]; intros seen.
  - reflexivity.
  - simpl. apply IH.
  - rewrite renumber_hits_hit, remember_numbered. cbn [fst snd].
    rewrite get_after_remember. cbn [hits map snd firsts_from].
    rewrite IH. f_equal.
    rewrite index_of_firsts by apply seen_has_note. reflexivity.
Qed.

Lemma seen_has_firsts (o : jstring) (olds seen : list jstring) :
  seen_has o (firsts_from seen olds) = true <->
  seen_has o seen = true \/ In o olds.
Proof.
  revert seen; induction olds as [|y olds IH]; intros seen; simpl.
  - split; [auto | intros [H|[]]; exact H].
  - rewrite IH. unfold note. destruct (seen_has y seen) eqn:Hy.
    + split; [intros [H|H]; auto|].
      intros [H|[->|H]]; auto.
    + rewrite seen_has_app. simpl. rewrite orb_false_r, orb_true_iff, jeqb_eq.
      split; [intros [[H|H]|H]; auto|].
      intros [H|[H|H]]; auto.
Qed.

Lemma NoDup_note (o : jstring) (seen : list jstring) :
  NoDup seen -> NoDup (note o seen).
Proof.
  intros H. unfold note. destruct (seen_has o seen) eqn:Ho; [exact H|].
  apply NoDup_app; [exact H | constructor; [intros [] | constructor] |].
  intros x Hx [<-|[]].
  apply seen_has_in in Hx. congruence.
Qed.

Lemma NoDup_firsts (olds seen : list jstring) :
  NoDup seen -> NoDup (firsts_from seen olds).
Proof.
  revert seen; induction olds as [|o olds IH]; intros seen H; simpl;
    [exact H|].
  apply IH, NoDup_note, H.
Qed.

Lemma index_of_nth (l : list jstring) :
  NoDup l ->
  forall i, i < List.length l -> index_of (nth i l []) l = i.
Proof.
  induction 1 as [|y l Hy _ IH]; intros i Hi; simpl in Hi; [lia|].
  destruct i as [|i]; simpl.
  - rewrite jeqb_refl. reflexivity.
  - destruct (jeqb y (nth i l [])) eqn:He.
    + apply jeqb_eq in He. exfalso. apply Hy. rewrite He.
      apply nth_In. lia.
    + f_equal. apply IH. lia.
Qed.

(** The labels [String(k)], ..., [String(k+n-1)]. *)
Definition labels_from (k n : nat) : list jstring :=
  map String_of_nat (seq k n).

Lemma labels_from_length (k n : nat) : List.length (labels_from k n) = n.
Proof. unfold labels_from. rewrite length_map, length_seq. reflexivity. Qed.

Lemma seen_has_labels (j n k : nat) :
  seen_has (String_of_nat j) (labels_from k n)
  = (Nat.leb k j && Nat.ltb j (k + n))%bool.
Proof.
  apply eq_true_iff_eq.
  rewrite seen_has_in, andb_true_iff, Nat.leb_le, Nat.ltb_lt.
  unfold labels_from. rewrite in_map_iff. split.
  - intros (x & Hx & Hin). apply String_of_nat_inj in Hx. subst.
    apply in_seq in Hin. lia.
  - intros H. exists j. split; [reflexivity|]. apply in_seq. lia.
Qed.

Lemma index_of_labels (i n : nat) :
  forall k, i < n -> index_of (String_of_nat (k + i)) (labels_from k n) = i.
Proof.
  revert i; induction n as [|n IH]; intros i k Hi; [lia|]. simpl.
  destruct i as [|i].
  - rewrite Nat.add_0_r, jeqb_refl. reflexivity.
  - destruct (jeqb (String_of_nat k) (String_of_nat (k + S i))) eqn:He.
    + apply jeqb_eq, String_of_nat_inj in He. lia.
    + f_equal. replace (k + S i) with (S k + i) by lia.
      apply (IH i (S k)). lia.
Qed.

Lemma labels_from_snoc (k n : nat) :
  labels_from k (S n) = labels_from k n ++ [String_of_nat (k + n)].
Proof. unfold labels_from. rewrite seq_S, map_app. reflexivity. Qed.

Lemma remember_numbered_at (o : jstring) (seen : list jstring) (n : nat) :
  n = List.length seen ->
  remember o (numbered 1 seen) (S n)
  = (numbered 1 (note o seen), S (List.length (note o seen))).
Proof. intros ->. apply remember_numbered. Qed.

(** Renumbering a renumbered card changes nothing. *)
Lemma renumber_twice (ps : list (piece (jstring * jstring))) :
  forall seen,
    renumber_pieces
      (renumber_hits ps (numbered 1 seen) (S (List.length seen)))
      (numbered 1 (labels_from 1 (List.length seen)))
      (S (List.length seen))
    = renumber_pieces ps (numbered 1 seen) (S (List.length seen)).
Proof.
  induction ps as [|[c|[t o]] ps IH]; intros seen.
  - reflexivity.
  - simpl. rewrite IH. reflexivity.
  - rewrite renumber_hits_hit, (renumber_pieces_hit t).
    rewrite remember_numbered. cbn [fst snd].
    rewrite get_after_remember.
    set (seen' := note o seen).
    set (i := index_of o seen').
    assert (Hi : i < List.length seen')
      by (apply index_of_bound, seen_has_note).
    rewrite renumber_pieces_hit.
    rewrite (remember_numbered_at _ (labels_from 1 (List.length seen))
               (List.length seen))
      by (symmetry; apply labels_from_length).
    cbn [fst snd].
    assert (Hn : note (String_of_nat (S i))
                   (labels_from 1 (List.length seen))
                 = labels_from 1 (List.length seen')).
    { unfold note. rewrite seen_has_labels.
      subst seen' i. unfold note in *.
      destruct (seen_has o seen) eqn:Ho.
      - destruct (Nat.ltb_spec (S (index_of o seen)) (1 + List.length seen));
          [reflexivity | lia].
      - rewrite index_of_app_out in * by exact Ho. simpl in *.
        rewrite jeqb_refl in *. rewrite length_app in *. simpl in *.
        rewrite Nat.add_0_r.
        destruct (Nat.ltb_spec (S (List.length seen))
                    (S (List.length seen))); [lia|].
        simpl. replace (List.length seen + 1) with (S (List.length seen))
          by lia.
        rewrite labels_from_snoc. reflexivity. }
    rewrite Hn, labels_from_length.
    rewrite map_get_numbered.
    replace (seen_has (String_of_nat (S i))
               (labels_from 1 (List.length seen'))) with true.
    + change (S i) with (1 + i) at 1.
      rewrite index_of_labels by exact Hi.
      rewrite IH. reflexivity.
    + symmetry. rewrite seen_has_labels.
      destruct (Nat.ltb_spec (S i) (1 + List.length seen')); [reflexivity|lia].
Qed.

Lemma renumberCard_idempotent (card : jstring) :
  renumberCard (renumberCard card) = renumberCard card.
Proof.
  unfold renumberCard at 1 2.
  rewrite renumber_stable by constructor.
  apply (renumber_twice (scan loose_opener card) []).
Qed.

(** ** Delimiters that stay clear of the openers *)

(** The characters a rewritten opener is made of. *)
Definition opener_char (c : char) : bool :=
  (N.eqb c LBRACE || N.eqb c LOWER_C || N.eqb c COLON || is_digit c)%bool.

(** A delimiter none of whose characters is a brace, a [c], a colon or a
    digit.  The default delimiter is one. *)
Definition plain_delimiter (d : jstring) : Prop :=
  forallb (fun c => negb (opener_char c)) d = true.

Lemma plain_delimiter_default (d : jstring) :
  plain_delimiter d -> plain_delimiter (delimiter_or_default d).
Proof. destruct d; [reflexivity | auto]. Qed.

Lemma delimiter_or_default_nonempty (d : jstring) :
  delimiter_or_default d <> [].
Proof. destruct d; discriminate. Qed.

Lemma plain_delimiter_not_in (d : jstring) (c : char) :
  plain_delimiter d -> opener_char c = true -> ~ In c d.
Proof.
  unfold plain_delimiter. rewrite forallb_forall. intros H Hc Hin.
  apply H in Hin. rewrite Hc in Hin. discriminate.
Qed.

(** [d] matches at no position of [x] when [x] is followed by [t]. *)
Definition ends_free (d t x : jstring) : Prop :=
  forall pre v, x = pre ++ v -> v <> [] -> strip_prefix d (v ++ t) = None.

Lemma ends_free_tail (d t a x : jstring) :
  ends_free d t (a ++ x) -> ends_free d t x.
Proof.
  intros H pre v -> Hv. apply (H (a ++ pre)); [|exact Hv].
  rewrite app_assoc. reflexivity.
Qed.

Lemma suffix_cases (a y pre v : jstring) :
  a ++ y = pre ++ v ->
  (exists pre', y = pre' ++ v) \/
  (exists pre' v', a = pre' ++ v' /\ v' <> [] /\ v = v' ++ y).
Proof.
  intros H. apply app_eq_app in H as (l & [[-> ->]|[-> ->]]).
  - destruct l as [|c l].
    + left. exists []. reflexivity.
    + right. exists pre, (c :: l). repeat split. discriminate.
  - left. exists l. reflexivity.
Qed.

Lemma new_opener_chars (v : jstring) :
  digits v -> forallb opener_char (lit "{{c" ++ v ++ lit "::") = true.
Proof.
  intros [_ Hv]. rewrite !forallb_app. rewrite andb_true_iff. split;
    [reflexivity|]. rewrite andb_true_iff. split; [|reflexivity].
  rewrite forallb_forall in *. intros c Hc. apply Hv in Hc.
  unfold opener_char. rewrite Hc. rewrite !orb_true_r. reflexivity.
Qed.

Lemma renumber_ends_free (d t : jstring) :
  d <> [] -> plain_delimiter d ->
  forall s mp next,
    values_digits mp ->
    ends_free d t s ->
    ends_free d t (renumber_pieces (scan loose_opener s) mp next).
Proof.
  intros Hd Hp s. pattern s.
  apply (scan_ind _ _ loose_opener_shrinks); clear s.
  - intros mp next _ H. exact H.
  - intros c s Hm IH mp next Hv H. rewrite scan_lit by exact Hm.
    cbn [renumber_pieces].
    intros [|c' pre] v Heq Hne; simpl in Heq.
    + subst v.
      apply (literal_agree d _ _ Hd
               (plain_delimiter_not_in d LBRACE Hp eq_refl)
               (renumber_agree s mp next) [c] t).
      apply (H [] (c :: s)); [reflexivity | discriminate].
    + inversion Heq; subst c'.
      apply (IH mp next Hv (ends_free_tail d t [c] s H) pre v);
        assumption.
  - intros s [o n] r Hm IH mp next Hv H.
    rewrite (scan_hit _ _ loose_opener_shrinks _ _ _ Hm).
    rewrite renumber_pieces_hit.
    destruct (remember_get n mp next) as (w & Hg & Hw).
    destruct (Hw Hv) as [Hdw Hv']. rewrite Hg.
    destruct (loose_opener_spec _ _ _ _ Hm) as (w1 & w2 & -> & -> & _).
    apply ends_free_tail in H.
    intros pre v Heq Hne.
    replace (lit "{{c" ++ w ++ lit "::" ++
             renumber_pieces (scan loose_opener r)
               (fst (remember n mp next)) (snd (remember n mp next)))
      with ((lit "{{c" ++ w ++ lit "::") ++
            renumber_pieces (scan loose_opener r)
              (fst (remember n mp next)) (snd (remember n mp next)))
      in Heq by list_eq.
    destruct (suffix_cases _ _ _ _ Heq) as [(pre' & Hy)|(pre' & v' & Ha & Hv'n & ->)].
    + apply (IH _ _ Hv' H pre' v Hy Hne).
    + destruct v' as [|c0 v']; [contradiction|]. simpl.
      apply strip_prefix_other_head; [exact Hd|].
      apply (plain_delimiter_not_in d c0 Hp).
      pose proof (new_opener_chars w Hdw) as Hall.
      rewrite Ha, forallb_app in Hall. simpl in Hall.
      apply andb_true_iff in Hall as [_ Hall].
      apply andb_true_iff in Hall as [Hall _]. exact Hall.
Qed.

(** The cards a text splits into: the delimiter matches nowhere in the last
    one, and in no other one even when the delimiter follows it. *)
Fixpoint good_cards (d : jstring) (l : list jstring) : Prop :=
  match l with
  | [] => False
  | c :: l' =>
      match l' with
      | [] => ends_free d [] c
      | _ :: _ => ends_free d d c /\ good_cards d l'
      end
  end.

Lemma ends_free_cons (d t : jstring) (c : char) (x : jstring) :
  strip_prefix d ((c :: x) ++ t) = None -> ends_free d t x ->
  ends_free d t (c :: x).
Proof.
  intros Hc Hx [|c' pre] v Heq Hne; simpl in Heq.
  - subst v. exact Hc.
  - inversion Heq; subst. apply (Hx pre v); auto.
Qed.

Lemma split_good (d s : jstring) : d <> [] -> good_cards d (split d s).
Proof.
  intros Hd. pattern s.
  apply (scan_ind _ _ (literally_shrinks d Hd)); clear s.
  - simpl. intros [|c pre] v Heq Hne; [|discriminate].
    simpl in Heq. subst v. contradiction.
  - intros c s Hm IH.
    assert (Hn : strip_prefix d (c :: s) = None).
    { unfold literally in Hm. destruct (strip_prefix d (c :: s));
        [discriminate | reflexivity]. }
    destruct (split_lit _ _ _ Hn) as (h & t & Hs & ->).
    pose proof (join_split d s Hd) as Hj. rewrite Hs in Hj, IH.
    destruct t as [|h' t].
    + simpl in *. subst h. apply ends_free_cons; [|exact IH].
      rewrite app_nil_r. exact Hn.
    + destruct IH as [IH1 IH2]. split; [|exact IH2].
      apply ends_free_cons; [|exact IH1].
      rewrite join_cons in Hj by discriminate. subst s.
      replace (c :: h ++ d ++ join d (h' :: t))
        with (((c :: h) ++ d) ++ join d (h' :: t)) in Hn by list_eq.
      rewrite strip_prefix_long in Hn
        by (rewrite length_app; simpl; lia).
      apply option_map_none in Hn. exact Hn.
  - intros s [] r Hm IH. unfold literally in Hm.
    destruct (strip_prefix d s) as [r'|] eqn:Hp; [|discriminate].
    inversion Hm; subst r'. apply strip_prefix_spec in Hp; subst s.
    rewrite (split_hit _ _ Hd).
    destruct (split d r) as [|h t] eqn:Hs; [contradiction|].
    split; [|exact IH].
    intros [|c pre] v Heq Hne; [|discriminate].
    simpl in Heq. subst v. contradiction.
Qed.

Lemma join_good (d : jstring) (l : list jstring) :
  d <> [] -> good_cards d l -> split d (join d l) = l.
Proof.
  intros Hd. induction l as [|c l IH]; [contradiction|].
  destruct l as [|c' l].
  - simpl. intros H. apply split_none. intros pre v Heq.
    destruct v as [|x v]; [apply strip_prefix_nil_subject, Hd|].
    rewrite <- (app_nil_r (x :: v)). apply (H pre); [exact Heq|discriminate].
  - intros [H1 H2]. rewrite join_cons by discriminate.
    rewrite split_first; [rewrite IH by exact H2; reflexivity | exact Hd |].
    intros pre v Heq Hne. rewrite app_assoc.
    rewrite strip_prefix_long by (rewrite length_app; lia).
    rewrite (H1 pre v Heq Hne). reflexivity.
Qed.

Lemma renumber_good (d : jstring) (l : list jstring) :
  d <> [] -> plain_delimiter d ->
  good_cards d l -> good_cards d (map renumberCard l).
Proof.
  intros Hd Hp. induction l as [|c l IH]; [contradiction|].
  destruct l as [|c' l].
  - simpl. apply renumber_ends_free; auto. constructor.
  - intros [H1 H2]. split.
    + apply renumber_ends_free; auto. constructor.
    + apply IH, H2.
Qed.

(** With such a delimiter the renumbered text splits into the renumbered
    cards. *)
Lemma split_renumbered (d text : jstring) :
  d <> [] -> plain_delimiter d ->
  split d (join d (map renumberCard (split d text)))
  = map renumberCard (split d text).
Proof.
  intros Hd Hp. apply join_good; [exact Hd|].
  apply renumber_good; auto. apply split_good, Hd.
Qed.

(** ** What renumbering leaves alone *)







(** ** Substrings, decided *)

Fixpoint contains (d p : jstring) : bool :=
  match strip_prefix d p with
  | Some _ => true
  | None =>
      match p with
      | [] => false
      | _ :: p' => contains d p'
      end
  end.

Lemma contains_eq (d p : jstring) :
  contains d p =
  match strip_prefix d p with
  | Some _ => true
  | None => match p with [] => false | _ :: p' => contains d p' end
  end.
Proof. destruct p; reflexivity. Qed.

Lemma contains_spec (d p : jstring) :
  contains d p = true <-> occurs_in d p.
Proof.
  induction p as [|c p IH]; rewrite contains_eq.
  - destruct (strip_prefix d []) as [r|] eqn:Hs.
    + apply strip_prefix_spec in Hs. split; [|reflexivity].
      intros _. exists [], r. exact Hs.
    + split; [discriminate|]. intros (a & b & H).
      destruct a; [|discriminate]. simpl in H.
      apply strip_prefix_spec in H. congruence.
  - destruct (strip_prefix d (c :: p)) as [r|] eqn:Hs.
    + apply strip_prefix_spec in Hs. split; [|reflexivity].
      intros _. exists [], r. exact Hs.
    + rewrite IH. split.
      * intros (a & b & ->). exists (c :: a), b. reflexivity.
      * intros (a & b & H). destruct a as [|c' a].
        -- simpl in H. apply strip_prefix_spec in H. congruence.
        -- inversion H; subst. exists a, b. reflexivity.
Qed.

Lemma not_contains (d p : jstring) :
  contains d p = false -> ~ occurs_in d p.
Proof. intros H Ho. apply contains_spec in Ho. congruence. Qed.

(** ** Spans are local *)

(** An opener in its general shape is matched whatever follows it. *)
Lemma loose_opener_text (w1 n w2 t : jstring) :
  spaces w1 -> spaces w2 -> digits n ->
  loose_opener (opener_text w1 n w2 ++ t)
  = Some ((opener_text w1 n w2, n), t).
Proof.
  intros H1 H2 [Hne Hn]. unfold loose_opener, opener_text.
  replace ((lit "{{" ++ w1 ++ lit "c" ++ n ++ w2 ++ lit "::") ++ t)
    with (lit "{{" ++ (w1 ++ lit "c" ++ n ++ w2 ++ lit "::" ++ t))
    by list_eq.
  rewrite strip_prefix_app.
  rewrite (span_app is_space w1) by (auto; reflexivity).
  rewrite strip_prefix_app.
  rewrite (span_app is_digit n).
  - destruct n as [|d0 n]; [contradiction|].
    rewrite (span_app is_space w2) by (auto; reflexivity).
    rewrite strip_prefix_app. reflexivity.
  - exact Hn.
  - destruct w2 as [|c w2]; [reflexivity|]. simpl.
    unfold spaces in H2. simpl in H2. apply andb_true_iff in H2 as [Hc _].
    destruct (is_digit c) eqn:Hd; [|reflexivity].
    apply digit_not_space in Hd. congruence.
Qed.

(** The inner text of a span ends at the first [}}]. *)
Lemma until_close_prefix (b t i r : jstring) :
  until_close (b ++ lit "}}" ++ t) = Some (i, r) -> exists j, b = i ++ j.
Proof.
  revert i; induction b as [|c b IH]; intros i; rewrite until_close_eq.
  - cbn [app]. rewrite strip_prefix_app. intros H; inversion H; subst.
    exists []. reflexivity.
  - destruct (strip_prefix (lit "}}") ((c :: b) ++ lit "}}" ++ t)).
    + intros H; inversion H; subst. exists (c :: b). reflexivity.
    + cbn [app].
      destruct (until_close (b ++ lit "}}" ++ t)) as [[i' r']|] eqn:Hu;
        [|discriminate].
      intros H; inversion H; subst.
      destruct (IH _ eq_refl) as (j & ->). exists j. reflexivity.
Qed.

Lemma until_close_rest (inner r r' : jstring) :
  until_close (inner ++ lit "}}" ++ r) = Some (inner, r) ->
  until_close (inner ++ lit "}}" ++ r') = Some (inner, r').
Proof.
  induction inner as [|c inner IH]; intros H;
    rewrite until_close_eq in H |- *.
  - cbn [app]. rewrite strip_prefix_app. reflexivity.
  - assert (Hs : forall x,
               strip_prefix (lit "}}") ((c :: inner) ++ lit "}}" ++ x)
               = option_map (fun y => y ++ x)
                   (strip_prefix (lit "}}") ((c :: inner) ++ lit "}}"))).
    { intros x. rewrite app_assoc. apply strip_prefix_long.
      rewrite length_app. simpl. lia. }
    rewrite Hs in H |- *.
    destruct (strip_prefix (lit "}}") ((c :: inner) ++ lit "}}"));
      cbn [option_map] in *; [discriminate|].
    cbn [app] in *.
    destruct (until_close (inner ++ lit "}}" ++ r)) as [[i x]|] eqn:Hu;
      [|discriminate].
    inversion H; subst. rewrite (IH eq_refl). reflexivity.
Qed.


Lemma strict_span_rest (s : jstring) (m : span_match) (r r' : jstring) :
  strict_span s = Some (m, r) ->
  strict_span (sm_full m ++ r') = Some (m, r').
Proof.
  intros H.
  destruct (strict_span_spec _ _ _ H) as (Hf & _ & Hn & Hc).
  unfold strict_span. rewrite Hf.
  replace ((lit "{{c" ++ sm_n m ++ lit "::" ++ sm_inner m ++ lit "}}") ++ r')
    with (lit "{{c" ++ sm_n m ++ lit "::" ++ (sm_inner m ++ lit "}}" ++ r'))
    by list_eq.
  rewrite (proj2 (strict_opener_spec _ _ _) (conj eq_refl Hn)).
  rewrite (until_close_rest _ _ r' Hc).
  rewrite <- Hf. destruct m; reflexivity.
Qed.

(** No opener starts with anything but two braces. *)
Lemma loose_opener_head (a b : char) (s : jstring) :
  a <> LBRACE \/ b <> LBRACE -> loose_opener (a :: b :: s) = None.
Proof.
  intros H. unfold loose_opener. rewrite strip_two.
  destruct (N.eqb_spec LBRACE a) as [<-|_]; [|reflexivity].
  destruct (N.eqb_spec LBRACE b) as [<-|_]; [|reflexivity].
  destruct H as [H|H]; contradiction.
Qed.

Lemma strict_opener_head (a b : char) (s : jstring) :
  a <> LBRACE \/ b <> LBRACE -> strict_opener (a :: b :: s) = None.
Proof.
  intros H. unfold strict_opener. rewrite strip_three.
  destruct (N.eqb_spec LBRACE a) as [<-|_]; [|reflexivity].
  destruct (N.eqb_spec LBRACE b) as [<-|_]; [|reflexivity].
  destruct H as [H|H]; contradiction.
Qed.

Lemma loose_opener_short (s : jstring) :
  List.length s < 2 -> loose_opener s = None.
Proof.
  destruct s as [|a [|b s]]; simpl List.length; try lia; intros _;
    unfold loose_opener; change (lit "{{") with [LBRACE; LBRACE];
    cbn [strip_prefix]; [reflexivity|].
  destruct (N.eqb LBRACE a); reflexivity.
Qed.

Lemma strict_opener_short (s : jstring) :
  List.length s < 2 -> strict_opener s = None.
Proof.
  destruct s as [|a [|b s]]; simpl List.length; try lia; intros _;
    unfold strict_opener;
    change (lit "{{c") with [LBRACE; LBRACE; LOWER_C];
    cbn [strip_prefix]; [reflexivity|].
  destruct (N.eqb LBRACE a); reflexivity.
Qed.

Lemma loose_span_head (c : char) (s : jstring) :
  c <> LBRACE -> loose_span (c :: s) = None.
Proof.
  intros Hc. unfold loose_span.
  destruct s as [|b s].
  - rewrite loose_opener_short by (simpl; lia). reflexivity.
  - rewrite loose_opener_head by auto. reflexivity.
Qed.

Lemma strict_span_head (c : char) (s : jstring) :
  c <> LBRACE -> strict_span (c :: s) = None.
Proof.
  intros Hc. unfold strict_span.
  destruct s as [|b s].
  - rewrite strict_opener_short by (simpl; lia). reflexivity.
  - rewrite strict_opener_head by auto. reflexivity.
Qed.

(** A stretch in which the pattern matches nowhere is passed over. *)
Lemma scan_skip {A : Type} (m : jstring -> option (A * jstring))
  (u t : jstring) :
  (forall a v, u = a ++ v -> v <> [] -> m (v ++ t) = None) ->
  scan m (u ++ t) = map Lit u ++ scan m t.
Proof.
  induction u as [|c u IH]; intros H; [reflexivity|].
  simpl app. rewrite scan_lit.
  - simpl. f_equal. apply IH. intros a v -> Hv.
    apply (H (c :: a)); [reflexivity | exact Hv].
  - apply (H [] (c :: u)); [reflexivity | discriminate].
Qed.

Definition no_brace (x : jstring) : Prop := ~ In LBRACE x.

Lemma scan_skip_no_brace (u t : jstring) :
  no_brace u ->
  scan loose_span (u ++ t) = map Lit u ++ scan loose_span t.
Proof.
  intros Hu. apply scan_skip. intros a v -> Hv.
  destruct v as [|c v]; [contradiction|]. simpl.
  apply loose_span_head. intros ->. apply Hu.
  apply in_or_app. right. left. reflexivity.
Qed.


Lemma hits_lits {A : Type} (s : jstring) : hits (map (@Lit A) s) = [].
Proof. induction s; simpl; auto. Qed.


(** ** Capping a well-formed card *)



Lemma no_brace_app (x y : jstring) :
  no_brace x -> no_brace y -> no_brace (x ++ y).
Proof. intros Hx Hy Hin. apply in_app_or in Hin as [H|H]; auto. Qed.

Lemma no_brace_spaces (w : jstring) : spaces w -> no_brace w.
Proof.
  unfold spaces, no_brace. rewrite forallb_forall. intros H Hin.
  apply H in Hin. discriminate.
Qed.

Lemma no_brace_digits (n : jstring) : digits n -> no_brace n.
Proof.
  unfold no_brace. intros [_ H] Hin. rewrite forallb_forall in H.
  apply H in Hin. discriminate.
Qed.

Lemma no_brace_suffix_head (x a v : jstring) (c : char) :
  no_brace x -> x = a ++ c :: v -> c <> LBRACE.
Proof.
  intros Hx -> ->. apply Hx. apply in_or_app. right. left. reflexivity.
Qed.



Section Cap.
Variable allowed : list jstring.


End Cap.


Lemma inner_has_no_closer (inner r : jstring) :
  until_close (inner ++ lit "}}" ++ r) = Some (inner, r) ->
  ~ occurs_in (lit "}}") inner.
Proof.
  intros H (a & b & Hi).
  rewrite Hi in H at 1.
  replace ((a ++ lit "}}" ++ b) ++ lit "}}" ++ r)
    with (a ++ lit "}}" ++ (b ++ lit "}}" ++ r)) in H by list_eq.
  apply until_close_prefix in H as (j & Hj).
  apply (f_equal (@List.length char)) in Hi, Hj.
  rewrite !length_app in *. simpl in *. lia.
Qed.

Lemma occurs_in_trim (d x : jstring) :
  occurs_in d (trim x) -> occurs_in d x.
Proof.
  intros (a & b & H). destruct (trim_split x) as (w1 & w2 & Hx & _).
  exists (w1 ++ a), (b ++ w2). rewrite Hx, H. list_eq.
Qed.


(** ** What the word limit does not see *)

Lemma enforce_is_replace (text : jstring) (maxWords : nat) :
  enforceClozeWordLimit text maxWords
  = replace strict_span (limit_span maxWords) text.
Proof. destruct text; reflexivity. Qed.

Lemma replace_skip {A : Type} (m : jstring -> option (A * jstring))
  (f : A -> jstring) (u t : jstring) :
  (forall a v, u = a ++ v -> v <> [] -> m (v ++ t) = None) ->
  replace m f (u ++ t) = u ++ replace m f t.
Proof.
  intros H. unfold replace. rewrite (scan_skip m u t H).
  rewrite render_app, render_lits. reflexivity.
Qed.

(** No opener of the exact form starts at any position of [x]. *)
Definition no_strict_opener (x : jstring) : Prop :=
  forall a v, x = a ++ v -> strict_opener v = None.

(** An opener with stray whitespace is no opener of the exact form. *)
Lemma strict_rejects_stray (w1 n w2 t : jstring) :
  spaces w1 -> spaces w2 -> w1 ++ w2 <> [] -> digits n ->
  strict_opener (opener_text w1 n w2 ++ t) = None.
Proof.
  intros H1 H2 Hne [Hn0 Hn]. unfold strict_opener, opener_text.
  replace ((lit "{{" ++ w1 ++ lit "c" ++ n ++ w2 ++ lit "::") ++ t)
    with (LBRACE :: LBRACE :: (w1 ++ lit "c" ++ n ++ w2 ++ lit "::" ++ t))
    by list_eq.
  rewrite strip_three. rewrite !N.eqb_refl. cbn [andb].
  destruct w1 as [|c0 w1].
  - cbn [app]. rewrite strip_prefix_app.
    destruct w2 as [|c2 w2]; [contradiction|].
    unfold spaces in H2. simpl in H2. apply andb_true_iff in H2 as [Hc2 _].
    rewrite (span_app is_digit n).
    + destruct n; [contradiction|].
      change (lit "::") with [COLON; COLON]. cbn [app strip_prefix].
      destruct (N.eqb_spec COLON c2) as [<-|_]; [discriminate|reflexivity].
    + exact Hn.
    + simpl. destruct (is_digit c2) eqn:Hd; [|reflexivity].
      apply digit_not_space in Hd. congruence.
  - unfold spaces in H1. simpl in H1. apply andb_true_iff in H1 as [Hc0 _].
    change (lit "c") with [LOWER_C]. cbn [app strip_prefix].
    destruct (N.eqb_spec LOWER_C c0) as [<-|_]; [discriminate|reflexivity].
Qed.

(** A text without an opener in it yields none when a closer or a second
    opener follows. *)
Lemma strict_opener_before (x : char) (v t : jstring) :
  x = LBRACE \/ x = RBRACE -> v <> [] ->
  strict_opener v = None -> strict_opener (v ++ x :: x :: t) = None.
Proof.
  intros Hx Hv Hn. destruct v as [|a [|b v]]; [contradiction| |].
  - simpl. unfold strict_opener. rewrite strip_three.
    destruct (N.eqb LBRACE a && N.eqb LBRACE x)%bool; [|reflexivity].
    change (lit "c") with [LOWER_C]. cbn [strip_prefix].
    destruct (N.eqb_spec LOWER_C x) as [He|_]; [|reflexivity].
    destruct Hx; subst; discriminate.
  - rewrite strict_opener_barrier by (auto; simpl; lia).
    rewrite Hn. reflexivity.
Qed.

Section StraySpan.
Variables pre w1 n w2 content post : jstring.
Hypothesis w1_spaces : spaces w1.
Hypothesis w2_spaces : spaces w2.
Hypothesis stray : w1 ++ w2 <> [].
Hypothesis n_digits : digits n.
Hypothesis pre_plain : no_strict_opener pre.
Hypothesis content_plain : no_strict_opener content.

Let span_text : jstring := opener_text w1 n w2 ++ content ++ lit "}}".

Lemma opener_tail_no_brace :
  no_brace (w1 ++ lit "c" ++ n ++ w2 ++ lit "::").
Proof.
  repeat apply no_brace_app;
    auto using no_brace_spaces, no_brace_digits;
    intros Hin; simpl in Hin;
    repeat destruct Hin as [Hin|Hin]; try discriminate; try contradiction.
Qed.

Lemma stray_span_tail (a v : jstring) :
  content ++ lit "}}" = a ++ v -> v <> [] ->
  strict_span (v ++ post) = None.
Proof.
  intros Heq Hv.
  destruct (suffix_cases _ _ _ _ Heq)
    as [(p & Hp)|(p & v' & Hc & Hne & ->)].
  - destruct v as [|c v]; [contradiction|].
    simpl. apply strict_span_head.
    destruct p as [|p0 [|p1 p]]; inversion Hp; subst; try discriminate.
    destruct p; discriminate.
  - unfold strict_span. rewrite <- app_assoc.
    change (lit "}}" ++ post) with (RBRACE :: RBRACE :: post).
    rewrite strict_opener_before; auto.
    apply (content_plain p v' Hc).
Qed.

Lemma stray_span_inside (a v : jstring) :
  span_text = a ++ v -> v <> [] -> strict_span (v ++ post) = None.
Proof.
  unfold span_text. intros Heq Hv.
  destruct (suffix_cases _ _ _ _ Heq)
    as [(p & Hp)|(p & v' & Ho & Hne & ->)].
  - apply (stray_span_tail p v Hp Hv).
  - destruct p as [|p0 p].
    + cbn [app] in Ho. subst v'. unfold strict_span.
      rewrite <- app_assoc.
      rewrite strict_rejects_stray by assumption. reflexivity.
    + unfold opener_text in Ho.
      change (lit "{{" ++ w1 ++ lit "c" ++ n ++ w2 ++ lit "::")
        with (LBRACE :: LBRACE :: (w1 ++ lit "c" ++ n ++ w2 ++ lit "::"))
        in Ho.
      pose proof opener_tail_no_brace as Hb.
      set (x := w1 ++ lit "c" ++ n ++ w2 ++ lit "::") in *.
      assert (Hx : exists x0 x', x = x0 :: x').
      { unfold x. destruct w1; simpl; eauto. }
      inversion Ho as [[Hp0 Hrest]]. clear Ho.
      destruct p as [|p1 p].
      * cbn [app] in Hrest. subst v'.
        destruct Hx as (x0 & x' & Hx). rewrite Hx. cbn [app].
        unfold strict_span. rewrite strict_opener_head; [reflexivity|].
        right. apply (no_brace_suffix_head _ [] x' x0 Hb Hx).
      * inversion Hrest as [[Hp1 Hx']].
        destruct v' as [|c v']; [contradiction|].
        cbn [app]. apply strict_span_head.
        apply (no_brace_suffix_head _ p v' c Hb Hx').
Qed.

Lemma stray_span_before (a v : jstring) :
  pre ++ span_text = a ++ v -> v <> [] -> strict_span (v ++ post) = None.
Proof.
  intros Heq Hv.
  destruct (suffix_cases _ _ _ _ Heq)
    as [(p & Hp)|(p & v' & Hc & Hne & ->)].
  - apply (stray_span_inside p v Hp Hv).
  - unfold strict_span, span_text, opener_text. rewrite <- app_assoc.
    replace ((lit "{{" ++ w1 ++ lit "c" ++ n ++ w2 ++ lit "::")
             ++ content ++ lit "}}")
      with (LBRACE :: LBRACE ::
            ((w1 ++ lit "c" ++ n ++ w2 ++ lit "::") ++ content ++ lit "}}"))
      by list_eq.
    change ((LBRACE :: LBRACE ::
             (w1 ++ lit "c" ++ n ++ w2 ++ lit "::") ++ content ++ lit "}}")
            ++ post)
      with (LBRACE :: LBRACE ::
            (((w1 ++ lit "c" ++ n ++ w2 ++ lit "::") ++ content ++ lit "}}")
             ++ post)).
    rewrite strict_opener_before; auto.
    apply (pre_plain p v' Hc).
Qed.

Lemma limit_passes_stray_span (maxWords : nat) :
  enforceClozeWordLimit (pre ++ span_text ++ post) maxWords
  = pre ++ span_text ++ enforceClozeWordLimit post maxWords.
Proof.
  rewrite !enforce_is_replace. rewrite (app_assoc pre).
  rewrite replace_skip by exact stray_span_before.
  rewrite <- app_assoc. reflexivity.
Qed.
End StraySpan.

(** [no_strict_opener], decided. *)
Fixpoint opener_free (x : jstring) : bool :=
  match strict_opener x with
  | Some _ => false
  | None =>
      match x with
      | [] => true
      | _ :: x' => opener_free x'
      end
  end.

Lemma opener_free_eq (x : jstring) :
  opener_free x =
  match strict_opener x with
  | Some _ => false
  | None => match x with [] => true | _ :: x' => opener_free x' end
  end.
Proof. destruct x; reflexivity. Qed.

Lemma opener_free_spec (x : jstring) :
  opener_free x = true -> no_strict_opener x.
Proof.
  induction x as [|c x IH]; rewrite opener_free_eq;
    destruct (strict_opener _) eqn:Hs; try discriminate; intros H.
  - intros a v Heq. symmetry in Heq. apply app_eq_nil in Heq as [_ ->].
    exact Hs.
  - intros [|a0 a] v Heq; simpl in Heq.
    + subst v. exact Hs.
    + inversion Heq; subst. apply (IH H a v eq_refl).
Qed.

(** ** Counting words *)

(** The number of words of a text: the positions at which a character that
    is no whitespace stands first or after whitespace. *)
Fixpoint starts (after_space : bool) (s : jstring) : nat :=
  match s with
  | [] => 0
  | c :: s' =>
      if is_space c then starts true s'
      else (if after_space then 1 else 0) + starts false s'
  end.

Lemma starts_spaces (w : jstring) (b : bool) (r : jstring) :
  spaces w -> w <> [] -> starts b (w ++ r) = starts true r.
Proof.
  unfold spaces. revert b. induction w as [|c w IH]; intros b Hw Hne;
    [contradiction|].
  simpl in *. apply andb_true_iff in Hw as [Hc Hw]. rewrite Hc.
  destruct w as [|c' w]; [reflexivity|].
  apply IH; [exact Hw | discriminate].
Qed.

Lemma starts_leading (w r : jstring) :
  spaces w -> starts true (w ++ r) = starts true r.
Proof.
  intros Hw. destruct w as [|c w]; [reflexivity|].
  apply starts_spaces; [exact Hw | discriminate].
Qed.

Lemma starts_trailing (x w : jstring) (b : bool) :
  spaces w -> starts b (x ++ w) = starts b x.
Proof.
  intros Hw. revert b. induction x as [|c x IH]; intros b.
  - simpl. destruct w as [|c w]; [reflexivity|].
    rewrite <- (app_nil_r (c :: w)).
    rewrite starts_spaces; [reflexivity | | discriminate].
    exact Hw.
  - simpl. destruct (is_space c); rewrite IH; reflexivity.
Qed.

Lemma starts_trim (x : jstring) : starts true (trim x) = starts true x.
Proof.
  destruct (trim_split x) as (w1 & w2 & Hx & H1 & H2).
  rewrite Hx at 2. rewrite starts_leading by exact H1.
  rewrite starts_trailing by exact H2. reflexivity.
Qed.

Lemma starts_flag (x : jstring) :
  starts false x <= starts true x /\ starts true x <= S (starts false x).
Proof.
  destruct x as [|c x]; simpl; [lia|].
  destruct (is_space c); lia.
Qed.

Lemma starts_prefix (x y : jstring) (b : bool) :
  starts b x <= starts b (x ++ y).
Proof.
  revert b; induction x as [|c x IH]; intros b; simpl; [lia|].
  destruct (is_space c).
  - apply IH.
  - specialize (IH false). lia.
Qed.

Lemma starts_suffix (a x : jstring) :
  starts true x <= starts true (a ++ x).
Proof.
  induction a as [|c a IH]; simpl; [lia|].
  destruct (is_space c); [exact IH|].
  pose proof (starts_flag (a ++ x)). lia.
Qed.

Lemma starts_substring (a x b : jstring) :
  starts true x <= starts true (a ++ x ++ b).
Proof.
  pose proof (starts_suffix a (x ++ b)).
  pose proof (starts_prefix x b true). lia.
Qed.

(** The pieces of [split(/\s+/)] that are not empty are the words. *)
Lemma split_spaces_count (s : jstring) :
  exists h t,
    split_spaces s = h :: t /\
    List.length (filter nonempty (h :: t)) = starts true s /\
    List.length (filter nonempty t) = starts false s.
Proof.
  unfold split_spaces. pattern s.
  apply (scan_ind _ _ space_run_shrinks); clear s.
  - exists [], []. auto.
  - intros c s Hm (h & t & Hs & Hi & Hii).
    rewrite scan_lit by exact Hm. cbn [chunks]. rewrite Hs.
    exists (c :: h), t. split; [reflexivity|].
    apply space_run_none in Hm. simpl. rewrite Hm. simpl. lia.
  - intros s w r Hm (h & t & Hs & Hi & Hii).
    rewrite (scan_hit _ _ space_run_shrinks _ _ _ Hm). cbn [chunks].
    exists [], (chunks (scan space_run r)). split; [reflexivity|].
    destruct (space_run_spec _ _ _ Hm) as (-> & Hne & Hw & _).
    rewrite !starts_spaces by assumption.
    rewrite Hs. simpl. simpl in Hi. lia.
Qed.

Lemma content_words_count (x : jstring) :
  List.length (content_words x) = starts true x.
Proof.
  unfold content_words.
  destruct (split_spaces_count (trim x)) as (h & t & -> & Hi & _).
  rewrite Hi. apply starts_trim.
Qed.

(** A span's inner text is within the limit, or holds no word character. *)
Definition short_or_wordless (maxWords : nat) (x : jstring) : Prop :=
  List.length (content_words x) <= maxWords \/ forallb not_word x = true.

Lemma short_or_wordless_sub (maxWords : nat) (a x b : jstring) :
  short_or_wordless maxWords (a ++ x ++ b) -> short_or_wordless maxWords x.
Proof.
  unfold short_or_wordless. rewrite !content_words_count.
  intros [H|H].
  - left. pose proof (starts_substring a x b). lia.
  - right. rewrite !forallb_app in H.
    apply andb_true_iff in H as [_ H]. apply andb_true_iff in H as [H _].
    exact H.
Qed.

(** ** The anchor *)

Definition atom_chars (items : list atom) : list char :=
  flat_map (fun a => match a with
                     | Bnd => []
                     | Ch c => [c]
                     | Opt c => [c]
                     end) items.

(** Every character of a match is, up to case, a character of the
    pattern. *)
Definition from_pattern (items : list atom) (w : jstring) : Prop :=
  forall c, In c w -> exists p, In p (atom_chars items) /\ ci_eqb p c = true.

Lemma match_atoms_chars (items : list atom) :
  forall prev s w,
    match_atoms items prev s = Some w -> from_pattern items w.
Proof.
  induction items as [|a items IH]; intros prev s w; simpl.
  - intros H; inversion H; subst. intros c [].
  - destruct a as [|p|p].
    + destruct (at_boundary prev s); [|discriminate].
      intros H. exact (IH _ _ _ H).
    + destruct s as [|c s]; [discriminate|].
      destruct (ci_eqb p c) eqn:Hp; [|discriminate].
      destruct (match_atoms items (Some c) s) as [w'|] eqn:Hm;
        [|discriminate].
      intros H; inversion H; subst. intros x [->|Hx].
      * exists p. split; [left; reflexivity | exact Hp].
      * destruct (IH _ _ _ Hm x Hx) as (q & Hq & Hqx).
        exists q. split; [right; exact Hq | exact Hqx].
    + assert (Hskip : forall w0,
                 match_atoms items prev s = Some w0 ->
                 from_pattern (Opt p :: items) w0).
      { intros w0 H0 x Hx. destruct (IH _ _ _ H0 x Hx) as (q & Hq & Hqx).
        exists q. split; [right; exact Hq | exact Hqx]. }
      destruct s as [|c s]; [apply Hskip|].
      destruct (ci_eqb p c) eqn:Hp; [|apply Hskip].
      destruct (match_atoms items (Some c) s) as [w'|] eqn:Hm;
        [|apply Hskip].
      simpl. intros H; inversion H; subst. intros x [->|Hx].
      * exists p. split; [left; reflexivity | exact Hp].
      * destruct (IH _ _ _ Hm x Hx) as (q & Hq & Hqx).
        exists q. split; [right; exact Hq | exact Hqx].
Qed.

Lemma search_from_eq (items : list atom) (prev : option char) (s : jstring) :
  search_from items prev s =
  match match_atoms items prev s with
  | Some w => Some w
  | None =>
      match s with
      | [] => None
      | c :: s' => search_from items (Some c) s'
      end
  end.
Proof. destruct s; reflexivity. Qed.

Lemma search_from_chars (items : list atom) (s : jstring) :
  forall prev w,
    search_from items prev s = Some w -> from_pattern items w.
Proof.
  induction s as [|c s IH]; intros prev w; rewrite search_from_eq;
    destruct (match_atoms items prev _) as [w'|] eqn:Hm.
  - intros H; inversion H; subst. exact (match_atoms_chars _ _ _ _ Hm).
  - discriminate.
  - intros H; inversion H; subst. exact (match_atoms_chars _ _ _ _ Hm).
  - apply IH.
Qed.

Lemma space_upper (c : char) : is_space c = true -> upper c = c.
Proof.
  intros H. apply is_space_spec in H. unfold upper.
  destruct (in_range 97 122 c) eqn:Hr; [|reflexivity].
  apply in_range_spec in Hr. lia.
Qed.

Lemma ci_eqb_not_space (p c : char) :
  is_space (upper p) = false -> ci_eqb p c = true -> is_space c = false.
Proof.
  intros Hp He. unfold ci_eqb in He. apply N.eqb_eq in He.
  destruct (is_space c) eqn:Hc; [|reflexivity].
  rewrite (space_upper c Hc) in He. congruence.
Qed.

Definition no_space (w : jstring) : Prop :=
  forallb (fun c => negb (is_space c)) w = true.

Lemma keyword_no_space (s w : jstring) :
  first_keyword patterns s = Some w -> no_space w.
Proof.
  assert (Hsafe : forall ps,
             forallb (fun p => negb (is_space (upper p)))
               (flat_map atom_chars ps) = true ->
             first_keyword ps s = Some w -> no_space w).
  { induction ps as [|re ps IH]; simpl; [discriminate|].
    rewrite forallb_app. intros Hall. apply andb_true_iff in Hall as [H1 H2].
    destruct (search re s) as [w'|] eqn:Hs.
    - intros H; inversion H; subst.
      apply forallb_forall. intros c Hc.
      destruct (search_from_chars _ _ _ _ Hs c Hc) as (p & Hp & Hpc).
      rewrite forallb_forall in H1. apply H1 in Hp.
      apply negb_true_iff in Hp.
      rewrite (ci_eqb_not_space p c Hp Hpc). reflexivity.
    - apply IH, H2. }
  apply Hsafe. vm_compute. reflexivity.
Qed.

Lemma starts_no_space (w : jstring) (b : bool) :
  no_space w -> starts b w <= (if b then 1 else 0).
Proof.
  unfold no_space. revert b. induction w as [|c w IH]; intros b H; simpl.
  - destruct b; lia.
  - simpl in H. apply andb_true_iff in H as [Hc H].
    apply negb_true_iff in Hc. rewrite Hc.
    specialize (IH false H). simpl in IH. destruct b; lia.
Qed.

Lemma starts_app_space (p t : jstring) (b : bool) :
  starts b (p ++ SPACE ++ t) = starts b p + starts true t.
Proof.
  revert b. induction p as [|c p IH]; intros b; simpl.
  - reflexivity.
  - destruct (is_space c); rewrite IH; lia.
Qed.

Lemma starts_join (l : list jstring) :
  Forall no_space l -> starts true (join SPACE l) <= List.length l.
Proof.
  induction 1 as [|p l Hp Hl IH]; [simpl; lia|].
  destruct l as [|q l].
  - simpl. apply (starts_no_space p true Hp).
  - rewrite join_cons by discriminate. rewrite starts_app_space.
    pose proof (starts_no_space p true Hp). simpl in *. lia.
Qed.

Lemma forallb_drop_while (P f : char -> bool) (x : jstring) :
  forallb P x = true -> forallb P (drop_while f x) = true.
Proof.
  induction x as [|c x IH]; simpl; [auto|].
  intros H. apply andb_true_iff in H as [Hc H].
  destruct (f c); [auto|]. simpl. rewrite Hc, H. reflexivity.
Qed.

Lemma no_space_strip_edges (w : jstring) :
  no_space w -> no_space (strip_edges w).
Proof.
  unfold no_space, strip_edges. intros H.
  rewrite forallb_rev. apply forallb_drop_while.
  rewrite forallb_rev. apply forallb_drop_while. exact H.
Qed.

Lemma split_spaces_no_space (s : jstring) :
  Forall no_space (split_spaces s).
Proof.
  unfold split_spaces. pattern s.
  apply (scan_ind _ _ space_run_shrinks); clear s.
  - repeat constructor.
  - intros c s Hm IH. rewrite scan_lit by exact Hm. cbn [chunks].
    destruct (chunks (scan space_run s)) as [|h t].
    + constructor; [|constructor]. unfold no_space. simpl.
      rewrite (space_run_none _ _ Hm). reflexivity.
    + inversion IH; subst. constructor; [|assumption].
      unfold no_space in *. simpl.
      rewrite (space_run_none _ _ Hm). simpl. assumption.
  - intros s w r Hm IH.
    rewrite (scan_hit _ _ space_run_shrinks _ _ _ Hm). cbn [chunks].
    constructor; [reflexivity | exact IH].
Qed.

Lemma drop_while_nil (f : char -> bool) (x : jstring) :
  drop_while f x = [] -> forallb f x = true.
Proof.
  induction x as [|c x IH]; simpl; [reflexivity|].
  destruct (f c); [exact IH | discriminate].
Qed.

Lemma strip_edges_nil (w : jstring) :
  strip_edges w = [] -> forallb not_word w = true.
Proof.
  unfold strip_edges. intros H.
  apply (f_equal (@rev char)) in H. rewrite rev_involutive in H. simpl in H.
  apply drop_while_nil in H. rewrite forallb_rev in H.
  destruct (drop_while_split not_word w) as (a & Hw & Ha).
  rewrite Hw, forallb_app, Ha, H. reflexivity.
Qed.

Lemma space_not_word (c : char) : is_space c = true -> not_word c = true.
Proof.
  intros H. apply is_space_spec in H. unfold not_word.
  apply negb_true_iff, not_true_iff_false. rewrite is_word_spec. lia.
Qed.

Lemma wordless_chunks (s : jstring) :
  Forall (fun ch => forallb not_word ch = true) (split_spaces s) ->
  forallb not_word s = true.
Proof.
  unfold split_spaces. pattern s.
  apply (scan_ind _ _ space_run_shrinks); clear s.
  - reflexivity.
  - intros c s Hm IH. rewrite scan_lit by exact Hm. cbn [chunks].
    destruct (chunks (scan space_run s)) as [|h t] eqn:Hc.
    + exfalso. exact (chunks_nonempty _ _ Hc).
    + intros H. inversion H as [|? ? Hh Ht]; subst. simpl in Hh.
      apply andb_true_iff in Hh as [Hc0 Hh]. simpl. rewrite Hc0.
      apply IH. constructor; assumption.
  - intros s w r Hm IH.
    rewrite (scan_hit _ _ space_run_shrinks _ _ _ Hm). cbn [chunks].
    intros H. inversion H as [|? ? _ Ht]; subst.
    destruct (space_run_spec _ _ _ Hm) as (-> & _ & Hw & _).
    rewrite forallb_app, (IH Ht), andb_true_r.
    apply forallb_forall. intros c Hc. apply space_not_word.
    unfold spaces in Hw. rewrite forallb_forall in Hw. auto.
Qed.

Lemma no_words_wordless (l : list jstring) :
  filter nonempty (map strip_edges l) = [] ->
  Forall (fun ch => forallb not_word ch = true) l.
Proof.
  induction l as [|ch l IH]; simpl; [constructor|].
  destruct (strip_edges ch) eqn:Hs; simpl; [|discriminate].
  intros H. constructor; [apply strip_edges_nil, Hs | apply IH, H].
Qed.

(** What [pickAnchorWords] returns is within the limit, for a limit of two
    words or more, unless the content holds no word character. *)
Lemma anchor_short_or_wordless (content : jstring) (maxWords : nat) :
  2 <= maxWords ->
  short_or_wordless maxWords (pickAnchorWords content maxWords).
Proof.
  intros Hmw. unfold pickAnchorWords, short_or_wordless.
  destruct (first_keyword patterns (trim content)) as [w|] eqn:Hk.
  - left. rewrite content_words_count.
    destruct (test re_Schuffner w && test re_dots (trim content))%bool.
    + vm_compute. lia.
    + pose proof (starts_no_space w true (keyword_no_space _ _ Hk)).
      simpl in *. lia.
  - destruct (filter nonempty (map strip_edges (split_spaces (trim content))))
      as [|w0 ws] eqn:Hw.
    + right. apply wordless_chunks, no_words_wordless, Hw.
    + left. rewrite content_words_count, <- Hw.
      set (words := filter nonempty
                      (map strip_edges (split_spaces (trim content)))).
      assert (Hall : Forall no_space words).
      { unfold words. apply Forall_forall. intros x Hx.
        apply filter_In in Hx as [Hx _]. apply in_map_iff in Hx as (y & <- & Hy).
        apply no_space_strip_edges.
        exact (proj1 (Forall_forall _ _) (split_spaces_no_space _) _ Hy). }
      assert (Hf : Forall no_space (firstn maxWords words)).
      { rewrite <- (firstn_skipn maxWords words) in Hall.
        apply Forall_app in Hall as [Hf _]. exact Hf. }
      pose proof (starts_join _ Hf) as Hj.
      pose proof (firstn_le_length maxWords words). lia.
Qed.

(** ** The spans of the limited text *)

Lemma new_opener_tail_no_brace (n : jstring) :
  digits n -> no_brace (LOWER_C :: n ++ lit "::").
Proof.
  intros Hn. change (LOWER_C :: n ++ lit "::") with (lit "c" ++ n ++ lit "::").
  repeat apply no_brace_app; auto using no_brace_digits;
    intros Hin; simpl in Hin;
    repeat destruct Hin as [Hin|Hin]; try discriminate; try contradiction.
Qed.

(** A span that starts inside the span [{{c n :: body }}] has its inner text
    inside [body]. *)
Lemma span_in_region (n body t pre v : jstring) (m : span_match)
  (rest : jstring) :
  digits n ->
  lit "{{c" ++ n ++ lit "::" ++ body ++ lit "}}" = pre ++ v -> v <> [] ->
  strict_span (v ++ t) = Some (m, rest) ->
  exists a b, body = a ++ sm_inner m ++ b.
Proof.
  intros Hn Heq Hv Hs.
  replace (lit "{{c" ++ n ++ lit "::" ++ body ++ lit "}}")
    with ((lit "{{c" ++ n ++ lit "::") ++ body ++ lit "}}") in Heq
    by list_eq.
  destruct (suffix_cases _ _ _ _ Heq)
    as [(p & Hp)|(p & v' & Ho & Hne & ->)].
  - destruct (suffix_cases _ _ _ _ Hp)
      as [(q & Hq)|(q & v' & Hb & Hne & ->)].
    + destruct v as [|c v]; [contradiction|].
      simpl in Hs. rewrite strict_span_head in Hs; [discriminate|].
      destruct q as [|q0 [|q1 q]]; inversion Hq; subst; try discriminate.
      destruct q; discriminate.
    + unfold strict_span in Hs. rewrite <- app_assoc in Hs.
      change (lit "}}" ++ t) with (RBRACE :: RBRACE :: t) in Hs.
      destruct v' as [|c0 [|c1 v']]; [contradiction| |].
      * simpl in Hs. rewrite strict_opener_head in Hs; [discriminate|].
        right. discriminate.
      * rewrite strict_opener_barrier in Hs by (auto; simpl; lia).
        destruct (strict_opener (c0 :: c1 :: v')) as [[n' r0]|] eqn:Hso;
          [|discriminate].
        apply strict_opener_spec in Hso as [Hv' _].
        cbn [option_map add_rest fst snd] in Hs.
        change (RBRACE :: RBRACE :: t) with (lit "}}" ++ t) in Hs.
        destruct (until_close (r0 ++ lit "}}" ++ t)) as [[inner r1]|] eqn:Hu;
          [|discriminate].
        inversion Hs; subst m rest. simpl.
        apply until_close_prefix in Hu as (j & ->).
        exists (q ++ lit "{{c" ++ n' ++ lit "::"), j.
        rewrite Hb, Hv'. list_eq.
  - destruct p as [|p0 p].
    + cbn [app] in Ho. subst v'.
      unfold strict_span in Hs.
      replace (((lit "{{c" ++ n ++ lit "::") ++ body ++ lit "}}") ++ t)
        with (lit "{{c" ++ n ++ lit "::" ++ (body ++ lit "}}" ++ t)) in Hs
        by list_eq.
      rewrite (proj2 (strict_opener_spec _ _ _) (conj eq_refl Hn)) in Hs.
      destruct (until_close (body ++ lit "}}" ++ t)) as [[inner r1]|] eqn:Hu;
        [|discriminate].
      inversion Hs; subst m rest. simpl.
      apply until_close_prefix in Hu as (j & ->).
      exists [], j. reflexivity.
    + change (lit "{{c" ++ n ++ lit "::")
        with (LBRACE :: LBRACE :: (LOWER_C :: n ++ lit "::")) in Ho.
      pose proof (new_opener_tail_no_brace n Hn) as Hb.
      set (x := LOWER_C :: n ++ lit "::") in *.
      inversion Ho as [[Hp0 Hrest]]. clear Ho.
      destruct p as [|p1 p].
      * cbn [app] in Hrest. subst v'. unfold x in Hs. cbn [app] in Hs.
        unfold strict_span in Hs.
        rewrite strict_opener_head in Hs; [discriminate|].
        right. discriminate.
      * inversion Hrest as [[Hp1 Hx]].
        destruct v' as [|c v']; [contradiction|].
        cbn [app] in Hs. rewrite strict_span_head in Hs; [discriminate|].
        apply (no_brace_suffix_head _ p v' c Hb Hx).
Qed.

Lemma until_close_contains (x : jstring) :
  until_close x = None <-> contains (lit "}}") x = false.
Proof.
  induction x as [|c x IH]; rewrite until_close_eq, contains_eq.
  - simpl. split; reflexivity.
  - destruct (strip_prefix (lit "}}") (c :: x)); [split; discriminate|].
    rewrite <- IH. destruct (until_close x) as [[i r]|];
      split; congruence.
Qed.

Lemma occurs_after_prefix (o s : jstring) :
  ~ In RBRACE o -> occurs_in (lit "}}") (o ++ s) -> occurs_in (lit "}}") s.
Proof.
  induction o as [|c o IH]; intros Ho H; [exact H|].
  destruct H as (a & b & H). destruct a as [|a0 a].
  - simpl in H. inversion H; subst. exfalso. apply Ho. left. reflexivity.
  - simpl in H. inversion H; subst. apply IH.
    + intros Hin. apply Ho. right. exact Hin.
    + exists a, b. assumption.
Qed.

Lemma strict_span_has_closer (v : jstring) (m : span_match) (r : jstring) :
  strict_span v = Some (m, r) -> occurs_in (lit "}}") v.
Proof.
  intros H. destruct (strict_span_spec _ _ _ H) as (Hf & -> & _).
  exists (lit "{{c" ++ sm_n m ++ lit "::" ++ sm_inner m), r.
  rewrite Hf. list_eq.
Qed.

Section Limit.
Variable maxWords : nat.
Hypothesis two_words : 2 <= maxWords.

Let f : span_match -> jstring := limit_span maxWords.

Lemma limit_span_shape (s : jstring) (m : span_match) (r : jstring) :
  strict_span s = Some (m, r) ->
  exists body,
    f m = lit "{{c" ++ sm_n m ++ lit "::" ++ body ++ lit "}}" /\
    short_or_wordless maxWords body.
Proof.
  intros H. destruct (strict_span_spec _ _ _ H) as (Hf & _).
  unfold f, limit_span.
  destruct (Nat.leb_spec (List.length (content_words (sm_inner m))) maxWords)
    as [Hle|Hgt].
  - exists (sm_inner m). split; [exact Hf | left; exact Hle].
  - exists (pickAnchorWords (trim (sm_inner m)) maxWords).
    split; [reflexivity|]. apply anchor_short_or_wordless, two_words.
Qed.

Lemma limit_agree (s : jstring) :
  agree_to_brace s (replace strict_span f s).
Proof.
  unfold replace. pattern s.
  apply (scan_ind _ _ strict_span_shrinks); clear s.
  - constructor.
  - intros c s Hm IH. rewrite scan_lit by exact Hm. simpl.
    constructor. exact IH.
  - intros s m r Hm _.
    rewrite (scan_hit _ _ strict_span_shrinks _ _ _ Hm). cbn [render].
    destruct (limit_span_shape _ _ _ Hm) as (body & -> & _).
    destruct (strict_span_spec _ _ _ Hm) as (Hf & -> & _). rewrite Hf.
    apply atb_brace.
Qed.

(** Where no span starts before the pass, none starts after it. *)
Lemma limit_head (c : char) (s : jstring) :
  strict_span (c :: s) = None ->
  strict_span (c :: replace strict_span f s) = None.
Proof.
  intros H.
  destruct (strict_opener (c :: s)) as [[n s1]|] eqn:Ho.
  - assert (Hu : until_close s1 = None).
    { unfold strict_span in H. rewrite Ho in H.
      destruct (until_close s1) as [[i r]|]; [discriminate | reflexivity]. }
    assert (Hnone : forall pre v, s = pre ++ v -> strict_span v = None).
    { intros pre v Hs.
      destruct (strict_span v) as [[m r]|] eqn:Hv; [|reflexivity].
      exfalso. apply strict_span_has_closer in Hv.
      apply strict_opener_spec in Ho as [Hcs Hn].
      assert (Hocc : occurs_in (lit "}}") (c :: s)).
      { destruct Hv as (a & b & ->). exists (c :: pre ++ a), b.
        rewrite Hs. list_eq. }
      rewrite Hcs in Hocc.
      replace (lit "{{c" ++ n ++ lit "::" ++ s1)
        with ((lit "{{c" ++ n ++ lit "::") ++ s1) in Hocc by list_eq.
      apply occurs_after_prefix in Hocc.
      - apply contains_spec in Hocc.
        apply until_close_contains in Hu. congruence.
      - intros Hin. apply in_app_or in Hin as [Hin|Hin];
          [simpl in Hin; repeat destruct Hin as [Hin|Hin];
           try discriminate; contradiction|].
        apply in_app_or in Hin as [Hin|Hin].
        + destruct Hn as [_ Hd]. rewrite forallb_forall in Hd.
          apply Hd in Hin. discriminate.
        + simpl in Hin; repeat destruct Hin as [Hin|Hin];
            try discriminate; contradiction. }
    unfold replace. rewrite (scan_no_match _ strict_span _ Hnone).
    rewrite render_lits. exact H.
  - unfold strict_span at 1.
    change (c :: replace strict_span f s)
      with ([c] ++ replace strict_span f s).
    rewrite (strict_opener_agree _ _ (limit_agree s) [c]);
      [reflexivity | discriminate | exact Ho].
Qed.

Lemma limit_positions (s : jstring) :
  forall pre v m rest,
    replace strict_span f s = pre ++ v ->
    strict_span v = Some (m, rest) ->
    short_or_wordless maxWords (sm_inner m).
Proof.
  pattern s. apply (scan_ind _ _ strict_span_shrinks); clear s.
  - intros pre v m rest Heq Hv. unfold replace in Heq. simpl in Heq.
    symmetry in Heq. apply app_eq_nil in Heq as [_ ->]. discriminate.
  - intros c s Hm IH [|p pre] v m rest Heq Hv;
      unfold replace in Heq; rewrite scan_lit in Heq by exact Hm;
      cbn [render] in Heq; fold (replace strict_span f s) in Heq;
      simpl in Heq.
    + subst v. rewrite (limit_head c s Hm) in Hv. discriminate.
    + inversion Heq; subst. apply (IH pre v m rest); auto.
  - intros s m0 r Hm IH pre v m rest Heq Hv.
    unfold replace in Heq.
    rewrite (scan_hit _ _ strict_span_shrinks _ _ _ Hm) in Heq.
    cbn [render] in Heq. fold (replace strict_span f r) in Heq.
    destruct (suffix_cases _ _ _ _ Heq)
      as [(pre' & Hy)|(pre' & v' & Ha & Hne & ->)].
    + apply (IH pre' v m rest Hy Hv).
    + destruct (limit_span_shape _ _ _ Hm) as (body & Hb & Hok).
      destruct (strict_span_spec _ _ _ Hm) as (_ & _ & Hn & _).
      rewrite Hb in Ha.
      destruct (span_in_region _ _ _ _ _ _ _ Hn Ha Hne Hv) as (a & b & Hab).
      rewrite Hab in Hok. exact (short_or_wordless_sub _ _ _ _ Hok).
Qed.
End Limit.

(** ** Searching for a keyword *)

(** The character before the position reached after [pre]. *)
Definition prev_of (prev : option char) (pre : jstring) : option char :=
  fold_left (fun _ c => Some c) pre prev.

Lemma prev_of_app (prev : option char) (a b : jstring) :
  prev_of prev (a ++ b) = prev_of (prev_of prev a) b.
Proof. apply fold_left_app. Qed.

Lemma prev_of_nonempty (p q : option char) (b : jstring) :
  b <> [] -> prev_of p b = prev_of q b.
Proof.
  revert p q. induction b as [|c b IH]; intros p q Hb; [contradiction|].
  reflexivity.
Qed.

(** A match at some position makes the search succeed. *)
Lemma search_from_complete (items : list atom) (pre v : jstring) :
  forall prev w,
    match_atoms items (prev_of prev pre) v = Some w ->
    exists w', search_from items prev (pre ++ v) = Some w'.
Proof.
  induction pre as [|c pre IH]; intros prev w Hm; rewrite search_from_eq.
  - simpl in *. rewrite Hm. eauto.
  - destruct (match_atoms items prev ((c :: pre) ++ v)) as [w0|]; [eauto|].
    simpl. apply (IH (Some c) w). exact Hm.
Qed.

(** What the search returns is a match at some position. *)
Lemma search_from_sound (items : list atom) (s : jstring) :
  forall prev w,
    search_from items prev s = Some w ->
    exists prev' v, match_atoms items prev' v = Some w.
Proof.
  induction s as [|c s IH]; intros prev w; rewrite search_from_eq;
    destruct (match_atoms items prev _) as [w0|] eqn:Hm.
  - intros H; inversion H; subst. eauto.
  - discriminate.
  - intros H; inversion H; subst. eauto.
  - apply IH.
Qed.

(** A match of a pattern that begins with literal characters begins with a
    match of these characters. *)
Lemma match_literal_prefix (l : jstring) (tail : list atom) :
  forall prev s w,
    match_atoms (map Ch l ++ tail) prev s = Some w ->
    forall prev', exists w1, match_atoms (map Ch l) prev' w = Some w1.
Proof.
  induction l as [|p l IH]; intros prev s w H prev'; simpl in *.
  - eauto.
  - destruct s as [|c s]; [discriminate|].
    destruct (ci_eqb p c) eqn:Hp; [|discriminate].
    destruct (match_atoms (map Ch l ++ tail) (Some c) s) as [w'|] eqn:Hm;
      [|discriminate].
    inversion H; subst. rewrite Hp.
    destruct (IH _ _ _ Hm (Some c)) as (w1 & ->). simpl. eauto.
Qed.

Definition re_Schuffners : list atom :=
  whole (chars "Schuffner" ++ [Opt APOSTROPHE; Ch LOWER_S]).

Lemma Schuffners_test (s w : jstring) :
  search re_Schuffners s = Some w -> test re_Schuffner w = true.
Proof.
  intros H. apply search_from_sound in H as (prev & v & Hm).
  unfold re_Schuffners, whole in Hm. cbn [match_atoms] in Hm.
  destruct (at_boundary prev v); [|discriminate].
  rewrite <- app_assoc in Hm. unfold chars in Hm.
  destruct (match_literal_prefix _ _ _ _ _ Hm None) as (w1 & Hw1).
  unfold test, search, re_Schuffner, chars.
  rewrite search_from_eq, Hw1. reflexivity.
Qed.

(** A text that neither starts nor ends with whitespace keeps its place
    when what surrounds it is trimmed. *)
Lemma trim_around (pre p post : jstring) :
  p <> [] ->
  drop_while is_space p = p ->
  drop_while is_space (rev p) = rev p ->
  trim (pre ++ p ++ post)
  = drop_while is_space pre ++ p ++ rev (drop_while is_space (rev post)).
Proof.
  intros Hne Hp Hr. unfold trim.
  assert (H1 : drop_while is_space (pre ++ p ++ post)
               = drop_while is_space pre ++ p ++ post).
  { rewrite drop_while_app_cases.
    destruct (drop_while is_space pre) as [|c q]; [|reflexivity].
    rewrite drop_while_app_cases, Hp.
    destruct p; [contradiction | reflexivity]. }
  rewrite H1, !rev_app_distr, <- app_assoc.
  assert (H2 : drop_while is_space
                 (rev post ++ rev p ++ rev (drop_while is_space pre))
               = drop_while is_space (rev post) ++ rev p
                 ++ rev (drop_while is_space pre)).
  { rewrite drop_while_app_cases.
    destruct (drop_while is_space (rev post)) as [|c q]; [|reflexivity].
    rewrite drop_while_app_cases, Hr.
    destruct (rev p) eqn:Hrp; [|reflexivity].
    apply (f_equal (@rev char)) in Hrp. rewrite rev_involutive in Hrp.
    contradiction. }
  rewrite H2, !rev_app_distr, !rev_involutive, <- app_assoc. reflexivity.
Qed.

Lemma prev_of_drop_while (f : char -> bool) (pre : jstring) :
  is_word_at (prev_of None pre) = false ->
  is_word_at (prev_of None (drop_while f pre)) = false.
Proof.
  intros H. destruct (drop_while_split f pre) as (a & Hs & _).
  destruct (drop_while f pre) as [|c q] eqn:Hd; [reflexivity|].
  rewrite Hs, prev_of_app in H.
  rewrite (prev_of_nonempty _ None (c :: q)) in H by discriminate.
  exact H.
Qed.

(** * The claims *)

(** ** Renumbering *)

(** The indices used by a card are [1..K] for some [K]. *)
Definition dense_indices (card : jstring) : Prop :=
  exists K, forall x,
    In x (opener_indices card) <->
    exists k, 1 <= k <= K /\ x = String_of_nat k.

Lemma opener_indices_renumbered (card : jstring) :
  opener_indices (renumberCard card)
  = map (fun o => String_of_nat
                    (S (index_of o (distinct (opener_indices card)))))
        (opener_indices card).
Proof.
  unfold opener_indices, matchAll, renumberCard.
  rewrite renumber_stable by constructor.
  apply (renumber_hits_indices (scan loose_opener card) []).
Qed.

Lemma renumbered_indices_range (olds : list jstring) (x : jstring) :
  In x (map (fun o => String_of_nat (S (index_of o (distinct olds)))) olds)
  <-> exists k, 1 <= k <= List.length (distinct olds) /\ x = String_of_nat k.
Proof.
  rewrite in_map_iff. split.
  - intros (o & <- & Ho). exists (S (index_of o (distinct olds))).
    split; [|reflexivity].
    assert (Hs : seen_has o (distinct olds) = true)
      by (apply seen_has_firsts; right; exact Ho).
    apply index_of_bound in Hs. lia.
  - intros (k & Hk & ->).
    set (o := nth (k - 1) (distinct olds) []).
    assert (Hin : In o (distinct olds)) by (apply nth_In; lia).
    exists o. split.
    + unfold o. rewrite index_of_nth; [f_equal; lia | | lia].
      apply NoDup_firsts. constructor.
    + apply seen_has_in, seen_has_firsts in Hin as [Hin|Hin];
        [discriminate | exact Hin].
Qed.

(** C3, as stated, fails: with the delimiter [c1::] the renumbered text
    [{{c1::a {{c2::b] splits into the cards [{{] and [a {{c2::b], and the
    second uses the index 2 alone. *)
Lemma renumber_dense_counterexample :
  ~ (forall card,
        In card (split (lit "c1::")
                   (renumberClozesPerCard (lit "{{c5::a {{c7::b")
                      (lit "c1::"))) ->
        dense_indices card).
Proof.
  intros H.
  destruct (H (lit "a {{c2::b")) as (K & HK).
  - vm_compute. right. left. reflexivity.
  - assert (H2 : In (lit "2") (opener_indices (lit "a {{c2::b")))
      by (vm_compute; left; reflexivity).
    apply HK in H2 as (k & Hk & Hk2).
    change (lit "2") with (String_of_nat 2) in Hk2.
    apply String_of_nat_inj in Hk2. subst k.
    assert (H1 : In (String_of_nat 1) (opener_indices (lit "a {{c2::b")))
      by (apply HK; exists 1; split; [lia | reflexivity]).
    vm_compute in H1. destruct H1 as [H1|[]]. discriminate.
Qed.

(** C3, amended: the text returned is the cards of the input, each renumbered,
    joined by the delimiter.  In every renumbered card the new index of an
    occurrence is [String(r)], where [r] is the rank, counted from 1, of its
    old index among the distinct old indices of the card in order of first
    appearance; hence the indices used are exactly [1..K] with [K] the number
    of distinct old indices, and equal old indices get equal new ones.  When
    the delimiter holds no brace, [c], colon or digit, the renumbered cards are
    the delimiter-separated cards of the text returned.  Scenario A holds. *)
Theorem renumber_cards_dense (text delimiter card : jstring) :
  let d := delimiter_or_default delimiter in
  let olds := opener_indices card in
  let news := opener_indices (renumberCard card) in
  renumberClozesPerCard text delimiter
  = join d (map renumberCard (split d text))
  /\ news = map (fun o => String_of_nat (S (index_of o (distinct olds)))) olds
  /\ (forall x, In x news <->
        exists k, 1 <= k <= List.length (distinct olds)
                  /\ x = String_of_nat k)
  /\ (plain_delimiter delimiter ->
      split d (renumberClozesPerCard text delimiter)
      = map renumberCard (split d text))
  /\ renumberCard
       (lit "{{c5::malaria}} causes {{c5::fever}} and {{c8::jaundice}}")
     = lit "{{c1::malaria}} causes {{c1::fever}} and {{c2::jaundice}}"
  /\ renumberClozesPerCard
       (lit "{{c5::malaria}} causes {{c5::fever}} and {{c8::jaundice}}")
       DEFAULT_DELIMITER
     = lit "{{c1::malaria}} causes {{c1::fever}} and {{c2::jaundice}}".
Proof.
  intros d olds news. split; [reflexivity|].
  assert (Hn : news
               = map (fun o => String_of_nat (S (index_of o (distinct olds))))
                   olds) by apply opener_indices_renumbered.
  split; [exact Hn|]. split; [|split; [|split]].
  - intros x. rewrite Hn. apply renumbered_indices_range.
  - intros Hp. apply split_renumbered.
    + apply delimiter_or_default_nonempty.
    + apply plain_delimiter_default, Hp.
  - vm_compute. reflexivity.
  - vm_compute. reflexivity.
Qed.

(** C4, as stated, fails: with the delimiter [c1::] a second pass turns
    [{{c1::a {{c2::b] into [{{c1::a {{c1::b]. *)
Lemma renumber_idempotent_counterexample :
  renumberClozesPerCard
    (renumberClozesPerCard (lit "{{c5::a {{c7::b") (lit "c1::")) (lit "c1::")
  <> renumberClozesPerCard (lit "{{c5::a {{c7::b") (lit "c1::").
Proof. vm_compute. discriminate. Qed.

(** C4, amended: renumbering is idempotent for every text and every
    delimiter that holds no brace, [c], colon or digit, the default delimiter
    among them. *)
Theorem renumber_idempotent (text delimiter : jstring) :
  plain_delimiter delimiter ->
  renumberClozesPerCard (renumberClozesPerCard text delimiter) delimiter
  = renumberClozesPerCard text delimiter.
Proof.
  intros Hp. unfold renumberClozesPerCard.
  set (d := delimiter_or_default delimiter).
  rewrite split_renumbered.
  - rewrite map_map. f_equal. apply map_ext. intros card.
    apply renumberCard_idempotent.
  - apply delimiter_or_default_nonempty.
  - apply plain_delimiter_default, Hp.
Qed.

Lemma renumber_idempotent_witness :
  renumberClozesPerCard
    (renumberClozesPerCard
       (lit "{{c5::malaria}}===CARD==={{ c8 ::fever}} {{c3::x}}")
       DEFAULT_DELIMITER)
    DEFAULT_DELIMITER
  = renumberClozesPerCard
      (lit "{{c5::malaria}}===CARD==={{ c8 ::fever}} {{c3::x}}")
      DEFAULT_DELIMITER.
Proof.
  apply (renumber_idempotent
           (lit "{{c5::malaria}}===CARD==={{ c8 ::fever}} {{c3::x}}")
           DEFAULT_DELIMITER).
  reflexivity.
Defined.




(** ** Capping *)

Lemma cap_cards_nth (outCards : list jstring) :
  forall inCards i outCard,
    nth_error outCards i = Some outCard ->
    nth_error (cap_cards inCards outCards) i
    = Some (capCard (nth i inCards []) outCard).
Proof.
  induction outCards as [|o outCards IH]; intros inCards i outCard H.
  - destruct i; discriminate.
  - destruct i as [|i]; simpl in *.
    + inversion H; subst. destruct inCards; reflexivity.
    + rewrite (IH (tl inCards) i outCard H).
      destruct inCards as [|c inCards]; simpl; [|reflexivity].
      destruct i; reflexivity.
Qed.

(** C6: an output card whose input card has no cloze opener, or has no input
    card at all, is returned as it is. *)
Theorem cap_passthrough
  (outText inText delimiter : jstring) (i : nat) (outCard : jstring) :
  let d := delimiter_or_default delimiter in
  nth_error (split d outText) i = Some outCard ->
  opener_indices (nth i (split d inText) []) = []
  \/ List.length (split d inText) <= i ->
  capClozesToInput outText inText delimiter
  = join d (cap_cards (split d inText) (split d outText))
  /\ nth_error (cap_cards (split d inText) (split d outText)) i
     = Some outCard.
Proof.
  intros d Hout Hin. split; [reflexivity|].
  rewrite (cap_cards_nth _ _ _ _ Hout). f_equal.
  assert (He : opener_indices (nth i (split d inText) []) = []).
  { destruct Hin as [He|Hl]; [exact He|].
    rewrite nth_overflow by exact Hl. reflexivity. }
  unfold capCard. rewrite He. reflexivity.
Qed.

Lemma cap_passthrough_witness :
  capClozesToInput (lit "{{c1::Plasmodium vivax}}")
    (lit "Plasmodium vivax causes tertian fever") DEFAULT_DELIMITER
  = join DEFAULT_DELIMITER
      (cap_cards
         (split DEFAULT_DELIMITER (lit "Plasmodium vivax causes tertian fever"))
         (split DEFAULT_DELIMITER (lit "{{c1::Plasmodium vivax}}")))
  /\ nth_error
       (cap_cards
          (split DEFAULT_DELIMITER
             (lit "Plasmodium vivax causes tertian fever"))
          (split DEFAULT_DELIMITER (lit "{{c1::Plasmodium vivax}}"))) 0
     = Some (lit "{{c1::Plasmodium vivax}}").
Proof.
  apply (cap_passthrough (lit "{{c1::Plasmodium vivax}}")
           (lit "Plasmodium vivax causes tertian fever")
           DEFAULT_DELIMITER 0 (lit "{{c1::Plasmodium vivax}}")).
  - reflexivity.
  - left. reflexivity.
Defined.

(** ** Splitting and joining *)

(** C7, as stated, fails: with the delimiter [x] followed by a line feed,
    the parts [ax] and [b] are non-empty, trimmed and free of the delimiter,
    and come back as [a] and [b]. *)
Lemma split_join_counterexample :
  Forall (plain_part [120; 10]%N) [lit "ax"; lit "b"]
  /\ splitByDelimiter (joinByDelimiter [lit "ax"; lit "b"] [120; 10]%N)
       [120; 10]%N
     <> [lit "ax"; lit "b"].
Proof.
  split.
  - repeat constructor; try discriminate; apply not_contains; reflexivity.
  - vm_compute. discriminate.
Qed.

(** C7, amended: the round trip holds for every delimiter without a line
    feed in it and every list of parts each of which is non-empty, equal to
    its own trim and free of the delimiter. *)
Theorem split_join_roundtrip (parts : list jstring) (delimiter : jstring) :
  ~ In LF delimiter ->
  Forall (plain_part delimiter) parts ->
  splitByDelimiter (joinByDelimiter parts delimiter) delimiter = parts.
Proof.
  intros Hlf Hall. unfold splitByDelimiter, joinByDelimiter.
  destruct parts as [|p ps].
  - reflexivity.
  - assert (Hd : delimiter <> []).
    { intros ->. inversion Hall as [|? ? (_ & _ & Ho) _]; subst.
      apply Ho. exists [], p. reflexivity. }
    assert (He : delimiter_or_default delimiter = delimiter)
      by (destruct delimiter; [contradiction | reflexivity]).
    rewrite He.
    apply (roundtrip_padded delimiter Hd Hlf (p :: ps) []);
      [discriminate | constructor | exact Hall].
Qed.

Lemma split_join_roundtrip_witness :
  splitByDelimiter
    (joinByDelimiter [lit "card one"; lit "card two"] DEFAULT_DELIMITER)
    DEFAULT_DELIMITER
  = [lit "card one"; lit "card two"].
Proof.
  apply (split_join_roundtrip [lit "card one"; lit "card two"]
           DEFAULT_DELIMITER).
  - vm_compute. intros H. repeat destruct H as [H|H]; try discriminate.
    exact H.
  - repeat constructor; try discriminate; apply not_contains; reflexivity.
Defined.





(** ** The word limit *)

(** C9, as stated, fails: the text [{{ c1 ::a {{c2::one two three four five}}]
    is one span with stray whitespace, and the word limit rewrites the
    exact-form span that its inner text holds. *)
Lemma limit_skips_stray_spans_counterexample :
  (exists m,
      loose_span (lit "{{ c1 ::a {{c2::one two three four five}}")
      = Some (m, [])
      /\ sm_full m = lit "{{ c1 ::a {{c2::one two three four five}}")
  /\ enforceClozeWordLimit
       (lit "{{ c1 ::a {{c2::one two three four five}}") 3
     <> lit "{{ c1 ::a {{c2::one two three four five}}".
Proof.
  split.
  - eexists. split; vm_compute; reflexivity.
  - vm_compute. discriminate.
Qed.

(** C9, amended: an opener with whitespace after [{{] or around the index is
    no match of the exact-form opener, while the opener pattern of the
    renumbering and capping passes matches it.  A span written with such an
    opener is left unchanged by the word limit, whatever the number of words in
    its inner text, provided no exact-form opener [{{c<digits>::] starts inside
    its inner text or in the text before it; the pass then goes on after the
    span. *)
Theorem limit_skips_stray_spans
  (pre w1 n w2 content post : jstring) (maxWords : nat) :
  let opener := opener_text w1 n w2 in
  let span := opener ++ content ++ lit "}}" in
  spaces w1 -> spaces w2 -> w1 ++ w2 <> [] -> digits n ->
  no_strict_opener pre -> no_strict_opener content ->
  strict_opener (span ++ post) = None
  /\ loose_opener (span ++ post)
     = Some ((opener, n), content ++ lit "}}" ++ post)
  /\ enforceClozeWordLimit (pre ++ span ++ post) maxWords
     = pre ++ span ++ enforceClozeWordLimit post maxWords.
Proof.
  intros opener span H1 H2 Hs Hn Hpre Hc. unfold span, opener.
  rewrite <- !app_assoc. split; [|split].
  - apply strict_rejects_stray; assumption.
  - apply loose_opener_text; assumption.
  - pose proof (limit_passes_stray_span pre w1 n w2 content post
                  H1 H2 Hs Hn Hpre Hc maxWords) as H.
    rewrite <- !app_assoc in H. exact H.
Qed.

Lemma limit_skips_stray_spans_witness :
  enforceClozeWordLimit (lit "{{ c1 ::one two three four five}}") 3
  = lit "{{ c1 ::one two three four five}}".
Proof.
  refine (proj2 (proj2 (limit_skips_stray_spans [] (lit " ") (lit "1")
                          (lit " ") (lit "one two three four five") [] 3
                          _ _ _ _ _ _))).
  - reflexivity.
  - reflexivity.
  - discriminate.
  - split; [discriminate | reflexivity].
  - apply opener_free_spec. reflexivity.
  - apply opener_free_spec. reflexivity.
Defined.

(** C1, as stated, fails: the content [! ! ! !] has four tokens and no word
    character, so [pickAnchorWords] returns it as it is and the span stays. *)
Lemma word_limit_counterexample :
  ~ (forall pre v m rest,
        enforceClozeWordLimit (lit "{{c1::! ! ! !}}") 3 = pre ++ v ->
        strict_span v = Some (m, rest) ->
        List.length (content_words (sm_inner m)) <= 3).
Proof.
  intros H.
  assert (Hs : strict_span (lit "{{c1::! ! ! !}}")
               = Some (SpanMatch (lit "{{c1::! ! ! !}}") (lit "1")
                         (lit "! ! ! !"), []))
    by (vm_compute; reflexivity).
  assert (He : enforceClozeWordLimit (lit "{{c1::! ! ! !}}") 3
               = [] ++ lit "{{c1::! ! ! !}}") by (vm_compute; reflexivity).
  specialize (H _ _ _ _ He Hs). vm_compute in H. lia.
Qed.

(** C1, amended: in the text returned by [enforceClozeWordLimit(t, 3)],
    every span of the exact form [{{c<digits>::content}}], at whatever
    position it starts, has a content of at most 3 whitespace-delimited
    tokens, or a content without any word character. *)
Theorem word_limit_holds
  (text pre v : jstring) (m : span_match) (rest : jstring) :
  enforceClozeWordLimit text 3 = pre ++ v ->
  strict_span v = Some (m, rest) ->
  List.length (content_words (sm_inner m)) <= 3
  \/ forallb not_word (sm_inner m) = true.
Proof.
  rewrite enforce_is_replace. intros He Hs.
  assert (H2 : 2 <= 3) by lia.
  exact (limit_positions 3 H2 text pre v m rest He Hs).
Qed.

Lemma word_limit_holds_witness :
  List.length (content_words (lit "a b c")) <= 3
  \/ forallb not_word (lit "a b c") = true.
Proof.
  apply (word_limit_holds (lit "x {{c2::a, b. c d}} y") (lit "x ")
           (lit "{{c2::a b c}} y")
           (SpanMatch (lit "{{c2::a b c}}") (lit "2") (lit "a b c"))
           (lit " y")).
  - vm_compute. reflexivity.
  - vm_compute. reflexivity.
Defined.

(** ** The anchor *)

Definition PHRASE : jstring := lit "Schuffner's dots are seen".

(** C8, as stated, fails: a content that holds the phrase after the word
    [hypnozoite] gets the anchor [hypnozoite]. *)
Lemma paired_anchor_counterexample :
  occurs_in PHRASE (lit "hypnozoite; Schuffner's dots are seen")
  /\ pickAnchorWords (lit "hypnozoite; Schuffner's dots are seen") 3
     <> lit "Schuffner's dots".
Proof.
  split.
  - exists (lit "hypnozoite; "), []. reflexivity.
  - vm_compute. discriminate.
Qed.

(** C8, amended: for a content that holds [Schuffner's dots are seen] not
    preceded by a word character, and in which [hypnozoite] does not occur as
    a word, the anchor is [Schuffner's dots], whatever the limit; the content
    [Schuffner's dots are seen] itself is one. *)
Theorem paired_anchor (pre post : jstring) (maxWords : nat) :
  search (whole (chars "hypnozoite")) (trim (pre ++ PHRASE ++ post)) = None ->
  is_word_at (prev_of None pre) = false ->
  pickAnchorWords (pre ++ PHRASE ++ post) maxWords = lit "Schuffner's dots".
Proof.
  intros Hh Hp. unfold pickAnchorWords.
  rewrite trim_around in * by (try discriminate; reflexivity).
  set (pre' := drop_while is_space pre) in *.
  set (post' := rev (drop_while is_space (rev post))) in *.
  assert (Hp' : is_word_at (prev_of None pre') = false)
    by (apply prev_of_drop_while, Hp).
  unfold patterns. cbn [first_keyword]. rewrite Hh.
  fold re_Schuffners.
  assert (Hm : match_atoms re_Schuffners (prev_of None pre') (PHRASE ++ post')
               = Some (lit "Schuffner's")).
  { unfold re_Schuffners, whole. cbn [match_atoms].
    unfold at_boundary at 1. rewrite Hp'. reflexivity. }
  destruct (search_from_complete _ _ _ _ _ Hm) as (w & Hw).
  fold (search re_Schuffners (pre' ++ PHRASE ++ post')) in Hw.
  rewrite Hw. rewrite (Schuffners_test _ _ Hw).
  assert (Hd : test re_dots (pre' ++ PHRASE ++ post') = true).
  { assert (Hmd : match_atoms re_dots
                    (prev_of None (pre' ++ lit "Schuffner's "))
                    (lit "dots are seen" ++ post') = Some (lit "dots"))
      by reflexivity.
    destruct (search_from_complete _ _ _ _ _ Hmd) as (wd & Hwd).
    unfold test, search.
    replace (pre' ++ PHRASE ++ post')
      with ((pre' ++ lit "Schuffner's ") ++ lit "dots are seen" ++ post')
      by (unfold PHRASE; list_eq).
    rewrite Hwd. reflexivity. }
  rewrite Hd. reflexivity.
Qed.

Lemma paired_anchor_witness :
  pickAnchorWords (lit "Schuffner's dots are seen") 3
  = lit "Schuffner's dots".
Proof.
  apply (paired_anchor [] [] 3).
  - vm_compute. reflexivity.
  - reflexivity.
Defined.



(** * Further properties of the passes *)

(** ** Texts the passes leave alone *)

(** A matcher that returns what follows the match. *)
Definition consumes {A : Type} (m : jstring -> option (A * jstring)) : Prop :=
  forall v a r, m v = Some (a, r) -> exists x, v = x ++ r.

Lemma strict_span_consumes : consumes strict_span.
Proof.
  intros v m r H. destruct (strict_span_spec _ _ _ H) as (_ & -> & _).
  eauto.
Qed.

Lemma loose_span_consumes : consumes loose_span.
Proof.
  intros v m r H.
  destruct (loose_span_spec _ _ _ H) as (_ & _ & _ & -> & _). eauto.
Qed.

(** Every match the walk records is a match at a position of the text. *)
Lemma hits_positions {A : Type} (m : jstring -> option (A * jstring))
  (Hs : shrinks m) (Hc : consumes m) (s : jstring) (a : A) :
  In a (matchAll m s) ->
  exists pre v r, s = pre ++ v /\ m v = Some (a, r).
Proof.
  unfold matchAll. pattern s. apply (scan_ind _ _ Hs); clear s.
  - intros [].
  - intros c s Hn IH. rewrite scan_lit by exact Hn. intros Hin.
    destruct (IH Hin) as (pre & v & r & -> & Hv).
    exists (c :: pre), v, r. auto.
  - intros s a' r Hm IH. rewrite (scan_hit _ _ Hs _ _ _ Hm).
    intros [<-|Hin].
    + exists [], s, r. auto.
    + destruct (IH Hin) as (pre & v & r' & -> & Hv).
      destruct (Hc _ _ _ Hm) as (x & ->).
      exists (x ++ pre), v, r'. rewrite app_assoc. auto.
Qed.

Lemma enforce_within_limit (text : jstring) (maxWords : nat) :
  (forall m, In m (matchAll strict_span text) ->
             List.length (content_words (sm_inner m)) <= maxWords) ->
  enforceClozeWordLimit text maxWords = text.
Proof.
  rewrite enforce_is_replace. unfold replace, matchAll. pattern text.
  apply (scan_ind _ _ strict_span_shrinks); clear text.
  - reflexivity.
  - intros c s Hm IH H. rewrite scan_lit in * by exact Hm.
    cbn [render]. rewrite IH; [reflexivity | exact H].
  - intros s m r Hm IH H.
    rewrite (scan_hit _ _ strict_span_shrinks _ _ _ Hm) in *.
    cbn [render]. rewrite IH by (intros m' Hin; apply H; right; exact Hin).
    unfold limit_span.
    destruct (Nat.leb_spec (List.length (content_words (sm_inner m)))
                maxWords) as [_|Hgt].
    + destruct (strict_span_spec _ _ _ Hm) as (_ & -> & _). reflexivity.
    + specialize (H m (or_introl eq_refl)). lia.
Qed.

Lemma cap_all_allowed (allowed : list jstring) (card : jstring) :
  (forall m, In m (matchAll loose_span card) ->
             allowed_has (sm_n m) allowed = true) ->
  replace loose_span (cap_span allowed) card = card.
Proof.
  unfold replace, matchAll. pattern card.
  apply (scan_ind _ _ loose_span_shrinks); clear card.
  - reflexivity.
  - intros c s Hm IH H. rewrite scan_lit in * by exact Hm.
    cbn [render]. rewrite IH; [reflexivity | exact H].
  - intros s m r Hm IH H.
    rewrite (scan_hit _ _ loose_span_shrinks _ _ _ Hm) in *.
    cbn [render]. rewrite IH by (intros m' Hin; apply H; right; exact Hin).
    unfold cap_span. rewrite (H m (or_introl eq_refl)).
    destruct (loose_span_spec _ _ _ Hm) as (_ & _ & _ & -> & _).
    reflexivity.
Qed.

(** Inside an opener no opener starts. *)
Lemma inside_opener (w1 n w2 t pre v : jstring) :
  spaces w1 -> spaces w2 -> digits n ->
  opener_text w1 n w2 = pre ++ v -> pre <> [] -> v <> [] ->
  loose_opener (v ++ t) = None.
Proof.
  intros H1 H2 Hn Heq Hpre Hv.
  assert (Hb : no_brace (w1 ++ lit "c" ++ n ++ w2 ++ lit "::")).
  { repeat apply no_brace_app;
      auto using no_brace_spaces, no_brace_digits;
      intros Hin; simpl in Hin;
      repeat destruct Hin as [Hin|Hin]; try discriminate; try contradiction. }
  unfold opener_text in Heq.
  change (lit "{{" ++ w1 ++ lit "c" ++ n ++ w2 ++ lit "::")
    with (LBRACE :: LBRACE :: (w1 ++ lit "c" ++ n ++ w2 ++ lit "::")) in Heq.
  set (x := w1 ++ lit "c" ++ n ++ w2 ++ lit "::") in *.
  assert (Hx : exists x0 x', x = x0 :: x').
  { unfold x. destruct w1; simpl; eauto. }
  destruct pre as [|p0 pre]; [contradiction|].
  inversion Heq as [[Hp0 Hrest]]. clear Heq.
  destruct pre as [|p1 pre].
  - cbn [app] in Hrest. subst v.
    destruct Hx as (x0 & x' & Hx). rewrite Hx. cbn [app].
    apply loose_opener_head. right.
    apply (no_brace_suffix_head _ [] x' x0 Hb Hx).
  - inversion Hrest as [[Hp1 Hx']].
    destruct v as [|c v]; [contradiction|]. cbn [app].
    assert (Hc : c <> LBRACE)
      by apply (no_brace_suffix_head _ pre v c Hb Hx').
    destruct (v ++ t) as [|b u].
    + apply loose_opener_short. simpl. lia.
    + apply loose_opener_head. auto.
Qed.

(** The walk finds every opener of a card. *)
Lemma opener_found (card : jstring) :
  forall pre v o n r,
    card = pre ++ v -> loose_opener v = Some ((o, n), r) ->
    In (o, n) (matchAll loose_opener card).
Proof.
  unfold matchAll. pattern card.
  apply (scan_ind _ _ loose_opener_shrinks); clear card.
  - intros pre v o n r Heq Hv. symmetry in Heq.
    apply app_eq_nil in Heq as [_ ->]. discriminate.
  - intros c s Hm IH [|p pre] v o n r Heq Hv; simpl in Heq.
    + subst v. congruence.
    + inversion Heq; subst. rewrite scan_lit by exact Hm.
      apply (IH pre v o n r eq_refl Hv).
  - intros s [o0 n0] r0 Hm IH pre v o n r Heq Hv.
    rewrite (scan_hit _ _ loose_opener_shrinks _ _ _ Hm). cbn [hits].
    destruct (loose_opener_spec _ _ _ _ Hm) as (w1 & w2 & Ho & Hs & H1 & H2 & Hn).
    rewrite Hs in Heq.
    destruct (suffix_cases _ _ _ _ Heq)
      as [(pre' & Hy)|(pre' & v' & Ha & Hne & ->)].
    + right. apply (IH pre' v o n r Hy Hv).
    + destruct pre' as [|p0 pre'].
      * cbn [app] in Ha. subst v'. rewrite <- Hs, Hm in Hv.
        inversion Hv; subst. left. reflexivity.
      * rewrite Ho in Ha.
        rewrite (inside_opener w1 n0 w2 r0 (p0 :: pre') v' H1 H2 Hn Ha)
          in Hv by (auto; discriminate).
        discriminate.
Qed.

Lemma span_index_is_opener_index (card : jstring) (m : span_match) :
  In m (matchAll loose_span card) ->
  allowed_has (sm_n m) (opener_indices card) = true.
Proof.
  intros Hin.
  destruct (hits_positions _ loose_span_shrinks loose_span_consumes _ _ Hin)
    as (pre & v & r & Hc & Hv).
  unfold loose_span in Hv.
  destruct (loose_opener v) as [[[o n] s1]|] eqn:Ho; [|discriminate].
  destruct (until_close s1) as [[inner rest]|]; [|discriminate].
  inversion Hv; subst m r. simpl.
  unfold allowed_has. apply existsb_exists. exists n.
  split; [|apply jeqb_refl].
  unfold opener_indices. apply in_map_iff. exists (o, n).
  split; [reflexivity|]. exact (opener_found _ _ _ _ _ _ Hc Ho).
Qed.

Lemma capCard_self (card : jstring) : capCard card card = card.
Proof.
  unfold capCard. destruct (opener_indices card) as [|a l] eqn:Ha;
    [reflexivity|].
  apply cap_all_allowed. intros m Hin. rewrite <- Ha.
  apply span_index_is_opener_index, Hin.
Qed.

Lemma cap_cards_self (cards : list jstring) : cap_cards cards cards = cards.
Proof.
  induction cards as [|c cards IH]; [reflexivity|].
  simpl. rewrite capCard_self, IH. reflexivity.
Qed.

(** ** The post-processing of [/api/refine]

    The handler computes [d = String(delimiter || "===CARD===")] and runs the
    three passes on the model's output, in this order. *)
Definition refine_fixed (out rawText delimiter : jstring) : jstring :=
  let d := delimiter_or_default delimiter in
  let fixed := capClozesToInput out rawText d in
  let fixed := enforceClozeWordLimit fixed 3 in
  renumberClozesPerCard fixed d.

Lemma delimiter_or_default_idem (d : jstring) :
  delimiter_or_default (delimiter_or_default d) = delimiter_or_default d.
Proof. destruct d; reflexivity. Qed.

Lemma in_join (d : jstring) (cards : list jstring) (card : jstring)
  (c : char) :
  In card cards -> In c card -> In c (join d cards).
Proof.
  induction cards as [|p ps IH]; intros Hcard Hc; [contradiction|].
  destruct ps as [|q ps].
  - destruct Hcard as [->|[]]. exact Hc.
  - rewrite join_cons by discriminate.
    destruct Hcard as [->|Hcard].
    + apply in_or_app. left. exact Hc.
    + apply in_or_app. right. apply in_or_app. right. apply IH; assumption.
Qed.

(** The cards of a text hold only characters of the text. *)
Lemma split_chars (d s card : jstring) (c : char) :
  d <> [] -> In card (split d s) -> In c card -> In c s.
Proof.
  intros Hd Hcard Hc. rewrite <- (join_split d s Hd).
  exact (in_join d _ card c Hcard Hc).
Qed.

Lemma no_brace_card (d s card : jstring) :
  d <> [] -> no_brace s -> In card (split d s) -> no_brace card.
Proof.
  intros Hd Hs Hcard Hin. apply Hs.
  exact (split_chars d s card LBRACE Hd Hcard Hin).
Qed.

Lemma no_brace_loose_opener (s : jstring) :
  no_brace s -> scan loose_opener s = map Lit s.
Proof.
  intros Hs. apply scan_no_match. intros pre v ->.
  destruct v as [|a [|b v]]; try (apply loose_opener_short; simpl; lia).
  apply loose_opener_head. left. intros ->. apply Hs.
  apply in_or_app. right. left. reflexivity.
Qed.

Lemma no_brace_loose_span (s : jstring) :
  no_brace s -> scan loose_span s = map Lit s.
Proof.
  intros Hs. rewrite <- (app_nil_r s) at 1.
  rewrite scan_skip_no_brace by exact Hs. apply app_nil_r.
Qed.

Lemma no_brace_strict_span (s : jstring) :
  no_brace s -> scan strict_span s = map Lit s.
Proof.
  intros Hs. apply scan_no_match. intros pre v ->.
  destruct v as [|c v]; [reflexivity|].
  apply strict_span_head. intros ->. apply Hs.
  apply in_or_app. right. left. reflexivity.
Qed.

Lemma opener_indices_no_brace (s : jstring) :
  no_brace s -> opener_indices s = [].
Proof.
  intros Hs. unfold opener_indices, matchAll.
  rewrite no_brace_loose_opener by exact Hs. rewrite hits_lits. reflexivity.
Qed.

Lemma renumber_pieces_lits (s : jstring) (mp : index_map) (next : nat) :
  renumber_pieces (map Lit s) mp next = s.
Proof. induction s as [|c s IH]; simpl; [|rewrite IH]; reflexivity. Qed.

Lemma renumberCard_no_brace (card : jstring) :
  no_brace card -> renumberCard card = card.
Proof.
  intros H. unfold renumberCard. rewrite no_brace_loose_opener by exact H.
  apply renumber_pieces_lits.
Qed.

Lemma capCard_no_brace (inCard outCard : jstring) :
  no_brace outCard -> capCard inCard outCard = outCard.
Proof.
  intros H. unfold capCard. destruct (opener_indices inCard); [reflexivity|].
  unfold replace. rewrite no_brace_loose_span by exact H.
  apply render_lits.
Qed.

Lemma cap_cards_same (inCards outCards : list jstring) :
  (forall i outCard,
      nth_error outCards i = Some outCard ->
      capCard (nth i inCards []) outCard = outCard) ->
  cap_cards inCards outCards = outCards.
Proof.
  revert inCards. induction outCards as [|o outCards IH]; intros inCards H;
    [reflexivity|].
  simpl. f_equal.
  - specialize (H 0 o eq_refl). destruct inCards; exact H.
  - apply IH. intros i outCard Hi.
    specialize (H (S i) outCard Hi).
    destruct inCards as [|c inCards]; simpl in *; [|exact H].
    destruct i; exact H.
Qed.

Lemma map_same {A : Type} (f : A -> A) (l : list A) :
  (forall x, In x l -> f x = x) -> map f l = l.
Proof.
  induction l as [|x l IH]; intros H; [reflexivity|].
  simpl. rewrite H by (left; reflexivity).
  rewrite IH; [reflexivity|]. intros y Hy. apply H. right. exact Hy.
Qed.

Lemma cap_no_brace (out inText delimiter : jstring) :
  no_brace out -> capClozesToInput out inText delimiter = out.
Proof.
  intros H. unfold capClozesToInput.
  set (d := delimiter_or_default delimiter).
  assert (Hd : d <> []) by apply delimiter_or_default_nonempty.
  rewrite cap_cards_same; [apply join_split, Hd|].
  intros i outCard Hi. apply capCard_no_brace.
  apply (no_brace_card d out outCard Hd H). eapply nth_error_In, Hi.
Qed.

Lemma enforce_no_brace (text : jstring) (maxWords : nat) :
  no_brace text -> enforceClozeWordLimit text maxWords = text.
Proof.
  intros H. rewrite enforce_is_replace. unfold replace.
  rewrite no_brace_strict_span by exact H. apply render_lits.
Qed.

Lemma renumber_no_brace (text delimiter : jstring) :
  no_brace text -> renumberClozesPerCard text delimiter = text.
Proof.
  intros H. unfold renumberClozesPerCard.
  set (d := delimiter_or_default delimiter).
  assert (Hd : d <> []) by apply delimiter_or_default_nonempty.
  rewrite map_same; [apply join_split, Hd|].
  intros card Hin. apply renumberCard_no_brace.
  exact (no_brace_card d text card Hd H Hin).
Qed.

(** When the user's text has no cloze, capping changes nothing. *)
Lemma cap_fresh_input (out inText delimiter : jstring) :
  no_brace inText -> capClozesToInput out inText delimiter = out.
Proof.
  intros H. unfold capClozesToInput.
  set (d := delimiter_or_default delimiter).
  assert (Hd : d <> []) by apply delimiter_or_default_nonempty.
  rewrite cap_cards_same; [apply join_split, Hd|].
  intros i outCard Hi. unfold capCard.
  rewrite opener_indices_no_brace; [reflexivity|].
  destruct (nth_in_or_default i (split d inText) []) as [Hin | Hdef];
    [|rewrite Hdef; intros []].
  exact (no_brace_card d inText _ Hd H Hin).
Qed.

(** A card that is one span with a plain inner text is renumbered to the
    exact form with index 1. *)
Lemma renumberCard_single_span (w1 n w2 content : jstring) :
  spaces w1 -> spaces w2 -> digits n -> no_brace content ->
  renumberCard (opener_text w1 n w2 ++ content ++ lit "}}")
  = lit "{{c1::" ++ content ++ lit "}}".
Proof.
  intros H1 H2 Hn Hc. unfold renumberCard.
  rewrite (scan_hit _ _ loose_opener_shrinks _ _ _
             (loose_opener_text w1 n w2 _ H1 H2 Hn)).
  rewrite no_brace_loose_opener.
  - rewrite renumber_pieces_hit. unfold remember, map_has. cbn [map_get].
    cbn [fst snd]. unfold map_set. cbn [app map_get].
    rewrite jeqb_refl, renumber_pieces_lits. reflexivity.
  - apply no_brace_app; [exact Hc|].
    intros Hin. simpl in Hin.
    repeat destruct Hin as [Hin|Hin]; try discriminate; contradiction.
Qed.

Lemma no_brace_no_strict_opener (x : jstring) :
  no_brace x -> no_strict_opener x.
Proof.
  intros Hx a v ->.
  destruct v as [|c [|b v]]; try (apply strict_opener_short; simpl; lia).
  apply strict_opener_head. left. intros ->. apply Hx.
  apply in_or_app. right. left. reflexivity.
Qed.

(** ** Trimming twice *)

Lemma drop_while_idem (f : char -> bool) (x : jstring) :
  drop_while f (drop_while f x) = drop_while f x.
Proof.
  pose proof (drop_while_head f x) as H.
  destruct (drop_while f x) as [|c q]; [reflexivity|].
  apply drop_while_stop, H.
Qed.

Lemma trim_idem (x : jstring) : trim (trim x) = trim x.
Proof.
  unfold trim.
  set (y := drop_while is_space x).
  set (q := drop_while is_space (rev y)).
  assert (H1 : drop_while is_space (rev q) = rev q).
  { destruct (drop_while_split is_space (rev y)) as (a & Hy & _).
    fold q in Hy. apply (f_equal (@rev char)) in Hy.
    rewrite rev_involutive, rev_app_distr in Hy.
    pose proof (drop_while_head is_space x) as Hh. fold y in Hh.
    destruct (rev q) as [|c u] eqn:Hq; [reflexivity|].
    rewrite Hy in Hh. simpl in Hh. apply drop_while_stop, Hh. }
  rewrite H1, rev_involutive. unfold q. rewrite drop_while_idem.
  reflexivity.
Qed.

(** ** The chunks of [splitByDelimiter] *)

Lemma ends_free_no_occurrence (d t x : jstring) :
  d <> [] -> ends_free d t x -> ~ occurs_in d x.
Proof.
  intros Hd Hx (a & b & Hab).
  assert (Hv : d ++ b <> []) by (destruct d; [contradiction | discriminate]).
  specialize (Hx a (d ++ b) Hab Hv).
  rewrite <- app_assoc, strip_prefix_app in Hx. discriminate.
Qed.

Lemma good_cards_free (d : jstring) (l : list jstring) :
  d <> [] -> good_cards d l ->
  forall card, In card l -> ~ occurs_in d card.
Proof.
  intros Hd. induction l as [|c l IH]; [contradiction|].
  destruct l as [|c' l].
  - intros H card [<-|[]]. exact (ends_free_no_occurrence d [] c Hd H).
  - intros [H1 H2] card [<-|Hin].
    + exact (ends_free_no_occurrence d d c Hd H1).
    + exact (IH H2 card Hin).
Qed.

Lemma splitByDelimiter_plain (raw delimiter : jstring) :
  Forall (plain_part (delimiter_or_default delimiter))
         (splitByDelimiter raw delimiter).
Proof.
  unfold splitByDelimiter. set (d := delimiter_or_default delimiter).
  assert (Hd : d <> []) by apply delimiter_or_default_nonempty.
  apply Forall_forall. intros chunk Hin.
  apply filter_In in Hin as [Hin Hne].
  apply in_map_iff in Hin as (card & <- & Hcard).
  split; [|split].
  - intros He. rewrite He in Hne. discriminate.
  - apply trim_idem.
  - intros Ho. apply occurs_in_trim in Ho.
    exact (good_cards_free d _ Hd (split_good d raw Hd) card Hcard Ho).
Qed.

Lemma default_one_line (delimiter : jstring) :
  ~ In LF delimiter -> ~ In LF (delimiter_or_default delimiter).
Proof.
  destruct delimiter; [|auto].
  intros _ Hin. simpl in Hin.
  repeat destruct Hin as [Hin|Hin]; try discriminate; contradiction.
Qed.

Lemma trim_spaces (w : jstring) : spaces w -> trim w = [].
Proof.
  intros Hw. rewrite <- (app_nil_r w).
  change (w ++ []) with (w ++ [] ++ []).
  rewrite trim_pad by (auto; reflexivity). reflexivity.
Qed.

(** ** The openers of a renumbered card *)

Lemma renumber_hits_exact (ps : list (piece (jstring * jstring))) :
  forall mp next o n,
    values_digits mp ->
    In (o, n) (hits (renumber_hits ps mp next)) ->
    o = lit "{{c" ++ n ++ lit "::" /\ digits n.
Proof.
  induction ps as [|[c|[t old]] ps IH]; intros mp next o n Hv Hin.
  - destruct Hin.
  - simpl in Hin. exact (IH _ _ _ _ Hv Hin).
  - rewrite renumber_hits_hit in Hin.
    destruct (remember_get old mp next) as (v & Hg & Hd).
    destruct (Hd Hv) as [Hdv Hv']. rewrite Hg in Hin.
    destruct Hin as [Heq|Hin].
    + inversion Heq; subst. auto.
    + exact (IH _ _ _ _ Hv' Hin).
Qed.

(** ** The validator of the stand-alone server

    [findTooLongClozes] of [server.js] looks for spans with the pattern
    [\{\{c\d+::(.*?)\}\}], in which [.] is any character but a line
    terminator: a span is seen only when its [}}] is on the line of its
    opener. *)

Definition is_line_terminator (c : char) : bool :=
  (N.eqb c 10 || N.eqb c 13 || N.eqb c 8232 || N.eqb c 8233)%bool.

(** [(.*?)\}\}] *)
Fixpoint until_close_line (s : jstring) : option (jstring * jstring) :=
  match strip_prefix (lit "}}") s with
  | Some rest => Some ([], rest)
  | None =>
      match s with
      | [] => None
      | c :: s' =>
          if is_line_terminator c then None
          else
            match until_close_line s' with
            | Some (inner, rest) => Some (c :: inner, rest)
            | None => None
            end
      end
  end.

(** [\{\{c\d+::(.*?)\}\}] *)
Definition line_span (s : jstring) : option (span_match * jstring) :=
  match strict_opener s with
  | Some (n, s1) =>
      match until_close_line s1 with
      | Some (inner, rest) =>
          Some (SpanMatch (lit "{{c" ++ n ++ lit "::" ++ inner ++ lit "}}")
                          n inner, rest)
      | None => None
      end
  | None => None
  end.

(** An entry of the list [findTooLongClozes] returns. *)
Record too_long : Type := TooLong {
  inside : jstring;
  words : nat
}.

Definition too_long_entry (maxWords : nat) (m : span_match) : list too_long :=
  let inside := trim (sm_inner m) in
  let words := filter nonempty (split_spaces inside) in
  if Nat.ltb maxWords (List.length words)
  then [TooLong inside (List.length words)]
  else [].

Definition findTooLongClozes (text : jstring) (maxWords : nat)
  : list too_long :=
  flat_map (too_long_entry maxWords) (matchAll line_span text).

Definition one_line (s : jstring) : Prop :=
  forallb (fun c => negb (is_line_terminator c)) s = true.

Lemma until_close_line_eq (s : jstring) :
  until_close_line s =
  match strip_prefix (lit "}}") s with
  | Some rest => Some ([], rest)
  | None =>
      match s with
      | [] => None
      | c :: s' =>
          if is_line_terminator c then None
          else
            match until_close_line s' with
            | Some (inner, rest) => Some (c :: inner, rest)
            | None => None
            end
      end
  end.
Proof. destruct s; reflexivity. Qed.

(** A span closed on its line is a span of the enforcement pattern. *)
Lemma until_close_line_sub (s inner r : jstring) :
  until_close_line s = Some (inner, r) -> until_close s = Some (inner, r).
Proof.
  revert inner r. induction s as [|c s IH]; intros inner r;
    rewrite until_close_line_eq, until_close_eq;
    destruct (strip_prefix (lit "}}") _) as [r'|]; auto.
  destruct (is_line_terminator c); [discriminate|].
  destruct (until_close_line s) as [[i r'']|]; [|discriminate].
  rewrite (IH i r'' eq_refl). auto.
Qed.

Lemma until_close_one_line (s : jstring) :
  one_line s -> until_close_line s = until_close s.
Proof.
  unfold one_line. induction s as [|c s IH]; intros H;
    rewrite until_close_line_eq, until_close_eq;
    destruct (strip_prefix (lit "}}") _) as [r'|]; auto.
  simpl in H. apply andb_true_iff in H as [Hc Hs].
  apply negb_true_iff in Hc. rewrite Hc, (IH Hs). reflexivity.
Qed.

Lemma line_span_sub (s : jstring) (m : span_match) (r : jstring) :
  line_span s = Some (m, r) -> strict_span s = Some (m, r).
Proof.
  unfold line_span, strict_span.
  destruct (strict_opener s) as [[n s1]|]; [|discriminate].
  destruct (until_close_line s1) as [[inner rest]|] eqn:Hu; [|discriminate].
  rewrite (until_close_line_sub _ _ _ Hu). auto.
Qed.

Lemma line_span_shrinks : shrinks line_span.
Proof.
  intros s m r H. exact (strict_span_shrinks s m r (line_span_sub s m r H)).
Qed.

Lemma line_span_consumes : consumes line_span.
Proof.
  intros s m r H. exact (strict_span_consumes s m r (line_span_sub s m r H)).
Qed.

Lemma one_line_app (a b : jstring) :
  one_line (a ++ b) <-> one_line a /\ one_line b.
Proof. unfold one_line. rewrite forallb_app. apply andb_true_iff. Qed.

Lemma line_span_one_line (s : jstring) :
  one_line s -> line_span s = strict_span s.
Proof.
  intros H. unfold line_span, strict_span.
  destruct (strict_opener s) as [[n s1]|] eqn:Ho; [|reflexivity].
  apply strict_opener_spec in Ho as [-> _].
  rewrite !app_assoc in H. apply one_line_app in H as [_ H].
  rewrite (until_close_one_line s1 H). reflexivity.
Qed.

(** Two patterns that agree at every position of a text are found at the
    same places. *)
Lemma scan_agree {A : Type} (m1 m2 : jstring -> option (A * jstring))
  (H1 : shrinks m1) (Hc : consumes m1) (s : jstring) :
  (forall pre v, s = pre ++ v -> m2 v = m1 v) ->
  (forall s a r, m2 s = Some (a, r) -> List.length r < List.length s) ->
  scan m2 s = scan m1 s.
Proof.
  intros H H2. revert H. pattern s. apply (scan_ind _ _ H1); clear s.
  - reflexivity.
  - intros c s Hm IH H.
    rewrite (scan_lit _ m1 c s Hm).
    rewrite (scan_lit _ m2 c s)
      by (rewrite (H [] (c :: s) eq_refl); exact Hm).
    f_equal. apply IH. intros pre v ->. apply (H (c :: pre)). reflexivity.
  - intros s a r Hm IH H.
    rewrite (scan_hit _ m1 H1 s a r Hm).
    rewrite (scan_hit _ m2 H2 s a r)
      by (rewrite (H [] s eq_refl); exact Hm).
    f_equal. apply IH. intros pre v ->.
    destruct (Hc _ _ _ Hm) as (x & ->).
    apply (H (x ++ pre)). rewrite app_assoc. reflexivity.
Qed.

Lemma line_scan_one_line (s : jstring) :
  one_line s -> scan line_span s = scan strict_span s.
Proof.
  intros H.
  apply (scan_agree strict_span line_span
           strict_span_shrinks strict_span_consumes).
  - intros pre v ->. apply one_line_app in H as [_ H].
    exact (line_span_one_line v H).
  - exact line_span_shrinks.
Qed.

Lemma too_long_entry_nil (maxWords : nat) (m : span_match) :
  too_long_entry maxWords m = [] ->
  List.length (content_words (sm_inner m)) <= maxWords.
Proof.
  unfold too_long_entry, content_words.
  destruct (Nat.ltb_spec maxWords
              (List.length (filter nonempty (split_spaces (trim (sm_inner m))))))
    as [Hlt|Hge]; [discriminate | intros _; exact Hge].
Qed.

Lemma flat_map_nil {A B : Type} (f : A -> list B) (l : list A) :
  flat_map f l = [] -> forall x, In x l -> f x = [].
Proof.
  induction l as [|a l IH]; simpl; intros H x; [contradiction|].
  apply app_eq_nil in H as [Ha Hl].
  intros [<-|Hin]; [exact Ha | exact (IH Hl x Hin)].
Qed.

Lemma wordless_trim (x : jstring) :
  forallb not_word x = true -> forallb not_word (trim x) = true.
Proof.
  intros H. destruct (trim_split x) as (w1 & w2 & Hx & _).
  rewrite Hx, !forallb_app in H.
  apply andb_true_iff in H as [_ H]. apply andb_true_iff in H as [H _].
  exact H.
Qed.

(** ** The helpers of the page

    [stripCodeFences] and [splitCards] of the client script: the text is
    cleared of the Markdown fence, trimmed and cut at the fixed delimiter. *)

Definition BACKTICK : char := 96%N.
Definition FENCE : jstring := [BACKTICK; BACKTICK; BACKTICK].

(** [replace] with the global pattern of three backticks and the empty
    string as replacement. *)
Definition remove_fences (s : jstring) : jstring :=
  replace (literally FENCE) (fun _ => []) s.

Definition stripCodeFences (s : jstring) : jstring :=
  trim (remove_fences s).

Definition getDelimiter : jstring := lit "===CARD===".

Definition splitCards (text : jstring) : list jstring :=
  let d := getDelimiter in
  filter nonempty (map trim (split d (stripCodeFences text))).

(** The number of backticks a text starts with. *)
Fixpoint ticks (x : jstring) : nat :=
  match x with
  | [] => 0
  | c :: x' => if N.eqb c BACKTICK then S (ticks x') else 0
  end.

Lemma fence_nonempty : FENCE <> [].
Proof. discriminate. Qed.

Lemma strip_tick (c : char) (p s : jstring) :
  strip_prefix (BACKTICK :: p) (c :: s)
  = if N.eqb c BACKTICK then strip_prefix p s else None.
Proof.
  cbn [strip_prefix]. rewrite (N.eqb_sym c BACKTICK).
  destruct (N.eqb BACKTICK c); reflexivity.
Qed.

Lemma fence_ticks (s : jstring) :
  strip_prefix FENCE s = None <-> ticks s < 3.
Proof.
  unfold FENCE.
  destruct s as [|a s]; [simpl; split; [lia | reflexivity]|].
  rewrite strip_tick. cbn [ticks].
  destruct (N.eqb a BACKTICK); [|split; [lia | reflexivity]].
  destruct s as [|b s]; [simpl; split; [lia | reflexivity]|].
  rewrite strip_tick. cbn [ticks].
  destruct (N.eqb b BACKTICK); [|split; [lia | reflexivity]].
  destruct s as [|c s]; [simpl; split; [lia | reflexivity]|].
  rewrite strip_tick. cbn [ticks].
  destruct (N.eqb c BACKTICK); [|split; [lia | reflexivity]].
  cbn [strip_prefix]. split; [discriminate | lia].
Qed.

Lemma fence_found (s r : jstring) :
  strip_prefix FENCE s = Some r -> ticks s = 3 + ticks r.
Proof.
  intros H. apply strip_prefix_spec in H. subst s.
  unfold FENCE. cbn [app ticks]. rewrite N.eqb_refl. reflexivity.
Qed.

Lemma remove_fences_lit (c : char) (s : jstring) :
  strip_prefix FENCE (c :: s) = None ->
  remove_fences (c :: s) = c :: remove_fences s.
Proof.
  intros H. unfold remove_fences, replace.
  rewrite scan_lit by (unfold literally; rewrite H; reflexivity).
  reflexivity.
Qed.

Lemma remove_fences_hit (s r : jstring) :
  strip_prefix FENCE s = Some r -> remove_fences s = remove_fences r.
Proof.
  intros H. unfold remove_fences, replace.
  rewrite (scan_hit _ _ (literally_shrinks FENCE fence_nonempty) s tt r)
    by (unfold literally; rewrite H; reflexivity).
  reflexivity.
Qed.

Lemma remove_fences_ind (P : jstring -> Prop) :
  P [] ->
  (forall c s, strip_prefix FENCE (c :: s) = None -> P s -> P (c :: s)) ->
  (forall s r, strip_prefix FENCE s = Some r -> P r -> P s) ->
  forall s, P s.
Proof.
  intros Hn Hl Hh.
  apply (scan_ind _ _ (literally_shrinks FENCE fence_nonempty)).
  - exact Hn.
  - intros c s Hm. apply Hl. unfold literally in Hm.
    destruct (strip_prefix FENCE (c :: s)); [discriminate | reflexivity].
  - intros s [] r Hm. apply Hh. unfold literally in Hm.
    destruct (strip_prefix FENCE s); [|discriminate].
    inversion Hm; reflexivity.
Qed.

(** Of a run of backticks, what is left is its length modulo three. *)
Lemma ticks_remove_fences (s : jstring) :
  ticks (remove_fences s) = ticks s mod 3.
Proof.
  pattern s. apply remove_fences_ind; clear s.
  - reflexivity.
  - intros c s Hm IH. rewrite (remove_fences_lit c s Hm).
    apply fence_ticks in Hm. rewrite (Nat.mod_small _ _ Hm).
    cbn [ticks] in *. destruct (N.eqb c BACKTICK); [|reflexivity].
    rewrite IH. rewrite Nat.mod_small by lia. reflexivity.
  - intros s r Hm IH. rewrite (remove_fences_hit s r Hm), IH.
    rewrite (fence_found s r Hm).
    replace (3 + ticks r) with (ticks r + 1 * 3) by lia.
    rewrite Nat.Div0.mod_add. reflexivity.
Qed.

Lemma remove_fences_clean (s : jstring) :
  contains FENCE (remove_fences s) = false.
Proof.
  pattern s. apply remove_fences_ind; clear s.
  - reflexivity.
  - intros c s Hm IH.
    assert (Hh : strip_prefix FENCE (remove_fences (c :: s)) = None).
    { apply fence_ticks. rewrite ticks_remove_fences.
      apply Nat.mod_upper_bound. discriminate. }
    rewrite (remove_fences_lit c s Hm) in *.
    rewrite contains_eq, Hh. exact IH.
  - intros s r Hm IH. rewrite (remove_fences_hit s r Hm). exact IH.
Qed.

Lemma remove_fences_none (x : jstring) :
  ~ occurs_in FENCE x -> remove_fences x = x.
Proof.
  intros H. unfold remove_fences, replace.
  rewrite scan_no_match; [apply render_lits|].
  intros pre v ->. unfold literally.
  destruct (strip_prefix FENCE v) as [r|] eqn:Hs; [|reflexivity].
  apply strip_prefix_spec in Hs. subst v.
  exfalso. apply H. exists pre, r. reflexivity.
Qed.

Lemma stripCodeFences_clean (s : jstring) :
  ~ occurs_in FENCE (stripCodeFences s).
Proof.
  intros H. apply occurs_in_trim in H.
  exact (not_contains _ _ (remove_fences_clean s) H).
Qed.

Lemma stripCodeFences_idem (s : jstring) :
  stripCodeFences (stripCodeFences s) = stripCodeFences s.
Proof.
  unfold stripCodeFences at 1.
  rewrite (remove_fences_none _ (stripCodeFences_clean s)).
  apply trim_idem.
Qed.

(** A part of a joined text is a stretch of it. *)
Lemma join_part (d : jstring) (l : list jstring) (p : jstring) :
  In p l -> exists a b, join d l = a ++ p ++ b.
Proof.
  induction l as [|q l IH]; [contradiction|].
  intros [->|Hin].
  - destruct l as [|q' l].
    + exists [], []. simpl. rewrite app_nil_r. reflexivity.
    + exists [], (d ++ join d (q' :: l)). reflexivity.
  - destruct (IH Hin) as (a & b & Hj).
    destruct l as [|q' l]; [contradiction|].
    exists (q ++ d ++ a), b.
    change (join d (q :: q' :: l)) with (q ++ d ++ join d (q' :: l)).
    rewrite Hj, <- !app_assoc. reflexivity.
Qed.

Lemma split_part (d s p : jstring) :
  d <> [] -> In p (split d s) -> exists a b, s = a ++ p ++ b.
Proof.
  intros Hd Hin. destruct (join_part d _ p Hin) as (a & b & Hj).
  rewrite (join_split d s Hd) in Hj. eauto.
Qed.

Lemma occurs_in_part (f a p b : jstring) :
  occurs_in f p -> occurs_in f (a ++ p ++ b).
Proof.
  intros (x & y & ->). exists (a ++ x), (y ++ b).
  rewrite <- !app_assoc. reflexivity.
Qed.

Lemma splitCards_cards (text card : jstring) :
  In card (splitCards text) ->
  plain_part getDelimiter card /\ ~ occurs_in FENCE card.
Proof.
  intros Hin. split.
  - pose proof (splitByDelimiter_plain (stripCodeFences text) []) as H.
    rewrite Forall_forall in H. exact (H card Hin).
  - unfold splitCards in Hin. apply filter_In in Hin as [Hin _].
    apply in_map_iff in Hin as (chunk & <- & Hc).
    intros Ho. apply occurs_in_trim in Ho.
    assert (Hd : getDelimiter <> []) by discriminate.
    destruct (split_part getDelimiter _ chunk Hd Hc) as (a & b & Hs).
    apply (stripCodeFences_clean text). rewrite Hs.
    apply occurs_in_part. exact Ho.
Qed.

(** ** The anchor is never empty *)

Definition has_char (items : list atom) : bool :=
  existsb (fun a => match a with Ch _ => true | _ => false end) items.

Lemma match_atoms_nonempty (items : list atom) :
  forall prev s w,
    has_char items = true ->
    match_atoms items prev s = Some w -> w <> [].
Proof.
  induction items as [|a items IH]; intros prev s w Hc; [discriminate|].
  cbn [match_atoms]. destruct a as [|p|p].
  - destruct (at_boundary prev s); [|discriminate].
    exact (IH _ _ _ Hc).
  - destruct s as [|c s]; [discriminate|].
    destruct (ci_eqb p c); [|discriminate].
    destruct (match_atoms items (Some c) s); [|discriminate].
    intros H; inversion H; subst. discriminate.
  - assert (Hskip : match_atoms items prev s = Some w -> w <> [])
      by exact (IH _ _ _ Hc).
    destruct s as [|c s]; [exact Hskip|].
    destruct (ci_eqb p c); [|exact Hskip].
    destruct (match_atoms items (Some c) s); [|exact Hskip].
    simpl. intros H; inversion H; subst. discriminate.
Qed.

Lemma search_from_nonempty (items : list atom) (s : jstring) :
  forall prev w,
    has_char items = true ->
    search_from items prev s = Some w -> w <> [].
Proof.
  induction s as [|c s IH]; intros prev w Hc; rewrite search_from_eq;
    destruct (match_atoms items prev _) as [w'|] eqn:Hm.
  - intros H; inversion H; subst.
    exact (match_atoms_nonempty _ _ _ _ Hc Hm).
  - discriminate.
  - intros H; inversion H; subst.
    exact (match_atoms_nonempty _ _ _ _ Hc Hm).
  - exact (IH _ _ Hc).
Qed.

Lemma keyword_nonempty (s w : jstring) :
  first_keyword patterns s = Some w -> w <> [].
Proof.
  assert (Hall : forall ps,
             forallb has_char ps = true ->
             first_keyword ps s = Some w -> w <> []).
  { induction ps as [|re ps IH]; simpl; [discriminate|].
    intros H. apply andb_true_iff in H as [H1 H2].
    destruct (search re s) as [w'|] eqn:Hs.
    - intros H; inversion H; subst.
      exact (search_from_nonempty _ _ _ _ H1 Hs).
    - exact (IH H2). }
  apply Hall. reflexivity.
Qed.

Lemma trim_nil_spaces (x : jstring) : trim x = [] -> spaces x.
Proof.
  intros H. destruct (trim_split x) as (w1 & w2 & Hx & H1 & H2).
  rewrite H in Hx. rewrite Hx. unfold spaces in *.
  rewrite forallb_app, H1. exact H2.
Qed.

Lemma join_nonempty (d p : jstring) (l : list jstring) :
  p <> [] -> join d (p :: l) <> [].
Proof.
  intros Hp. destruct l; cbn [join]; [exact Hp|].
  destruct p; [contradiction | discriminate].
Qed.

Lemma anchor_nonempty (content : jstring) (maxWords : nat) :
  1 <= maxWords -> ~ spaces content ->
  pickAnchorWords content maxWords <> [].
Proof.
  intros Hmw Hc. unfold pickAnchorWords.
  destruct (first_keyword patterns (trim content)) as [w|] eqn:Hk.
  - destruct (test re_Schuffner w && test re_dots (trim content))%bool;
      [discriminate | exact (keyword_nonempty _ _ Hk)].
  - destruct (filter nonempty (map strip_edges (split_spaces (trim content))))
      as [|w ws] eqn:Hw.
    + intros H. exact (Hc (trim_nil_spaces content H)).
    + destruct maxWords as [|k]; [lia|]. cbn [firstn].
      apply join_nonempty.
      assert (Hin : In w (filter nonempty
                            (map strip_edges (split_spaces (trim content)))))
        by (rewrite Hw; left; reflexivity).
      apply filter_In in Hin as [_ Hne]. intros He. rewrite He in Hne.
      discriminate.
Qed.

(** ** The limit pass keeps the spans and their indices *)

Definition no_closer (x : jstring) : Prop := ~ occurs_in (lit "}}") x.

Lemma part_no_closer (a p b : jstring) :
  no_closer (a ++ p ++ b) -> no_closer p.
Proof. intros H Hp. apply H. apply occurs_in_part. exact Hp. Qed.

(** A piece of a text cut at the matches of a pattern is a stretch of the
    text. *)
Lemma chunks_parts {A : Type} (m : jstring -> option (A * jstring))
  (Hs : shrinks m) (Hc : consumes m) (s : jstring) :
  exists h t,
    chunks (scan m s) = h :: t /\
    (exists b, s = h ++ b) /\
    (forall p, In p t -> exists a b, s = a ++ p ++ b).
Proof.
  pattern s. apply (scan_ind _ _ Hs); clear s.
  - exists [], []. repeat split; [exists []; reflexivity | intros p []].
  - intros c s Hm (h & t & Hch & (b & Hb) & Ht).
    rewrite scan_lit by exact Hm. cbn [chunks]. rewrite Hch.
    exists (c :: h), t. repeat split.
    + exists b. rewrite Hb at 1. reflexivity.
    + intros p Hp. destruct (Ht p Hp) as (a & b' & Hab).
      exists (c :: a), b'. rewrite Hab at 1. reflexivity.
  - intros s a r Hm (h & t & Hch & (b & Hb) & Ht).
    rewrite (scan_hit _ _ Hs _ _ _ Hm). cbn [chunks]. rewrite Hch.
    destruct (Hc _ _ _ Hm) as (x & Hx).
    exists [], (h :: t). repeat split.
    + exists s. reflexivity.
    + intros p [<-|Hp].
      * exists x, b. rewrite Hx, Hb at 1. reflexivity.
      * destruct (Ht p Hp) as (a' & b' & Hab).
        exists (x ++ a'), b'. rewrite Hx, Hab at 1.
        rewrite <- app_assoc. reflexivity.
Qed.

Lemma space_run_consumes : consumes space_run.
Proof.
  intros s w r H. destruct (space_run_spec _ _ _ H) as (-> & _). eauto.
Qed.

Lemma split_spaces_part (s p : jstring) :
  In p (split_spaces s) -> exists a b, s = a ++ p ++ b.
Proof.
  unfold split_spaces.
  destruct (chunks_parts space_run space_run_shrinks space_run_consumes s)
    as (h & t & -> & (b & Hb) & Ht).
  intros [<-|Hp]; [exists [], b; exact Hb | exact (Ht p Hp)].
Qed.

Lemma strip_edges_part (w : jstring) :
  exists a b, w = a ++ strip_edges w ++ b.
Proof.
  unfold strip_edges.
  destruct (drop_while_split not_word w) as (a & Ha & _).
  destruct (drop_while_split not_word (rev (drop_while not_word w)))
    as (b & Hb & _).
  exists a, (rev b). rewrite Ha at 1. f_equal.
  rewrite <- rev_app_distr, <- Hb, rev_involutive. reflexivity.
Qed.

Lemma closer_across_space (a b : jstring) :
  occurs_in (lit "}}") (a ++ SPACE ++ b) ->
  occurs_in (lit "}}") a \/ occurs_in (lit "}}") b.
Proof.
  induction a as [|c a IH]; intros (x & y & H).
  - destruct x as [|x0 x]; [discriminate|].
    right. exists x, y. inversion H. reflexivity.
  - destruct x as [|x0 x].
    + left. destruct a as [|c' a]; [discriminate|].
      injection H as -> -> _. exists [], a. reflexivity.
    + injection H as _ Hrest.
      destruct IH as [(x' & y' & ->)|Hb]; [exists x, y; exact Hrest | |].
      * left. exists (c :: x'), y'. reflexivity.
      * right. exact Hb.
Qed.

Lemma join_no_closer (l : list jstring) :
  Forall no_closer l -> no_closer (join SPACE l).
Proof.
  induction 1 as [|p l Hp Hl IH]; [intros (x & y & H); destruct x; discriminate|].
  destruct l as [|q l]; [exact Hp|].
  change (join SPACE (p :: q :: l)) with (p ++ SPACE ++ join SPACE (q :: l)).
  intros H. apply closer_across_space in H as [H|H]; [exact (Hp H) | exact (IH H)].
Qed.

Lemma keyword_chars (s w : jstring) (c : char) :
  first_keyword patterns s = Some w -> In c w ->
  exists p, In p (flat_map atom_chars patterns) /\ ci_eqb p c = true.
Proof.
  generalize patterns. intros ps. induction ps as [|re ps IH]; simpl;
    [discriminate|].
  destruct (search re s) as [w'|] eqn:Hs.
  - intros H Hc; inversion H; subst.
    destruct (search_from_chars _ _ _ _ Hs c Hc) as (p & Hp & Hpc).
    exists p. split; [apply in_or_app; left; exact Hp | exact Hpc].
  - intros H Hc. destruct (IH H Hc) as (p & Hp & Hpc).
    exists p. split; [apply in_or_app; right; exact Hp | exact Hpc].
Qed.

Lemma keyword_no_closer (s w : jstring) :
  first_keyword patterns s = Some w -> no_closer w.
Proof.
  intros Hk (x & y & Hw).
  assert (Hin : In RBRACE w) by (rewrite Hw; apply in_or_app; right; left; reflexivity).
  destruct (keyword_chars s w RBRACE Hk Hin) as (p & Hp & Hpc).
  assert (Hall : forallb (fun p => negb (ci_eqb p RBRACE))
                   (flat_map atom_chars patterns) = true)
    by (vm_compute; reflexivity).
  rewrite forallb_forall in Hall. apply Hall in Hp.
  rewrite Hpc in Hp. discriminate.
Qed.

Lemma firstn_Forall {A : Type} (P : A -> Prop) (n : nat) (l : list A) :
  Forall P l -> Forall P (firstn n l).
Proof.
  intros H. rewrite <- (firstn_skipn n l) in H.
  apply Forall_app in H as [H _]. exact H.
Qed.

(** The anchor holds no [}}] when the content holds none. *)
Lemma anchor_no_closer (content : jstring) (maxWords : nat) :
  no_closer content -> no_closer (pickAnchorWords content maxWords).
Proof.
  intros Hc. unfold pickAnchorWords.
  assert (Ht : no_closer (trim content))
    by (intros H; exact (Hc (occurs_in_trim _ _ H))).
  destruct (first_keyword patterns (trim content)) as [w|] eqn:Hk.
  - destruct (test re_Schuffner w && test re_dots (trim content))%bool.
    + apply not_contains. reflexivity.
    + exact (keyword_no_closer _ _ Hk).
  - destruct (filter nonempty (map strip_edges (split_spaces (trim content))))
      as [|w ws] eqn:Hw; [exact Ht|].
    apply join_no_closer, firstn_Forall. rewrite <- Hw.
    apply Forall_forall. intros x Hx.
    apply filter_In in Hx as [Hx _].
    apply in_map_iff in Hx as (tok & <- & Htok).
    destruct (split_spaces_part _ _ Htok) as (a & b & Hab).
    destruct (strip_edges_part tok) as (a' & b' & Hedge).
    rewrite Hab in Ht. apply part_no_closer in Ht.
    rewrite Hedge in Ht. exact (part_no_closer _ _ _ Ht).
Qed.

(** Where the body holds no [}}], the span ends at the [}}] written after
    it, or one character earlier when the body ends in a brace. *)
Lemma until_close_body (body t : jstring) :
  no_closer body ->
  until_close (body ++ lit "}}" ++ t) = Some (body, t) \/
  exists b, until_close (body ++ lit "}}" ++ t) = Some (b, RBRACE :: t).
Proof.
  induction body as [|c body IH]; intros Hb.
  - left. rewrite until_close_eq. cbn [app]. rewrite strip_prefix_app.
    reflexivity.
  - assert (Hb' : no_closer body).
    { intros (x & y & ->). apply Hb. exists (c :: x), y. reflexivity. }
    rewrite until_close_eq. cbn [app].
    destruct (strip_prefix (lit "}}") (c :: body ++ lit "}}" ++ t))
      as [r|] eqn:Hs.
    + right. apply strip_prefix_spec in Hs.
      destruct body as [|c' body].
      * inversion Hs; subst. exists []. reflexivity.
      * exfalso. apply Hb. inversion Hs; subst. exists [], body. reflexivity.
    + destruct (IH Hb') as [->|(b & ->)]; [left | right; exists (c :: b)];
        reflexivity.
Qed.

Section Replaced.
Variable f : span_match -> jstring.
Hypothesis f_keeps :
  forall s m r,
    strict_span s = Some (m, r) ->
    exists body,
      f m = lit "{{c" ++ sm_n m ++ lit "::" ++ body ++ lit "}}" /\
      no_closer body.

Lemma replaced_agree (s : jstring) :
  agree_to_brace s (replace strict_span f s).
Proof.
  unfold replace. pattern s.
  apply (scan_ind _ _ strict_span_shrinks); clear s.
  - constructor.
  - intros c s Hm IH. rewrite scan_lit by exact Hm. simpl.
    constructor. exact IH.
  - intros s m r Hm _.
    rewrite (scan_hit _ _ strict_span_shrinks _ _ _ Hm). cbn [render].
    destruct (f_keeps _ _ _ Hm) as (body & -> & _).
    destruct (strict_span_spec _ _ _ Hm) as (Hf & -> & _). rewrite Hf.
    apply atb_brace.
Qed.

(** Where no span starts before the replacement, none starts after it. *)
Lemma replaced_head (c : char) (s : jstring) :
  strict_span (c :: s) = None ->
  strict_span (c :: replace strict_span f s) = None.
Proof.
  intros H.
  destruct (strict_opener (c :: s)) as [[n s1]|] eqn:Ho.
  - assert (Hu : until_close s1 = None).
    { unfold strict_span in H. rewrite Ho in H.
      destruct (until_close s1) as [[i r]|]; [discriminate | reflexivity]. }
    assert (Hnone : forall pre v, s = pre ++ v -> strict_span v = None).
    { intros pre v Hs.
      destruct (strict_span v) as [[m r]|] eqn:Hv; [|reflexivity].
      exfalso. apply strict_span_has_closer in Hv.
      apply strict_opener_spec in Ho as [Hcs Hn].
      assert (Hocc : occurs_in (lit "}}") (c :: s)).
      { destruct Hv as (a & b & ->). exists (c :: pre ++ a), b.
        rewrite Hs. list_eq. }
      rewrite Hcs in Hocc.
      replace (lit "{{c" ++ n ++ lit "::" ++ s1)
        with ((lit "{{c" ++ n ++ lit "::") ++ s1) in Hocc by list_eq.
      apply occurs_after_prefix in Hocc.
      - apply contains_spec in Hocc.
        apply until_close_contains in Hu. congruence.
      - intros Hin. apply in_app_or in Hin as [Hin|Hin];
          [simpl in Hin; repeat destruct Hin as [Hin|Hin];
           try discriminate; contradiction|].
        apply in_app_or in Hin as [Hin|Hin].
        + destruct Hn as [_ Hd]. rewrite forallb_forall in Hd.
          apply Hd in Hin. discriminate.
        + simpl in Hin; repeat destruct Hin as [Hin|Hin];
            try discriminate; contradiction. }
    unfold replace. rewrite (scan_no_match _ strict_span _ Hnone).
    rewrite render_lits. exact H.
  - unfold strict_span at 1.
    change (c :: replace strict_span f s)
      with ([c] ++ replace strict_span f s).
    rewrite (strict_opener_agree _ _ (replaced_agree s) [c]);
      [reflexivity | discriminate | exact Ho].
Qed.

Lemma replaced_indices (s : jstring) :
  map sm_n (matchAll strict_span (replace strict_span f s))
  = map sm_n (matchAll strict_span s).
Proof.
  unfold matchAll. pattern s.
  apply (scan_ind _ _ strict_span_shrinks); clear s.
  - reflexivity.
  - intros c s Hm IH.
    rewrite (scan_lit _ strict_span c s Hm).
    unfold replace. rewrite (scan_lit _ strict_span c s Hm). cbn [render].
    fold (replace strict_span f s).
    rewrite (scan_lit _ strict_span c _ (replaced_head c s Hm)).
    exact IH.
  - intros s m r Hm IH.
    rewrite (scan_hit _ _ strict_span_shrinks _ _ _ Hm).
    unfold replace. rewrite (scan_hit _ _ strict_span_shrinks _ _ _ Hm).
    cbn [render hits map]. fold (replace strict_span f r).
    destruct (f_keeps _ _ _ Hm) as (body & -> & Hb).
    destruct (strict_span_spec _ _ _ Hm) as (_ & _ & Hn & _).
    set (R := replace strict_span f r) in *.
    assert (Ho : forall t,
               strict_opener (lit "{{c" ++ sm_n m ++ lit "::" ++ t)
               = Some (sm_n m, t))
      by (intros t; apply strict_opener_spec; split; [reflexivity | exact Hn]).
    replace ((lit "{{c" ++ sm_n m ++ lit "::" ++ body ++ lit "}}") ++ R)
      with (lit "{{c" ++ sm_n m ++ lit "::" ++ (body ++ lit "}}" ++ R))
      by list_eq.
    destruct (until_close_body body R Hb) as [Hu|(b & Hu)].
    + rewrite (scan_hit _ _ strict_span_shrinks _
                 (SpanMatch (lit "{{c" ++ sm_n m ++ lit "::" ++ body
                             ++ lit "}}") (sm_n m) body) R)
        by (unfold strict_span; rewrite Ho, Hu; reflexivity).
      cbn [hits map sm_n]. f_equal. exact IH.
    + rewrite (scan_hit _ _ strict_span_shrinks _
                 (SpanMatch (lit "{{c" ++ sm_n m ++ lit "::" ++ b
                             ++ lit "}}") (sm_n m) b) (RBRACE :: R))
        by (unfold strict_span; rewrite Ho, Hu; reflexivity).
      rewrite (scan_lit _ strict_span RBRACE R)
        by (apply strict_span_head; discriminate).
      cbn [hits map sm_n]. f_equal. exact IH.
Qed.
End Replaced.

Lemma limit_span_keeps (maxWords : nat) (s : jstring) (m : span_match)
  (r : jstring) :
  strict_span s = Some (m, r) ->
  exists body,
    limit_span maxWords m
    = lit "{{c" ++ sm_n m ++ lit "::" ++ body ++ lit "}}" /\
    no_closer body.
Proof.
  intros H. destruct (strict_span_spec _ _ _ H) as (Hf & _ & _ & Hu).
  pose proof (inner_has_no_closer _ _ Hu) as Hi.
  unfold limit_span.
  destruct (Nat.leb (List.length (content_words (sm_inner m))) maxWords).
  - exists (sm_inner m). split; [exact Hf | exact Hi].
  - exists (pickAnchorWords (trim (sm_inner m)) maxWords).
    split; [reflexivity|]. apply anchor_no_closer.
    intros Ho. exact (Hi (occurs_in_trim _ _ Ho)).
Qed.

(** ** A delimiter that does not occur *)

Lemma no_occurrence_no_match (d x : jstring) :
  ~ occurs_in d x -> no_match_in d x.
Proof.
  intros H pre v ->. destruct (strip_prefix d v) as [r|] eqn:Hs; [|reflexivity].
  apply strip_prefix_spec in Hs. subst v. exfalso. apply H.
  exists pre, r. reflexivity.
Qed.

(** ** The style snippets and the learning examples

    [normalizeStyleSnippet], [normalizeStyleSeedLibrary] and
    [normalizeLearningExample] take what is read from the JSON files; the
    snippets and examples are modelled where they are strings, and a preset
    of the raw library is [None] where it is missing or no array. *)

Definition CR : char := 13%N.
Definition CRLF : jstring := [CR; LF].

Definition normalizeStyleSnippet (text : jstring) : jstring :=
  let v := replace (literally CRLF) (fun _ => [LF]) (trim text) in
  match v with
  | [] => []
  | _ :: _ => firstn 1200 v
  end.

(** [arr.slice(-n)] for a positive [n] *)
Definition last_n {A : Type} (n : nat) (l : list A) : list A :=
  skipn (List.length l - n) l.

Record style_library : Type := StyleLibrary {
  lib_micro : list jstring;
  lib_gross : list jstring;
  lib_path : list jstring
}.

Record raw_library : Type := RawLibrary {
  raw_micro : option (list jstring);
  raw_gross : option (list jstring);
  raw_path : option (list jstring)
}.

Definition normalize_preset (entry : option (list jstring)) : list jstring :=
  let arr := match entry with Some a => a | None => [] end in
  last_n 400 (filter nonempty (map normalizeStyleSnippet arr)).

Definition normalizeStyleSeedLibrary (raw : raw_library) : style_library :=
  StyleLibrary (normalize_preset (raw_micro raw))
               (normalize_preset (raw_gross raw))
               (normalize_preset (raw_path raw)).

Record learning_example : Type := LearningExample {
  le_input : jstring;
  le_output : jstring
}.

Definition normalizeLearningExample (input output : jstring)
  : option learning_example :=
  let safeInput := firstn 1400 (trim input) in
  let safeOutput := firstn 2400 (trim output) in
  if (negb (nonempty safeInput) || negb (nonempty safeOutput))%bool
  then None
  else Some (LearningExample safeInput safeOutput).

Lemma drop_while_first (f : char -> bool) (x : jstring) (c : char)
  (r : jstring) :
  drop_while f x = c :: r -> f c = false.
Proof.
  induction x as [|a x IH]; simpl; [discriminate|].
  destruct (f a) eqn:Ha; [exact IH|].
  intros H; inversion H; subst. exact Ha.
Qed.

(** A trimmed text starts with a character that is no whitespace. *)
Lemma trim_head (x : jstring) (c : char) (r : jstring) :
  trim x = c :: r -> is_space c = false.
Proof.
  unfold trim. intros H.
  destruct (drop_while_split is_space (rev (drop_while is_space x)))
    as (b & Hb & _).
  apply (f_equal (@rev char)) in Hb.
  rewrite rev_involutive, rev_app_distr, H in Hb.
  exact (drop_while_first is_space x c _ Hb).
Qed.

Lemma cr_is_space : is_space CR = true.
Proof. reflexivity. Qed.

(** The line ends of a trimmed text are rewritten from its second character
    on. *)
Lemma crlf_replace_head (c : char) (r : jstring) :
  is_space c = false ->
  replace (literally CRLF) (fun _ => [LF]) (c :: r)
  = c :: replace (literally CRLF) (fun _ => [LF]) r.
Proof.
  intros Hc. unfold replace. rewrite scan_lit; [reflexivity|].
  unfold literally, CRLF. cbn [strip_prefix].
  destruct (N.eqb_spec CR c) as [<-|_]; [|reflexivity].
  rewrite cr_is_space in Hc. discriminate.
Qed.

Lemma firstn_head {A : Type} (n : nat) (a : A) (l : list A) :
  firstn (S n) (a :: l) = a :: firstn n l.
Proof. reflexivity. Qed.

Lemma snippet_cases (text : jstring) :
  (spaces text /\ normalizeStyleSnippet text = []) \/
  (exists c r, ~ spaces text /\ is_space c = false /\
               normalizeStyleSnippet text = c :: r).
Proof.
  unfold normalizeStyleSnippet.
  destruct (trim text) as [|c r] eqn:Ht.
  - left. split; [exact (trim_nil_spaces text Ht) | reflexivity].
  - right. pose proof (trim_head text c r Ht) as Hc.
    rewrite (crlf_replace_head c r Hc).
    exists c, (firstn 1199 (replace (literally CRLF) (fun _ => [LF]) r)).
    repeat split; [|exact Hc].
    intros Hs. rewrite (trim_spaces text Hs) in Ht. discriminate.
Qed.

Lemma snippet_length (text : jstring) :
  List.length (normalizeStyleSnippet text) <= 1200.
Proof.
  unfold normalizeStyleSnippet.
  destruct (replace (literally CRLF) (fun _ => [LF]) (trim text));
    [simpl; lia | apply firstn_le_length].
Qed.

Lemma last_n_length {A : Type} (n : nat) (l : list A) :
  List.length (last_n n l) <= n.
Proof. unfold last_n. rewrite length_skipn. lia. Qed.

Lemma last_n_In {A : Type} (n : nat) (l : list A) (x : A) :
  In x (last_n n l) -> In x l.
Proof.
  unfold last_n. intros H.
  rewrite <- (firstn_skipn (List.length l - n) l).
  apply in_or_app. right. exact H.
Qed.

Lemma normalize_preset_entries (entry : option (list jstring)) :
  List.length (normalize_preset entry) <= 400 /\
  forall v, In v (normalize_preset entry) ->
            0 < List.length v <= 1200 /\
            exists c r, v = c :: r /\ is_space c = false.
Proof.
  unfold normalize_preset. split; [apply last_n_length|].
  intros v Hv. apply last_n_In, filter_In in Hv as [Hv Hne].
  apply in_map_iff in Hv as (text & <- & _).
  pose proof (snippet_length text) as Hl.
  destruct (snippet_cases text) as [[_ He]|(c & r & _ & Hc & He)];
    rewrite He in *; [discriminate|].
  split; [simpl in *; lia | eauto].
Qed.

Lemma firstn_nonempty {A : Type} (n : nat) (l : list A) :
  firstn (S n) l = [] -> l = [].
Proof. destruct l; [reflexivity | discriminate]. Qed.

Lemma learning_example_cases (input output : jstring) :
  (normalizeLearningExample input output = None /\
   (spaces input \/ spaces output)) \/
  (exists e, normalizeLearningExample input output = Some e /\
             ~ spaces input /\ ~ spaces output /\
             0 < List.length (le_input e) <= 1400 /\
             0 < List.length (le_output e) <= 2400).
Proof.
  unfold normalizeLearningExample.
  pose proof (firstn_le_length 1400 (trim input)) as Hli.
  pose proof (firstn_le_length 2400 (trim output)) as Hlo.
  destruct (firstn 1400 (trim input)) as [|ci ri] eqn:Hi.
  - left. split; [reflexivity|]. left.
    apply trim_nil_spaces. exact (firstn_nonempty _ _ Hi).
  - destruct (firstn 2400 (trim output)) as [|co ro] eqn:Ho.
    + left. split; [reflexivity|]. right.
      apply trim_nil_spaces. exact (firstn_nonempty _ _ Ho).
    + right. eexists. split; [reflexivity|]. cbn [le_input le_output].
      repeat split; try (simpl in *; lia).
      * intros Hs. rewrite (trim_spaces _ Hs) in Hi. discriminate.
      * intros Hs. rewrite (trim_spaces _ Hs) in Ho. discriminate.
Qed.

(** * Further properties, stated *)

(** ** The word limit *)

(** X1: a text in which every span of the exact form has at most [maxWords]
    words is returned by [enforceClozeWordLimit] as it is. *)
Theorem limit_keeps_short_spans (text : jstring) (maxWords : nat) :
  (forall m, In m (matchAll strict_span text) ->
             List.length (content_words (sm_inner m)) <= maxWords) ->
  enforceClozeWordLimit text maxWords = text.
Proof. exact (enforce_within_limit text maxWords). Qed.

Lemma limit_keeps_short_spans_witness :
  enforceClozeWordLimit (lit "{{c1::tertian fever}} in {{c2::P. vivax}}") 3
  = lit "{{c1::tertian fever}} in {{c2::P. vivax}}".
Proof.
  apply (limit_keeps_short_spans
           (lit "{{c1::tertian fever}} in {{c2::P. vivax}}") 3).
  intros m Hin. vm_compute in Hin.
  destruct Hin as [<-|[<-|[]]]; vm_compute; lia.
Defined.

(** X2: [enforceClozeWordLimit] keeps the spans of the exact form and their
    indices: the spans found in the text returned have, in order, the
    indices of the spans found in the text given, whatever [maxWords] is. *)
Theorem limit_keeps_indices (text : jstring) (maxWords : nat) :
  map sm_n (matchAll strict_span (enforceClozeWordLimit text maxWords))
  = map sm_n (matchAll strict_span text).
Proof.
  rewrite enforce_is_replace.
  apply replaced_indices. exact (limit_span_keeps maxWords).
Qed.

(** ** The anchor *)

(** X3: for a content that is not blank and a limit of at least one word,
    [pickAnchorWords] never returns the empty string. *)
Theorem anchor_is_not_empty (content : jstring) (maxWords : nat) :
  1 <= maxWords -> ~ spaces content ->
  pickAnchorWords content maxWords <> [].
Proof. exact (anchor_nonempty content maxWords). Qed.

Lemma anchor_is_not_empty_witness :
  pickAnchorWords (lit " (ring) forms seen early ") 1 <> [].
Proof.
  apply (anchor_is_not_empty (lit " (ring) forms seen early ") 1).
  - lia.
  - unfold spaces. vm_compute. discriminate.
Defined.

(** X4: for a limit of at least two words, the text [pickAnchorWords]
    returns has at most [maxWords] whitespace-delimited tokens, or holds no
    word character at all. *)
Theorem anchor_within_limit (content : jstring) (maxWords : nat) :
  2 <= maxWords ->
  List.length (content_words (pickAnchorWords content maxWords)) <= maxWords
  \/ forallb not_word (pickAnchorWords content maxWords) = true.
Proof. exact (anchor_short_or_wordless content maxWords). Qed.

Lemma anchor_within_limit_witness :
  List.length
    (content_words (pickAnchorWords (lit "ring forms are seen early") 2)) <= 2
  \/ forallb not_word (pickAnchorWords (lit "ring forms are seen early") 2)
     = true.
Proof.
  apply (anchor_within_limit (lit "ring forms are seen early") 2). lia.
Defined.

(** X5: the text [pickAnchorWords] returns holds no [}}] when the content
    holds none, so that a span rewritten by the word limit is closed by the
    [}}] written after the anchor. *)
Theorem anchor_has_no_closer (content : jstring) (maxWords : nat) :
  ~ occurs_in (lit "}}") content ->
  ~ occurs_in (lit "}}") (pickAnchorWords content maxWords).
Proof. exact (anchor_no_closer content maxWords). Qed.

Lemma anchor_has_no_closer_witness :
  ~ occurs_in (lit "}}") (pickAnchorWords (lit "a} }b c d e") 3).
Proof.
  apply (anchor_has_no_closer (lit "a} }b c d e") 3).
  apply not_contains. reflexivity.
Defined.

(** ** Capping *)

(** X6: capping a text against itself changes nothing. *)
Theorem cap_same_text (text delimiter : jstring) :
  capClozesToInput text text delimiter = text.
Proof.
  unfold capClozesToInput. rewrite cap_cards_self.
  apply join_split, delimiter_or_default_nonempty.
Qed.

(** X7: when the input text holds no [{], and so no cloze, the output is
    returned as it is, clozes included. *)
Theorem cap_without_input_clozes (out inText delimiter : jstring) :
  no_brace inText -> capClozesToInput out inText delimiter = out.
Proof. exact (cap_fresh_input out inText delimiter). Qed.

Lemma cap_without_input_clozes_witness :
  capClozesToInput (lit "{{c1::Plasmodium}} {{c2::vivax}}")
    (lit "Plasmodium vivax") []
  = lit "{{c1::Plasmodium}} {{c2::vivax}}".
Proof.
  apply (cap_without_input_clozes (lit "{{c1::Plasmodium}} {{c2::vivax}}")
           (lit "Plasmodium vivax") []).
  unfold no_brace. vm_compute. intros H.
  repeat destruct H as [H|H]; try discriminate. exact H.
Defined.

(** ** Renumbering *)

(** X8: renumbering a card a second time changes nothing, for every card. *)
Theorem renumber_card_twice (card : jstring) :
  renumberCard (renumberCard card) = renumberCard card.
Proof. exact (renumberCard_idempotent card). Qed.

(** X9: every opener found in a renumbered card is written in the exact
    form [{{c<digits>::], without whitespace. *)
Theorem renumbered_openers_exact (card : jstring) :
  Forall (fun found => fst found = lit "{{c" ++ snd found ++ lit "::"
                       /\ digits (snd found))
         (matchAll loose_opener (renumberCard card)).
Proof.
  apply Forall_forall. intros [o n] Hin.
  unfold matchAll, renumberCard in Hin.
  rewrite renumber_stable in Hin by constructor.
  exact (renumber_hits_exact (scan loose_opener card) [] 1 o n
           (Forall_nil _) Hin).
Qed.

(** ** The three passes of [/api/refine] *)

(** X10: an output without [{] goes through the three passes unchanged. *)
Theorem refine_keeps_plain_text (out rawText delimiter : jstring) :
  no_brace out -> refine_fixed out rawText delimiter = out.
Proof.
  intros H. unfold refine_fixed.
  rewrite (cap_no_brace out rawText _ H), (enforce_no_brace out 3 H).
  exact (renumber_no_brace out _ H).
Qed.

Lemma refine_keeps_plain_text_witness :
  refine_fixed (lit "no cloze here") (lit "{{c1::x}}") []
  = lit "no cloze here".
Proof.
  apply (refine_keeps_plain_text (lit "no cloze here") (lit "{{c1::x}}") []).
  unfold no_brace. vm_compute. intros H.
  repeat destruct H as [H|H]; try discriminate. exact H.
Defined.

(** X11: a span whose opener has stray whitespace is not seen by the word
    limit and is then put in exact form by the renumbering: the three passes
    return it as [{{c1::content}}] with its content untouched, however many
    words the content has. *)
Theorem refine_passes_stray_span
  (w1 n w2 content rawText delimiter : jstring) :
  spaces w1 -> spaces w2 -> w1 ++ w2 <> [] -> digits n ->
  no_brace content -> no_brace rawText ->
  ~ occurs_in (delimiter_or_default delimiter)
      (opener_text w1 n w2 ++ content ++ lit "}}") ->
  refine_fixed (opener_text w1 n w2 ++ content ++ lit "}}") rawText delimiter
  = lit "{{c1::" ++ content ++ lit "}}".
Proof.
  intros H1 H2 Hs Hn Hc Hraw Hd. unfold refine_fixed.
  rewrite (cap_fresh_input _ rawText _ Hraw).
  assert (Hnil : no_strict_opener []).
  { intros a v H. symmetry in H. apply app_eq_nil in H as [_ ->].
    reflexivity. }
  pose proof (limit_passes_stray_span [] w1 n w2 content [] H1 H2 Hs Hn
                Hnil (no_brace_no_strict_opener content Hc) 3) as Hl.
  cbn [app] in Hl. change (enforceClozeWordLimit [] 3) with (@nil char) in Hl.
  rewrite app_nil_r in Hl. rewrite Hl.
  unfold renumberClozesPerCard. rewrite delimiter_or_default_idem.
  rewrite (split_none _ _ (no_occurrence_no_match _ _ Hd)).
  cbn [map join].
  exact (renumberCard_single_span w1 n w2 content H1 H2 Hn Hc).
Qed.

Lemma refine_passes_stray_span_witness :
  refine_fixed (lit "{{ c7::one two three four five}}") (lit "notes") []
  = lit "{{c1::one two three four five}}".
Proof.
  apply (refine_passes_stray_span (lit " ") (lit "7") []
           (lit "one two three four five") (lit "notes") []).
  - reflexivity.
  - reflexivity.
  - discriminate.
  - split; [discriminate | reflexivity].
  - unfold no_brace. vm_compute. intros H.
    repeat destruct H as [H|H]; try discriminate. exact H.
  - unfold no_brace. vm_compute. intros H.
    repeat destruct H as [H|H]; try discriminate. exact H.
  - apply not_contains. reflexivity.
Defined.

(** ** Splitting and joining *)

(** X12: every part [splitByDelimiter] returns is non-empty, equal to its
    own trim and free of the delimiter. *)
Theorem split_parts_plain (raw delimiter : jstring) :
  Forall (fun part => part <> [] /\ trim part = part
                      /\ ~ occurs_in (delimiter_or_default delimiter) part)
         (splitByDelimiter raw delimiter).
Proof. exact (splitByDelimiter_plain raw delimiter). Qed.

(** X13: for a delimiter without a line feed, joining the parts of a text
    and splitting again gives the same parts. *)
Theorem split_join_split (raw delimiter : jstring) :
  ~ In LF delimiter ->
  splitByDelimiter
    (joinByDelimiter (splitByDelimiter raw delimiter) delimiter) delimiter
  = splitByDelimiter raw delimiter.
Proof.
  intros Hlf. pose proof (splitByDelimiter_plain raw delimiter) as Hall.
  set (parts := splitByDelimiter raw delimiter) in *.
  unfold splitByDelimiter at 1. unfold joinByDelimiter.
  set (d := delimiter_or_default delimiter) in *.
  destruct parts as [|p ps] eqn:Hp; [reflexivity|].
  apply (roundtrip_padded d (delimiter_or_default_nonempty delimiter)
           (default_one_line delimiter Hlf) (p :: ps) []);
    [discriminate | constructor | exact Hall].
Qed.

Lemma split_join_split_witness :
  splitByDelimiter
    (joinByDelimiter
       (splitByDelimiter (lit " a ===CARD===  ===CARD===b") []) []) []
  = splitByDelimiter (lit " a ===CARD===  ===CARD===b") [].
Proof.
  apply (split_join_split (lit " a ===CARD===  ===CARD===b") []).
  intros H. exact H.
Defined.

(** X14: a text of whitespace only has no parts. *)
Theorem split_blank (raw delimiter : jstring) :
  spaces raw -> splitByDelimiter raw delimiter = [].
Proof.
  intros Hraw. unfold splitByDelimiter.
  set (d := delimiter_or_default delimiter).
  assert (Hd : d <> []) by apply delimiter_or_default_nonempty.
  assert (Hall : forall card, In card (split d raw) -> trim card = []).
  { intros card Hin. apply trim_spaces. unfold spaces.
    apply forallb_forall. intros c Hc.
    unfold spaces in Hraw. rewrite forallb_forall in Hraw.
    exact (Hraw c (split_chars d raw card c Hd Hin Hc)). }
  induction (split d raw) as [|c l IH]; [reflexivity|].
  simpl. rewrite (Hall c (or_introl eq_refl)). simpl.
  apply IH. intros card Hin. apply Hall. right. exact Hin.
Qed.

Lemma split_blank_witness :
  splitByDelimiter [32%N; LF; 9%N] (lit "--") = [].
Proof.
  apply (split_blank [32%N; LF; 9%N] (lit "--")). reflexivity.
Defined.

(** ** The validator of [server.js] *)

(** X15: after the word limit, with a limit of at least two words, every
    entry [findTooLongClozes] still reports has a content without any word
    character. *)
Theorem validator_after_limit
  (text : jstring) (maxWords : nat) (e : too_long) :
  2 <= maxWords ->
  In e (findTooLongClozes (enforceClozeWordLimit text maxWords) maxWords) ->
  forallb not_word (inside e) = true.
Proof.
  intros Hmw Hin. unfold findTooLongClozes in Hin.
  apply in_flat_map in Hin as (m & Hm & He).
  destruct (hits_positions line_span line_span_shrinks line_span_consumes
              _ m Hm) as (pre & v & r & Hout & Hv).
  apply line_span_sub in Hv. rewrite enforce_is_replace in Hout.
  pose proof (limit_positions maxWords Hmw text pre v m r Hout Hv) as Hs.
  unfold too_long_entry in He.
  destruct (Nat.ltb_spec maxWords
              (List.length (filter nonempty (split_spaces (trim (sm_inner m))))))
    as [Hlt|Hge]; [|destruct He].
  destruct He as [<-|[]]. simpl.
  destruct Hs as [Hs|Hs].
  - unfold content_words in Hs. lia.
  - exact (wordless_trim _ Hs).
Qed.

Lemma validator_after_limit_witness :
  forallb not_word (inside (TooLong (lit "! ! ! !") 4)) = true.
Proof.
  apply (validator_after_limit (lit "{{c1::! ! ! !}}") 3
           (TooLong (lit "! ! ! !") 4)).
  - lia.
  - vm_compute. left. reflexivity.
Defined.

(** X16: a text without line terminators in which [findTooLongClozes] finds
    nothing is returned by [enforceClozeWordLimit] as it is. *)
Theorem validated_line_is_kept (text : jstring) (maxWords : nat) :
  one_line text ->
  findTooLongClozes text maxWords = [] ->
  enforceClozeWordLimit text maxWords = text.
Proof.
  intros Hl Hv. apply enforce_within_limit. intros m Hin.
  apply too_long_entry_nil.
  apply (flat_map_nil _ _ Hv).
  unfold matchAll in *. rewrite (line_scan_one_line text Hl). exact Hin.
Qed.

Lemma validated_line_is_kept_witness :
  enforceClozeWordLimit (lit "{{c1::Schuffner's dots}} in {{c2::P. vivax}}") 3
  = lit "{{c1::Schuffner's dots}} in {{c2::P. vivax}}".
Proof.
  apply (validated_line_is_kept
           (lit "{{c1::Schuffner's dots}} in {{c2::P. vivax}}") 3).
  - reflexivity.
  - reflexivity.
Defined.

(** ** The helpers of the page *)

(** X17: the text [stripCodeFences] returns holds no fence, and stripping it
    again changes nothing. *)
Theorem fences_are_removed (s : jstring) :
  ~ occurs_in FENCE (stripCodeFences s)
  /\ stripCodeFences (stripCodeFences s) = stripCodeFences s.
Proof.
  split; [apply stripCodeFences_clean | apply stripCodeFences_idem].
Qed.

(** X18: every card [splitCards] returns is non-empty, equal to its own
    trim, and holds neither the delimiter nor a fence. *)
Theorem split_cards_plain (text : jstring) :
  Forall (fun card => card <> [] /\ trim card = card
                      /\ ~ occurs_in getDelimiter card
                      /\ ~ occurs_in FENCE card)
         (splitCards text).
Proof.
  apply Forall_forall. intros card Hin.
  destruct (splitCards_cards text card Hin) as [(H1 & H2 & H3) H4]. auto.
Qed.

(** ** The style snippets and the learning examples *)

(** X19: [normalizeStyleSnippet] returns at most 1200 code units; it returns
    the empty string exactly for a blank text, and otherwise a text that
    starts with a character that is no whitespace. *)
Theorem snippet_shape (text : jstring) :
  List.length (normalizeStyleSnippet text) <= 1200
  /\ (normalizeStyleSnippet text = [] <-> spaces text)
  /\ (forall c r, normalizeStyleSnippet text = c :: r -> is_space c = false).
Proof.
  split; [apply snippet_length|].
  destruct (snippet_cases text) as [[Hs He]|(c & r & Hs & Hc & He)];
    rewrite He.
  - split; [tauto | discriminate].
  - split; [split; [discriminate | contradiction]|].
    intros c' r' H; inversion H; subst. exact Hc.
Qed.

(** At most 400 snippets, each non-empty and of at most 1200 code units. *)
Definition bounded_snippets (l : list jstring) : Prop :=
  List.length l <= 400 /\ Forall (fun v => 0 < List.length v <= 1200) l.

(** X20: each preset of the library [normalizeStyleSeedLibrary] returns has
    at most 400 snippets, each of them non-empty and of at most 1200 code
    units. *)
Theorem seed_library_bounds (raw : raw_library) :
  bounded_snippets (lib_micro (normalizeStyleSeedLibrary raw))
  /\ bounded_snippets (lib_gross (normalizeStyleSeedLibrary raw))
  /\ bounded_snippets (lib_path (normalizeStyleSeedLibrary raw)).
Proof.
  assert (H : forall entry, bounded_snippets (normalize_preset entry)).
  { intros entry. destruct (normalize_preset_entries entry) as [Hl Hv].
    split; [exact Hl|]. apply Forall_forall. intros v Hin.
    exact (proj1 (Hv v Hin)). }
  unfold normalizeStyleSeedLibrary. cbn [lib_micro lib_gross lib_path].
  auto.
Qed.

(** X21: [normalizeLearningExample] returns nothing exactly when the input or
    the output is blank; an example it returns has a non-empty input of at
    most 1400 code units and a non-empty output of at most 2400. *)
Theorem learning_example_shape (input output : jstring) :
  (normalizeLearningExample input output = None
   <-> spaces input \/ spaces output)
  /\ (forall e, normalizeLearningExample input output = Some e ->
                0 < List.length (le_input e) <= 1400
                /\ 0 < List.length (le_output e) <= 2400).
Proof.
  destruct (learning_example_cases input output)
    as [[He Hs]|(e & He & Hi & Ho & Hl)]; rewrite He.
  - split; [tauto | discriminate].
  - split; [split; [discriminate | tauto]|].
    intros e' H; inversion H; subst. exact Hl.
Qed.

(** ** Copying all cards and pasting them back

    The copy and download buttons of the page write the cards shown, joined
    by the delimiter between two blank lines. *)

(** [blocks.join("\n\n" + d + "\n\n")] *)
Definition copy_all_text (blocks : list jstring) : jstring :=
  let d := getDelimiter in
  join ([LF; LF] ++ d ++ [LF; LF]) blocks.

Lemma no_match_snoc (d x : jstring) (c : char) :
  d <> [] -> ~ In c d -> no_match_in d x -> no_match_in d (x ++ [c]).
Proof.
  intros Hd Hc Hx pre v Hv.
  destruct v as [|v0 v'] eqn:Ev; [apply strip_prefix_nil_subject, Hd|].
  assert (Hne : v0 :: v' <> []) by discriminate.
  destruct (app_snoc_suffix _ _ _ _ Hv Hne) as (v1 & Hv1 & Hx1).
  rewrite Hv1. rewrite (strip_prefix_barrier d v1 c [] Hc).
  rewrite (Hx pre v1 Hx1). reflexivity.
Qed.

Lemma no_match_line_feeds (d x post : jstring) :
  d <> [] -> ~ In LF d -> no_match_in d x -> line_feeds post ->
  no_match_in d (x ++ post).
Proof.
  intros Hd Hlf Hx. induction post as [|c post IH] using rev_ind; intros Hp.
  - rewrite app_nil_r. exact Hx.
  - apply Forall_app in Hp as [Hp Hc]. inversion Hc; subst.
    rewrite app_assoc. apply no_match_snoc; auto.
Qed.

Lemma line_feeds_snoc (w : jstring) : line_feeds w -> LF :: w = w ++ [LF].
Proof.
  induction 1 as [|c w Hc _ IH]; [reflexivity|].
  subst c. simpl. rewrite <- IH. reflexivity.
Qed.

Section WideRoundTrip.
Variable d : jstring.
Hypothesis d_nonempty : d <> [].
Hypothesis d_one_line : ~ In LF d.
Variables pad1 pad2 : jstring.
Hypothesis pad1_feeds : line_feeds pad1.
Hypothesis pad2_feeds : line_feeds pad2.

(** The round trip of the parts, for a delimiter written after at least one
    line feed and before any number of them. *)
Lemma roundtrip_wide (parts : list jstring) :
  forall pre,
    parts <> [] -> line_feeds pre -> Forall (plain_part d) parts ->
    filter nonempty
      (map trim (split d (pre ++ join ((LF :: pad1) ++ d ++ pad2) parts)))
    = parts.
Proof.
  induction parts as [|p ps IH]; intros pre Hne Hpre Hall;
    [contradiction|].
  inversion Hall as [|? ? (Hp & Ht & Ho) Hps]; subst.
  assert (Htrim : forall post, spaces post -> trim (pre ++ p ++ post) = p).
  { intros post Hpost. rewrite trim_pad; auto using line_feeds_spaces. }
  assert (Hkeep : nonempty p = true)
    by (destruct p; [contradiction|reflexivity]).
  pose proof (no_match_padded d p pre d_nonempty d_one_line Ho Hpre) as Hnm.
  destruct ps as [|q ps].
  - simpl join. rewrite (split_none _ _ Hnm).
    specialize (Htrim [] eq_refl). rewrite app_nil_r in Htrim.
    simpl. rewrite Htrim, Hkeep. reflexivity.
  - rewrite join_cons by discriminate.
    rewrite (line_feeds_snoc pad1 pad1_feeds).
    set (J := join ((pad1 ++ [LF]) ++ d ++ pad2) (q :: ps)).
    replace (pre ++ p ++ ((pad1 ++ [LF]) ++ d ++ pad2) ++ J)
      with (((pre ++ p) ++ pad1) ++ [LF] ++ d ++ (pad2 ++ J))
      by list_eq.
    rewrite split_padded; try assumption;
      [|apply no_match_line_feeds; assumption].
    cbn [map].
    replace ((((pre ++ p) ++ pad1) ++ [LF])) with (pre ++ p ++ (pad1 ++ [LF]))
      by list_eq.
    rewrite Htrim.
    + cbn [filter]. rewrite Hkeep. f_equal. unfold J.
      rewrite <- (line_feeds_snoc pad1 pad1_feeds).
      apply (IH pad2); [discriminate | exact pad2_feeds | assumption].
    + apply line_feeds_spaces. apply Forall_app. split; [exact pad1_feeds|].
      constructor; [reflexivity | constructor].
Qed.
End WideRoundTrip.

(** No fence starts before a line feed and ends after it. *)
Lemma fence_across (a b : jstring) :
  contains FENCE a = false -> contains FENCE b = false ->
  contains FENCE (a ++ LF :: b) = false.
Proof.
  intros Ha Hb. induction a as [|c a IH].
  - rewrite contains_eq. exact Hb.
  - rewrite contains_eq in Ha.
    destruct (strip_prefix FENCE (c :: a)) as [r|] eqn:Hs; [discriminate|].
    rewrite contains_eq.
    assert (Hlf : ~ In LF FENCE).
    { intros H. simpl in H.
      repeat destruct H as [H|H]; try discriminate; contradiction. }
    rewrite (strip_prefix_barrier FENCE (c :: a) LF b Hlf), Hs.
    cbn [option_map app]. exact (IH Ha).
Qed.

Lemma join_fence_free (m : jstring) (parts : list jstring) :
  contains FENCE m = false ->
  Forall (fun p => contains FENCE p = false) parts ->
  contains FENCE (join (LF :: m ++ [LF]) parts) = false.
Proof.
  intros Hm. induction 1 as [|p ps Hp _ IH]; [reflexivity|].
  destruct ps as [|q ps]; [exact Hp|].
  rewrite join_cons by discriminate.
  replace (p ++ (LF :: m ++ [LF]) ++ join (LF :: m ++ [LF]) (q :: ps))
    with (p ++ LF :: (m ++ LF :: join (LF :: m ++ [LF]) (q :: ps)))
    by list_eq.
  apply fence_across; [exact Hp|]. apply fence_across; [exact Hm | exact IH].
Qed.

Lemma drop_while_keep (f : char -> bool) (p t : jstring) :
  p <> [] -> drop_while f p = p -> drop_while f (p ++ t) = p ++ t.
Proof.
  intros Hp H. pose proof (drop_while_head f p) as Hh. rewrite H in Hh.
  destruct p as [|c p]; [contradiction|].
  exact (drop_while_stop f c (p ++ t) Hh).
Qed.

Lemma trimmed_ends (p : jstring) :
  trim p = p ->
  drop_while is_space p = p /\ drop_while is_space (rev p) = rev p.
Proof.
  intros Ht.
  assert (H1 : drop_while is_space p = p).
  { destruct p as [|c r]; [reflexivity|].
    exact (drop_while_stop is_space c r (trim_head _ c r Ht)). }
  split; [exact H1|].
  apply (f_equal (@rev char)) in Ht. unfold trim in Ht.
  rewrite rev_involutive, H1 in Ht. exact Ht.
Qed.

Lemma trim_fixed (x : jstring) :
  drop_while is_space x = x -> drop_while is_space (rev x) = rev x ->
  trim x = x.
Proof.
  intros H1 H2. unfold trim. rewrite H1, H2. apply rev_involutive.
Qed.

Lemma join_trimmed (sep : jstring) (parts : list jstring) :
  Forall (fun p => p <> [] /\ trim p = p) parts ->
  trim (join sep parts) = join sep parts.
Proof.
  intros Hall. apply trim_fixed.
  - destruct Hall as [|p ps [Hp Ht] _]; [reflexivity|].
    destruct (trimmed_ends p Ht) as [H1 _].
    destruct ps as [|q ps]; [exact H1|].
    rewrite join_cons by discriminate.
    exact (drop_while_keep is_space p _ Hp H1).
  - induction Hall as [|p ps [Hp Ht] Hps IH]; [reflexivity|].
    destruct (trimmed_ends p Ht) as [_ H2].
    destruct ps as [|q ps]; [exact H2|].
    rewrite join_cons by discriminate.
    rewrite !rev_app_distr, <- app_assoc.
    apply drop_while_keep; [|exact IH].
    inversion Hps as [|? ? [Hq _] _]; subst.
    intros Hr. apply (f_equal (@rev char)) in Hr.
    rewrite rev_involutive in Hr. simpl in Hr.
    exact (join_nonempty sep q ps Hq Hr).
Qed.

Lemma paste_back (blocks : list jstring) :
  Forall (fun card => plain_part getDelimiter card
                      /\ ~ occurs_in FENCE card) blocks ->
  splitCards (copy_all_text blocks) = blocks.
Proof.
  intros Hall. destruct blocks as [|b bs]; [reflexivity|].
  set (cards := b :: bs) in *.
  unfold splitCards, stripCodeFences, copy_all_text.
  set (T := join ([LF; LF] ++ getDelimiter ++ [LF; LF]) cards).
  assert (Hclean : ~ occurs_in FENCE T).
  { apply not_contains.
    apply (join_fence_free (LF :: getDelimiter ++ [LF]) cards);
      [reflexivity|].
    apply Forall_forall. intros p Hp. rewrite Forall_forall in Hall.
    destruct (Hall p Hp) as [_ Hf].
    destruct (contains FENCE p) eqn:Hc; [|reflexivity].
    exfalso. apply Hf. apply contains_spec. exact Hc. }
  rewrite (remove_fences_none T Hclean).
  assert (Htrim : trim T = T).
  { apply join_trimmed. apply Forall_forall. intros p Hp.
    rewrite Forall_forall in Hall.
    destruct (Hall p Hp) as [(H1 & H2 & _) _]. auto. }
  rewrite Htrim.
  assert (Hd : getDelimiter <> []) by discriminate.
  assert (Hlf : ~ In LF getDelimiter).
  { intros H. simpl in H.
    repeat destruct H as [H|H]; try discriminate; contradiction. }
  apply (roundtrip_wide getDelimiter Hd Hlf [LF] [LF; LF]
           ltac:(repeat constructor) ltac:(repeat constructor) cards []).
  - discriminate.
  - constructor.
  - apply Forall_forall. intros p Hp. rewrite Forall_forall in Hall.
    exact (proj1 (Hall p Hp)).
Qed.

(** ** The page and the patterns *)

(** X22: the text the copy and download buttons write for the cards that
    [splitCards] found splits into the same cards again. *)
Theorem copy_paste_roundtrip (text : jstring) :
  splitCards (copy_all_text (splitCards text)) = splitCards text.
Proof.
  apply paste_back. apply Forall_forall. intros card Hin.
  exact (splitCards_cards text card Hin).
Qed.

(** X23: a span the pattern of the word limit matches at a position is
    matched at that position by the pattern of the capping pass as well,
    with the same text, index and content, and the same text after it. *)
Theorem exact_span_is_seen_by_cap
  (s : jstring) (m : span_match) (r : jstring) :
  strict_span s = Some (m, r) -> loose_span s = Some (m, r).
Proof.
  unfold strict_span, loose_span.
  destruct (strict_opener s) as [[n s1]|] eqn:Ho; [|discriminate].
  apply strict_opener_spec in Ho as [-> Hn].
  pose proof (loose_opener_text [] n [] s1 eq_refl eq_refl Hn) as Hl.
  unfold opener_text in Hl. cbn [app] in Hl.
  replace (lit "{{c" ++ n ++ lit "::" ++ s1)
    with (LBRACE :: LBRACE :: (lit "c" ++ n ++ lit "::") ++ s1) by list_eq.
  change (lit "{{") with [LBRACE; LBRACE] in Hl. cbn [app] in Hl.
  rewrite Hl.
  destruct (until_close s1) as [[inner rest]|]; [|discriminate].
  intros H; inversion H; subst. f_equal. f_equal.
  f_equal. list_eq.
Qed.

Lemma exact_span_is_seen_by_cap_witness :
  loose_span (lit "{{c2::vivax}} and more")
  = Some (SpanMatch (lit "{{c2::vivax}}") (lit "2") (lit "vivax"),
          lit " and more").
Proof.
  apply (exact_span_is_seen_by_cap (lit "{{c2::vivax}} and more")).
  reflexivity.
Defined.
